(** * Valheim mod manager: dependency resolver, hash cache and deployment engine

    A shallow embedding of [services/dependency_resolver.py],
    [utils/hash_utils.py], [core/exceptions.py] and
    [services/deployment_engine.py], with the properties the specification
    states about them.

    Conventions.
    - A Python [dict] is an association list in insertion order
      (module [Dict]); an [OrderedDict] is the same list, oldest entry first.
    - A Python [set] is a duplicate-free list; the order in which a [set] is
      iterated is not fixed by the language, so every loop over a set goes
      through a parameter [set_iter], of which only "a permutation of the
      elements" is assumed.
    - A function that may raise returns a [result]; a loop whose termination
      is not structural takes fuel and returns [None] when it runs out, and
      the theorems show that the fuel the entry points pass is enough.
    - Strings are ASCII strings; logging and the limits of the interpreter
      (recursion depth, memory, length of integer literals) are not
      modelled. *)

From Stdlib Require Import List String Ascii ZArith Lia Bool Arith.
From Stdlib Require Import Permutation Relations.
Import ListNotations.

Local Open Scope string_scope.
Local Open Scope list_scope.

(** ** Exceptions and results *)

Inductive exn : Type :=
| CircularDependencyError (dependency_chain : list string)
| MissingDependencyError (mod_id dependency_id version_constraint : string)
| KeyError (key : string)
| ValueError
| TypeError (message : string)
| OSError
| DeploymentError (message : string)
| DeploymentFailedError (cause : exn)
| GamePathInvalidError (message : string)
| RollbackError (cause : exn).

Inductive result (A : Type) : Type :=
| Ok (a : A)
| Raise (e : exn).

Arguments Ok {A} a.
Arguments Raise {A} e.

Definition bind {A B : Type} (r : result A) (k : A -> result B) : result B :=
  match r with
  | Ok a => k a
  | Raise e => Raise e
  end.

(** ** Keys with decidable equality *)

Class EqDec (K : Type) := eq_dec : forall a b : K, {a = b} + {a <> b}.

#[export] Instance string_EqDec : EqDec string := string_dec.
#[export] Instance list_EqDec {K : Type} `{EqDec K} : EqDec (list K) :=
  list_eq_dec eq_dec.

Definition mem {K : Type} `{EqDec K} (x : K) (l : list K) : bool :=
  if in_dec eq_dec x l then true else false.

(** [l.index(x)]: position of the first occurrence. *)
Fixpoint index {K : Type} `{EqDec K} (x : K) (l : list K) : option nat :=
  match l with
  | [] => None
  | y :: l' =>
      if eq_dec x y then Some 0%nat
      else match index x l' with
           | Some i => Some (S i)
           | None => None
           end
  end.

(** [s.add(x)] on a set kept as a duplicate-free list. *)
Definition set_add {K : Type} `{EqDec K} (x : K) (s : list K) : list K :=
  if mem x s then s else s ++ [x].

(** ** Python dictionaries *)

Module Dict.
Section Defs.
Context {K V : Type} `{EqDec K}.

Definition t := list (K * V).

Fixpoint get (d : list (K * V)) (k : K) : option V :=
  match d with
  | [] => None
  | (k', v) :: d' => if eq_dec k k' then Some v else get d' k
  end.

Definition keys (d : list (K * V)) : list K := map fst d.

Definition contains (d : list (K * V)) (k : K) : bool :=
  match get d k with Some _ => true | None => false end.

(** [d[k] = v]: an existing key keeps its place, a new one goes last. *)
Fixpoint set (d : list (K * V)) (k : K) (v : V) : list (K * V) :=
  match d with
  | [] => [(k, v)]
  | (k', v') :: d' =>
      if eq_dec k k' then (k', v) :: d' else (k', v') :: set d' k v
  end.

(** [del d[k]]. *)
Definition del (d : list (K * V)) (k : K) : list (K * V) :=
  filter (fun kv => if eq_dec k (fst kv) then false else true) d.

(** [OrderedDict.move_to_end(k)] for a key that is present. *)
Definition move_to_end (d : list (K * V)) (k : K) : list (K * V) :=
  match get d k with
  | Some v => del d k ++ [(k, v)]
  | None => d
  end.

End Defs.
End Dict.

(** ** core/models.py: the fields the resolver and the engine read *)

Definition path := list string.

Record ModDependency : Type := {
  mod_id : string;
  version_constraint : string
}.

Record Mod : Type := {
  id : string;
  name : string;
  version : string;
  dependencies : list ModDependency;
  config_files : list string;
  install_path : option path;
  enabled : bool;
  load_order : Z
}.

Definition dep_ids (m : Mod) : list string := map mod_id (dependencies m).

(** ** services/dependency_resolver.py *)

(** [Dict[str, Set[str]]]: node -> the ids it depends on. *)
Definition graph := list (string * list string).

(** [graph[node]] on the [defaultdict(set)]: a missing key reads as the empty
    set. *)
Definition graph_get (g : graph) (node : string) : list string :=
  match Dict.get g node with
  | Some s => s
  | None => []
  end.

Inductive color : Type := WHITE | GRAY | BLACK.

Definition color_eqb (a b : color) : bool :=
  match a, b with
  | WHITE, WHITE | GRAY, GRAY | BLACK, BLACK => true
  | _, _ => false
  end.

Section Resolver.

(** Iteration order of a Python set holding the given elements. *)
Variable set_iter : list string -> list string.

Definition neighbors (g : graph) (node : string) : list string :=
  set_iter (graph_get g node).

(** [register_mod] / [register_mods]. *)
Definition register_mod (reg : list (string * Mod)) (m : Mod) : list (string * Mod) :=
  Dict.set reg (id m) m.

Definition register_mods (reg : list (string * Mod)) (mods : list Mod) : list (string * Mod) :=
  fold_left register_mod mods reg.

(** Inner loop of [_build_dependency_graph]: the dependencies of one mod. *)
Fixpoint add_dependencies (mod_ids : list string) (m : Mod)
    (deps : list ModDependency) (g : graph) : result graph :=
  match deps with
  | [] => Ok g
  | dep :: deps' =>
      if mem (mod_id dep) mod_ids
      then add_dependencies mod_ids m deps'
             (Dict.set g (id m) (set_add (mod_id dep) (graph_get g (id m))))
      else Raise (MissingDependencyError (id m) (mod_id dep) (version_constraint dep))
  end.

Fixpoint build_loop (mod_ids : list string) (mods : list Mod) (g : graph) : result graph :=
  match mods with
  | [] => Ok g
  | m :: mods' =>
      let g1 := if Dict.contains g (id m) then g else Dict.set g (id m) [] in
      match add_dependencies mod_ids m (dependencies m) g1 with
      | Ok g2 => build_loop mod_ids mods' g2
      | Raise e => Raise e
      end
  end.

Definition _build_dependency_graph (mods : list Mod) : result graph :=
  build_loop (map id mods) mods [].

(** The [for neighbor in graph[node]: dfs(neighbor, path.copy())] loop. *)
Fixpoint visit_all (visit : string -> list (string * color) -> option (result (list (string * color))))
    (ns : list string) (colors : list (string * color))
    : option (result (list (string * color))) :=
  match ns with
  | [] => Some (Ok colors)
  | n :: ns' =>
      match visit n colors with
      | Some (Ok colors') => visit_all visit ns' colors'
      | other => other
      end
  end.

(** The nested [dfs(node, path)] of [_check_circular_dependencies]; the
    colours it mutates are threaded through. *)
Fixpoint dfs (g : graph) (fuel : nat) (node : string) (path : list string)
    (colors : list (string * color)) : option (result (list (string * color))) :=
  match fuel with
  | O => None
  | S fuel' =>
      match Dict.get colors node with
      | None => Some (Raise (KeyError node))
      | Some GRAY =>
          match index node path with
          | Some cycle_start =>
              Some (Raise (CircularDependencyError (skipn cycle_start path ++ [node])))
          | None => Some (Raise ValueError)
          end
      | Some BLACK => Some (Ok colors)
      | Some WHITE =>
          let colors1 := Dict.set colors node GRAY in
          let path1 := path ++ [node] in
          match visit_all (fun n cs => dfs g fuel' n path1 cs) (neighbors g node) colors1 with
          | Some (Ok colors2) => Some (Ok (Dict.set colors2 node BLACK))
          | other => other
          end
      end
  end.

(** [for node in graph: if colors[node] == WHITE: dfs(node, [])]. *)
Fixpoint check_loop (g : graph) (fuel : nat) (nodes : list string)
    (colors : list (string * color)) : option (result (list (string * color))) :=
  match nodes with
  | [] => Some (Ok colors)
  | node :: nodes' =>
      match Dict.get colors node with
      | None => Some (Raise (KeyError node))
      | Some WHITE =>
          match dfs g fuel node [] colors with
          | Some (Ok colors') => check_loop g fuel nodes' colors'
          | other => other
          end
      | Some _ => check_loop g fuel nodes' colors
      end
  end.

Definition init_colors (g : graph) : list (string * color) :=
  map (fun node => (node, WHITE)) (Dict.keys g).

(** The recursion of [dfs] is at most one frame per node plus one, which is
    the fuel given here. *)
Definition _check_circular_dependencies (g : graph) : option (result unit) :=
  match check_loop g (S (List.length g)) (Dict.keys g) (init_colors g) with
  | Some (Ok _) => Some (Ok tt)
  | Some (Raise e) => Some (Raise e)
  | None => None
  end.

(** [in_degree[neighbor] = in_degree.get(neighbor, 0) + 1] for every
    neighbour of one node. *)
Definition count_step (in_degree : list (string * Z)) (neighbor : string) : list (string * Z) :=
  Dict.set in_degree neighbor
    (match Dict.get in_degree neighbor with Some v => v | None => 0 end + 1)%Z.

Definition count_in_degrees (g : graph) : list (string * Z) :=
  fold_left (fun d node => fold_left count_step (neighbors g node) d)
            (Dict.keys g)
            (map (fun node => (node, 0%Z)) (Dict.keys g)).

(** [[node for node in graph if in_degree[node] == 0]]. *)
Fixpoint zero_in_degree (in_degree : list (string * Z)) (nodes : list string)
    : result (list string) :=
  match nodes with
  | [] => Ok []
  | node :: nodes' =>
      match Dict.get in_degree node with
      | None => Raise (KeyError node)
      | Some v =>
          match zero_in_degree in_degree nodes' with
          | Ok q => Ok (if (v =? 0)%Z then node :: q else q)
          | Raise e => Raise e
          end
      end
  end.

(** [for neighbor in graph[node]: in_degree[neighbor] -= 1; if
    in_degree[neighbor] == 0: queue.append(neighbor)]. *)
Fixpoint release (ns : list string) (in_degree : list (string * Z)) (queue : list string)
    : result (list (string * Z) * list string) :=
  match ns with
  | [] => Ok (in_degree, queue)
  | neighbor :: ns' =>
      match Dict.get in_degree neighbor with
      | None => Raise (KeyError neighbor)
      | Some v =>
          let v' := (v - 1)%Z in
          release ns' (Dict.set in_degree neighbor v')
                  (if (v' =? 0)%Z then queue ++ [neighbor] else queue)
      end
  end.

(** The [while queue:] loop of Kahn's algorithm. *)
Fixpoint kahn_loop (g : graph) (fuel : nat) (in_degree : list (string * Z))
    (queue sorted_list : list string) : option (result (list string)) :=
  match fuel with
  | O => None
  | S fuel' =>
      match queue with
      | [] => Some (Ok sorted_list)
      | node :: queue' =>
          match release (neighbors g node) in_degree queue' with
          | Ok (in_degree', queue'') =>
              kahn_loop g fuel' in_degree' queue'' (sorted_list ++ [node])
          | Raise e => Some (Raise e)
          end
      end
  end.

(** Every node enters the queue at most once, so [len(graph) + 1] rounds are
    enough. *)
Definition _topological_sort (g : graph) : option (result (list string)) :=
  let in_degree := count_in_degrees g in
  match zero_in_degree in_degree (Dict.keys g) with
  | Raise e => Some (Raise e)
  | Ok queue =>
      match kahn_loop g (S (List.length g)) in_degree queue [] with
      | Some (Ok sorted_list) =>
          if Nat.eqb (List.length sorted_list) (List.length g)
          then Some (Ok (rev sorted_list))
          else Some (Raise (CircularDependencyError
                 (set_iter (filter (fun k => negb (mem k sorted_list)) (Dict.keys g)))))
      | other => other
      end
  end.

(** [resolve_load_order]: the registry is updated first, whatever follows. *)
Definition resolve_load_order (reg : list (string * Mod)) (mods : list Mod)
    : list (string * Mod) * option (result (list string)) :=
  let reg' := register_mods reg mods in
  (reg',
   match _build_dependency_graph mods with
   | Raise e => Some (Raise e)
   | Ok g =>
       match _check_circular_dependencies g with
       | Some (Ok _) => _topological_sort g
       | Some (Raise e) => Some (Raise e)
       | None => None
       end
   end).

(** The [while queue:] loop of [get_all_dependencies]. *)
Fixpoint bfs_loop (reg : list (string * Mod)) (origin : string) (fuel : nat)
    (visited queue dependencies_acc : list string) : option (list string) :=
  match fuel with
  | O => None
  | S fuel' =>
      match queue with
      | [] => Some dependencies_acc
      | current_id :: queue' =>
          if mem current_id visited || String.eqb current_id origin
          then bfs_loop reg origin fuel' visited queue' dependencies_acc
          else
            let visited' := current_id :: visited in
            let queue'' :=
              match Dict.get reg current_id with
              | Some current_mod =>
                  queue' ++ filter (fun d => negb (mem d visited')) (dep_ids current_mod)
              | None => queue'
              end in
            bfs_loop reg origin fuel' visited' queue'' (dependencies_acc ++ [current_id])
      end
  end.

(** One round per queued id: the origin, then at most one per dependency
    entry of the registry. *)
Definition bfs_fuel (reg : list (string * Mod)) : nat :=
  S (S (List.length (flat_map (fun kv => dependencies (snd kv)) reg))).

Definition get_all_dependencies (reg : list (string * Mod)) (mod_id0 : string)
    (recursive : bool) : option (list string) :=
  match Dict.get reg mod_id0 with
  | None => Some []
  | Some m =>
      if negb recursive then Some (dep_ids m)
      else bfs_loop reg mod_id0 (bfs_fuel reg) [] [mod_id0] []
  end.

(** The [while to_process:] loop of [auto_resolve_dependencies]; [required]
    is the set, kept in insertion order. *)
Fixpoint auto_loop (available_mods : list (string * Mod)) (fuel : nat)
    (reg : list (string * Mod)) (required to_process : list string)
    : option (list (string * Mod) * list string) :=
  match fuel with
  | O => None
  | S fuel' =>
      match to_process with
      | [] => Some (reg, required)
      | current_id :: rest =>
          match Dict.get available_mods current_id with
          | None => auto_loop available_mods fuel' reg required rest
          | Some m =>
              let '(required', rest') :=
                fold_left (fun (st : list string * list string) (dep : ModDependency) =>
                             let '(rq, tp) := st in
                             if mem (mod_id dep) rq then (rq, tp)
                             else (rq ++ [mod_id dep], tp ++ [mod_id dep]))
                          (dependencies m) (required, rest) in
              auto_loop available_mods fuel' (register_mod reg m) required' rest'
          end
      end
  end.

(** Each id is queued at most once: the requested ones, then one per
    dependency entry of the catalogue. *)
Definition auto_fuel (mod_ids : list string) (available_mods : list (string * Mod)) : nat :=
  S (List.length mod_ids
     + List.length (flat_map (fun kv => dependencies (snd kv)) available_mods)).

Definition auto_resolve_dependencies (reg : list (string * Mod)) (mod_ids : list string)
    (available_mods : list (string * Mod))
    : option (list (string * Mod) * option (result (list string))) :=
  match auto_loop available_mods (auto_fuel mod_ids available_mods) reg
                  (nodup string_dec mod_ids) mod_ids with
  | None => None
  | Some (reg', required) =>
      let mods_to_sort :=
        flat_map (fun mid => match Dict.get available_mods mid with
                             | Some m => [m]
                             | None => []
                             end) (set_iter required) in
      Some (resolve_load_order reg' mods_to_sort)
  end.

End Resolver.

(** *** Version comparison *)

(** [v.split('.')]. *)
Fixpoint split_dot (s : string) : list string :=
  match s with
  | EmptyString => [EmptyString]
  | String c rest =>
      if Ascii.eqb c "."%char then EmptyString :: split_dot rest
      else match split_dot rest with
           | [] => [String c EmptyString]
           | piece :: pieces => String c piece :: pieces
           end
  end.

(** Whitespace that [int()] strips (ASCII range). *)
Definition is_space (c : ascii) : bool :=
  let n := nat_of_ascii c in
  (Nat.leb 9 n && Nat.leb n 13) || (Nat.leb 28 n && Nat.leb n 32).

Definition digit_value (c : ascii) : option Z :=
  let n := nat_of_ascii c in
  if Nat.leb 48 n && Nat.leb n 57 then Some (Z.of_nat (n - 48)) else None.

Fixpoint lstrip (s : string) : string :=
  match s with
  | String c rest => if is_space c then lstrip rest else s
  | EmptyString => EmptyString
  end.

Fixpoint string_rev (acc s : string) : string :=
  match s with
  | EmptyString => acc
  | String c rest => string_rev (String c acc) rest
  end.

Definition strip (s : string) : string :=
  string_rev EmptyString (lstrip (string_rev EmptyString (lstrip s))).

(** Digits with single underscores between them, as [int()] accepts them;
    [after_digit] tells whether the previous character was a digit. *)
Fixpoint parse_digits (acc : Z) (after_digit : bool) (s : string) : option Z :=
  match s with
  | EmptyString => if after_digit then Some acc else None
  | String c rest =>
      match digit_value c with
      | Some d => parse_digits (10 * acc + d)%Z true rest
      | None =>
          if Ascii.eqb c "_"%char && after_digit
          then parse_digits acc false rest
          else None
      end
  end.

(** [int(s)] for a string argument; [None] stands for [ValueError]. *)
Definition py_int (s : string) : option Z :=
  match strip s with
  | String "+"%char rest => parse_digits 0 false rest
  | String "-"%char rest => option_map Z.opp (parse_digits 0 false rest)
  | body => parse_digits 0 false body
  end.

(** [tuple(map(int, pieces))], failing as soon as one piece fails. *)
Fixpoint int_tuple (pieces : list string) : option (list Z) :=
  match pieces with
  | [] => Some []
  | p :: ps =>
      match py_int p with
      | None => None
      | Some n => option_map (cons n) (int_tuple ps)
      end
  end.

(** The nested [normalize] of [_compare_versions]. *)
Definition normalize (v : string) : list Z :=
  match int_tuple (split_dot v) with
  | Some t => t
  | None => [0; 0; 0]%Z
  end.

(** [a < b] on tuples of integers. *)
Fixpoint tuple_lt (a b : list Z) : bool :=
  match a, b with
  | [], [] => false
  | [], _ :: _ => true
  | _ :: _, [] => false
  | x :: a', y :: b' => if (x =? y)%Z then tuple_lt a' b' else (x <? y)%Z
  end.

Definition _compare_versions (v1 v2 : string) : Z :=
  let v1_tuple := normalize v1 in
  let v2_tuple := normalize v2 in
  if tuple_lt v1_tuple v2_tuple then (-1)%Z
  else if tuple_lt v2_tuple v1_tuple then 1%Z
  else 0%Z.

(** The reading of the specification, for comparison: every component is
    converted on its own, a component that is not a number counting as 0. *)
Definition spec_normalize (v : string) : list Z :=
  map (fun p => match py_int p with Some n => n | None => 0%Z end) (split_dot v).

Definition spec_compare_versions (v1 v2 : string) : Z :=
  if tuple_lt (spec_normalize v1) (spec_normalize v2) then (-1)%Z
  else if tuple_lt (spec_normalize v2) (spec_normalize v1) then 1%Z
  else 0%Z.

(** ** utils/hash_utils.py: HashCache *)

(** What [Path.stat()] gives; [st_mtime] is compared with [==] only, so any
    numeric type with equality models it. *)
Record stat_result : Type := {
  st_mtime : Z;
  st_size : Z
}.

(** Value of a cache entry: [(fingerprint, mtime, size)]. *)
Definition cache_entry : Type := (string * Z * Z)%type.

(** [HashCache.get]: [stat] is the result of [file_path.stat()], [None] when
    it raises [OSError]; the cache is returned next to the answer. *)
Definition HashCache_get (stat : string -> option stat_result)
    (cache : list (string * cache_entry)) (key : string)
    : option string * list (string * cache_entry) :=
  match Dict.get cache key with
  | None => (None, cache)
  | Some (cached_hash, cached_mtime, cached_size) =>
      match stat key with
      | Some st =>
          if (st_mtime st =? cached_mtime)%Z && (st_size st =? cached_size)%Z
          then (Some cached_hash, Dict.move_to_end cache key)
          else (None, Dict.del cache key)
      | None => (None, Dict.del cache key)
      end
  end.

(** [HashCache.put]. *)
Definition HashCache_put (max_size : nat) (stat : string -> option stat_result)
    (cache : list (string * cache_entry)) (key file_hash : string)
    : list (string * cache_entry) :=
  match stat key with
  | Some st =>
      let cache1 := Dict.move_to_end (Dict.set cache key (file_hash, st_mtime st, st_size st)) key in
      if Nat.ltb max_size (List.length cache1) then tl cache1 else cache1
  | None => cache
  end.

(** ** The file system the engine works on *)

Inductive node : Type :=
| File (content : string)
| Dir.

(** Entries by path (list of components from the root, [[]] being the root);
    the order of the list is the order in which a directory scan yields
    them. *)
Definition filesystem := list (path * node).

Definition parent (p : path) : path := removelast p.

Definition path_exists (fs : filesystem) (p : path) : bool := Dict.contains fs p.

Definition is_file (fs : filesystem) (p : path) : bool :=
  match Dict.get fs p with Some (File _) => true | _ => false end.

Definition is_dir (fs : filesystem) (p : path) : bool :=
  match Dict.get fs p with Some Dir => true | _ => false end.

(** [any(d.iterdir())]: some entry lies directly in [d]. *)
Definition has_child (fs : filesystem) (d : path) : bool :=
  existsb (fun kv => match fst kv with
                     | [] => false
                     | q => if eq_dec (parent q) d then true else false
                     end) fs.

(** [is_under root p]: [p] lies strictly below [root]. *)
Fixpoint is_under (root p : path) : bool :=
  match root, p with
  | [], [] => false
  | [], _ :: _ => true
  | _ :: _, [] => false
  | a :: root', b :: p' => String.eqb a b && is_under root' p'
  end.

(** [Path.mkdir(parents=True, exist_ok=True)]. *)
Fixpoint mkdir_prefixes (fs : filesystem) (done rest : path) : result filesystem :=
  match rest with
  | [] => Ok fs
  | c :: rest' =>
      let p := done ++ [c] in
      match Dict.get fs p with
      | Some Dir => mkdir_prefixes fs p rest'
      | Some (File _) => Raise OSError
      | None => mkdir_prefixes (Dict.set fs p Dir) p rest'
      end
  end.

Definition mkdir_parents (fs : filesystem) (p : path) : result filesystem :=
  mkdir_prefixes fs [] p.

(** [shutil.copy2(src, dst)]. *)
Definition copy2 (fs : filesystem) (src dst : path) : result filesystem :=
  match Dict.get fs src with
  | Some (File c) =>
      match Dict.get fs dst with
      | Some Dir => Ok (Dict.set fs (dst ++ [last src EmptyString]) (File c))
      | Some (File _) => Ok (Dict.set fs dst (File c))
      | None => if is_dir fs (parent dst) then Ok (Dict.set fs dst (File c))
                else Raise OSError
      end
  | _ => Raise OSError
  end.

(** The [while parent.exists() and not any(parent.iterdir())] loop of
    [_remove_file]; [rparent] is the directory reached, last component
    first, so that [parent.parent] is its tail.  [removable p] tells whether
    the operating system lets the entry at [p] go (permissions, a file in
    use, a mount point): when it does not, [rmdir] raises [OSError], which
    ends the loop, as does [rmdir] of the root. *)
Fixpoint prune (removable : path -> bool) (fs : filesystem) (rparent : list string)
    : filesystem :=
  match Dict.get fs (rev rparent) with
  | Some Dir =>
      if has_child fs (rev rparent) then fs
      else match rparent with
           | [] => fs
           | _ :: rparent' =>
               if removable (rev rparent)
               then prune removable (Dict.del fs (rev rparent)) rparent'
               else fs
           end
  | _ => fs
  end.

(** [DeploymentEngine._remove_file]: [unlink] and the loop are inside one
    [try]; every exception is caught and logged, so an [unlink] that is
    refused leaves the file and skips the loop.  A directory that cannot be
    listed ends the loop like one that cannot be removed.  [path.exists()],
    before the [try], is taken to answer. *)
Definition _remove_file (removable : path -> bool) (fs : filesystem) (file_path : path)
    : filesystem :=
  match Dict.get fs file_path with
  | Some (File _) =>
      if removable file_path
      then prune removable (Dict.del fs file_path) (rev (parent file_path))
      else fs
  | _ => fs
  end.

(** [s.split('/')]. *)
Fixpoint split_slash (s : string) : list string :=
  match s with
  | EmptyString => [EmptyString]
  | String c rest =>
      if Ascii.eqb c "/"%char then EmptyString :: split_slash rest
      else match split_slash rest with
           | [] => [String c EmptyString]
           | piece :: pieces => String c piece :: pieces
           end
  end.

(** The components [PurePosixPath(s)] keeps: empty pieces and [.] are
    dropped, [..] stays. *)
Definition path_parts (s : string) : list string :=
  filter (fun piece => negb (String.eqb piece EmptyString || String.eqb piece "."))
         (split_slash s).

Definition is_absolute (s : string) : bool :=
  match s with
  | String c _ => Ascii.eqb c "/"%char
  | EmptyString => false
  end.

(** [base / s] for a [PosixPath] and a [str]: an absolute [s] replaces
    [base], otherwise its components are appended.  (Exactly two leading
    slashes, which POSIX keeps as a root of its own, are read as one.) *)
Definition joinpath (base : path) (s : string) : path :=
  if is_absolute s then path_parts s else base ++ path_parts s.

(** ** services/deployment_engine.py *)

Record Profile : Type := {
  profile_name : string;
  mods : list Mod;
  game_path : option path;
  active : bool
}.

(** A row of the [deployment_state] table ([file_path] is its primary key). *)
Record state_row : Type := {
  row_file_path : path;
  row_file_hash : string;
  row_mod_id : string;
  row_profile_name : string
}.

Record DeploymentCheckpoint : Type := {
  cp_profile_name : string;
  cp_game_path : path;
  cp_timestamp : string;
  cp_backup_path : path;
  cp_deployment_state : list (path * string);
  cp_files_modified : list path
}.

Record engine : Type := {
  fs : filesystem;
  db : list state_row;
  current_checkpoint : option DeploymentCheckpoint
}.

Definition with_fs (e : engine) (fs' : filesystem) : engine :=
  {| fs := fs'; db := db e; current_checkpoint := current_checkpoint e |}.

Definition with_db (e : engine) (db' : list state_row) : engine :=
  {| fs := fs e; db := db'; current_checkpoint := current_checkpoint e |}.

Definition with_checkpoint (e : engine) (c : option DeploymentCheckpoint) : engine :=
  {| fs := fs e; db := db e; current_checkpoint := c |}.

(** [Database.get_deployment_state]. *)
Definition get_deployment_state (rows : list state_row) (profile : string)
    : list (path * string) :=
  fold_left (fun d r => Dict.set d (row_file_path r) (row_file_hash r))
            (filter (fun r => match profile with
                              | EmptyString => true
                              | _ => String.eqb (row_profile_name r) profile
                              end) rows)
            [].

(** [Database.save_deployment_state]: [INSERT OR REPLACE]. *)
Definition save_deployment_state (rows : list state_row) (file_path : path)
    (file_hash owner profile : string) : list state_row :=
  filter (fun r => if eq_dec (row_file_path r) file_path then false else true) rows
  ++ [{| row_file_path := file_path; row_file_hash := file_hash;
         row_mod_id := owner; row_profile_name := profile |}].

(** [Database.clear_deployment_state]. *)
Definition clear_deployment_state (rows : list state_row) (profile : string)
    : list state_row :=
  match profile with
  | EmptyString => []
  | _ => filter (fun r => negb (String.eqb (row_profile_name r) profile)) rows
  end.

Definition BEPINEX_PLUGINS_DIR : path := ["BepInEx"; "plugins"].
Definition BEPINEX_CONFIG_DIR : path := ["BepInEx"; "config"].
Definition metadata_files : list string :=
  ["manifest.json"; "icon.png"; "README.md"; "CHANGELOG.md"].

Definition Profile_get_enabled_mods (p : Profile) : list Mod :=
  filter enabled (mods p).

(** [list.sort(key=lambda m: m.load_order)]: stable. *)
Fixpoint insert_by_load_order (m : Mod) (l : list Mod) : list Mod :=
  match l with
  | [] => [m]
  | x :: l' => if (load_order m <=? load_order x)%Z then m :: l
               else x :: insert_by_load_order m l'
  end.

Definition sort_by_load_order (l : list Mod) : list Mod :=
  fold_right insert_by_load_order [] l.

Section Engine.

(** The digest of a file content ([xxhash.xxh64(...).hexdigest()]). *)
Variable digest : string -> string.
(** [datetime.now()], formatted. *)
Variable now : string.
(** [Settings.BACKUPS_DIR]. *)
Variable BACKUPS_DIR : path.
(** [json.dump] of the checkpoint metadata. *)
Variable dump_checkpoint : DeploymentCheckpoint -> string.
(** [ConfigManager.load_config(mod_id, profile_name)]: the text of the
    configuration to deploy, if there is one. *)
Variable load_config : filesystem -> string -> string -> result (option string).
(** Whether the operating system lets the entry at a path be removed
    ([unlink] or [rmdir] raises [OSError] when it does not). *)
Variable removable : path -> bool.

(** [calculate_file_hash]. *)
Definition calculate_file_hash (fs0 : filesystem) (p : path) : result string :=
  match Dict.get fs0 p with
  | None => Ok EmptyString
  | Some (File c) => Ok (digest c)
  | Some Dir => Raise OSError
  end.

(** [_get_mod_files]. *)
Definition _get_mod_files (fs0 : filesystem) (m : Mod) : list path :=
  match install_path m with
  | None => []
  | Some root =>
      if path_exists fs0 root
      then filter (fun p => is_under root p && is_file fs0 p
                            && negb (mem (last p EmptyString) metadata_files))
                  (Dict.keys fs0)
      else []
  end.

Definition install_path_exists (fs0 : filesystem) (m : Mod) : bool :=
  match install_path m with
  | None => false
  | Some root => path_exists fs0 root
  end.

(** Destination of a source file of a mod:
    [plugins_dir / mod.id / rel_path]. *)
Definition destination (plugins_dir : path) (m : Mod) (root src_file : path) : path :=
  joinpath plugins_dir (id m) ++ skipn (List.length root) src_file.

(** The loop of [calculate_changes] that fills [new_state]. *)
Fixpoint hash_files (fs0 : filesystem) (plugins_dir : path) (m : Mod) (root : path)
    (files : list path) (new_state : list (path * string)) : result (list (path * string)) :=
  match files with
  | [] => Ok new_state
  | src_file :: files' =>
      match calculate_file_hash fs0 src_file with
      | Ok h => hash_files fs0 plugins_dir m root files'
                  (Dict.set new_state (destination plugins_dir m root src_file) h)
      | Raise e => Raise e
      end
  end.

Fixpoint build_new_state (fs0 : filesystem) (profile : Profile) (ms : list Mod)
    (new_state : list (path * string)) : result (list (path * string)) :=
  match ms with
  | [] => Ok new_state
  | m :: ms' =>
      match install_path m with
      | Some root =>
          if path_exists fs0 root
          then match game_path profile with
               | None => Raise (TypeError "unsupported operand type(s) for /")
               | Some gp =>
                   match hash_files fs0 (gp ++ BEPINEX_PLUGINS_DIR) m root
                                    (_get_mod_files fs0 m) new_state with
                   | Ok st => build_new_state fs0 profile ms' st
                   | Raise e => Raise e
                   end
               end
          else build_new_state fs0 profile ms' new_state
      | None => build_new_state fs0 profile ms' new_state
      end
  end.

Record changes : Type := {
  to_add : list path;
  to_update : list path;
  to_remove : list path
}.

Definition diff_states (current_state new_state : list (path * string)) : changes :=
  {| to_add := map fst (filter (fun kv => negb (Dict.contains current_state (fst kv))) new_state);
     to_update := map fst (filter (fun kv =>
                     match Dict.get current_state (fst kv) with
                     | Some h => negb (String.eqb h (snd kv))
                     | None => false
                     end) new_state);
     to_remove := filter (fun p => negb (Dict.contains new_state p))
                         (Dict.keys current_state) |}.

(** [calculate_changes]: reads the engine, leaves it as it is. *)
Definition calculate_changes (e : engine) (profile : Profile) (ms : list Mod)
    : result changes * engine :=
  let current_state := get_deployment_state (db e) (profile_name profile) in
  (match build_new_state (fs e) profile ms [] with
   | Ok new_state => Ok (diff_states current_state new_state)
   | Raise err => Raise err
   end, e).

(** [_should_copy_file]. *)
Definition _should_copy_file (fs0 : filesystem) (src dst : path) : result bool :=
  if negb (path_exists fs0 dst) then Ok true
  else match calculate_file_hash fs0 src, calculate_file_hash fs0 dst with
       | Ok a, Ok b => Ok (negb (String.eqb a b))
       | Raise err, _ => Raise err
       | _, Raise err => Raise err
       end.

(** [validate_game_path]. *)
Definition validate_game_path (fs0 : filesystem) (gp : path) : result bool :=
  if negb (path_exists fs0 gp) then Raise (GamePathInvalidError "Game path does not exist")
  else if existsb (fun exe => path_exists fs0 (gp ++ [exe]))
                  ["valheim.exe"; "valheim"; "valheim.x86_64"]
       then Ok true
       else Raise (GamePathInvalidError "Game executable not found").

(** The backup loop of [create_checkpoint]; the file system is returned as
    far as it got when a copy raises. *)
Fixpoint backup_files (fs0 : filesystem) (gp backup : path) (files : list path)
    (saved : list path) : result (list path) * filesystem :=
  match files with
  | [] => (Ok saved, fs0)
  | src :: files' =>
      if path_exists fs0 src then
        if is_under gp src || (if eq_dec gp src then true else false) then
          let dst := backup ++ skipn (List.length gp) src in
          match mkdir_parents fs0 (parent dst) with
          | Raise err => (Raise err, fs0)
          | Ok fs1 =>
              match copy2 fs1 src dst with
              | Raise err => (Raise err, fs1)
              | Ok fs2 => backup_files fs2 gp backup files' (saved ++ [src])
              end
          end
        else (Raise ValueError, fs0)
      else backup_files fs0 gp backup files' saved
  end.

(** [create_checkpoint(profile)]. *)
Definition create_checkpoint (e : engine) (profile : Profile)
    : result DeploymentCheckpoint * engine :=
  match game_path profile with
  | None => (Raise (DeploymentError "Profile has no game path set"), e)
  | Some gp =>
      let backup := BACKUPS_DIR ++ [String.append "checkpoint_" now] in
      let deployment_state := get_deployment_state (db e) (profile_name profile) in
      match backup_files (fs e) gp backup (Dict.keys deployment_state) [] with
      | (Raise err, fs1) => (Raise err, with_fs e fs1)
      | (Ok saved, fs1) =>
          let checkpoint :=
            {| cp_profile_name := profile_name profile; cp_game_path := gp;
               cp_timestamp := now; cp_backup_path := backup;
               cp_deployment_state := deployment_state;
               cp_files_modified := saved |} in
          match mkdir_parents fs1 backup with
          | Raise err => (Raise err, with_fs e fs1)
          | Ok fs2 =>
              (Ok checkpoint,
               with_fs e (Dict.set fs2 (backup ++ ["checkpoint.json"])
                                   (File (dump_checkpoint checkpoint))))
          end
      end
  end.

(** The restore loop of [rollback]. *)
Fixpoint restore_files (fs0 : filesystem) (backup gp : path) (files : list path)
    : result unit * filesystem :=
  match files with
  | [] => (Ok tt, fs0)
  | backup_file :: files' =>
      let dst := gp ++ skipn (List.length backup) backup_file in
      match mkdir_parents fs0 (parent dst) with
      | Raise err => (Raise err, fs0)
      | Ok fs1 =>
          match copy2 fs1 backup_file dst with
          | Raise err => (Raise err, fs1)
          | Ok fs2 => restore_files fs2 backup gp files'
          end
      end
  end.

(** [rollback(checkpoint)]. *)
Definition rollback (e : engine) (checkpoint : option DeploymentCheckpoint)
    : result bool * engine :=
  match (match checkpoint with Some c => Some c | None => current_checkpoint e end) with
  | None => (Raise (RollbackError (DeploymentError "No checkpoint available for rollback")), e)
  | Some c =>
      let current_state := get_deployment_state (db e) (cp_profile_name c) in
      let fs1 := fold_left (_remove_file removable) (Dict.keys current_state) (fs e) in
      let backups :=
        if path_exists fs1 (cp_backup_path c)
        then filter (fun p => is_under (cp_backup_path c) p && is_file fs1 p
                              && negb (String.eqb (last p EmptyString) "checkpoint.json"))
                    (Dict.keys fs1)
        else [] in
      match restore_files fs1 (cp_backup_path c) (cp_game_path c) backups with
      | (Raise err, fs2) => (Raise (RollbackError err), with_fs e fs2)
      | (Ok _, fs2) =>
          let db1 := clear_deployment_state (db e) (cp_profile_name c) in
          let db2 := fold_left (fun rows kv =>
                        save_deployment_state rows (fst kv) (snd kv) EmptyString (cp_profile_name c))
                      (cp_deployment_state c) db1 in
          (Ok true, with_db (with_fs e fs2) db2)
      end
  end.

(** A progress callback: [callback(current, total, message)], which may
    raise. *)
Definition progress := option (Z -> Z -> string -> result unit).

Definition report (cb : progress) (current total : Z) (message : string) : result unit :=
  match cb with
  | Some f => f current total message
  | None => Ok tt
  end.

(** The removal loop of [deploy_profile]. *)
Fixpoint remove_loop (cb : progress) (total : Z) (files : list path)
    (fs0 : filesystem) (current : Z) : result Z * filesystem :=
  match files with
  | [] => (Ok current, fs0)
  | file_path :: files' =>
      match report cb current total (String.append "Removing: " (last file_path EmptyString)) with
      | Raise err => (Raise err, fs0)
      | Ok _ => remove_loop cb total files' (_remove_file removable fs0 file_path)
                  (current + 1)%Z
      end
  end.

(** The copy loop over the files of one mod. *)
Fixpoint copy_files (cb : progress) (total : Z) (profile : Profile) (plugins_dir : path)
    (m : Mod) (root : path) (files : list path) (e : engine) (current : Z)
    : result Z * engine :=
  match files with
  | [] => (Ok current, e)
  | src_file :: files' =>
      let dst_file := destination plugins_dir m root src_file in
      match _should_copy_file (fs e) src_file dst_file with
      | Raise err => (Raise err, e)
      | Ok false => copy_files cb total profile plugins_dir m root files' e current
      | Ok true =>
          match report cb current total
                  (String.append "Copying: " (String.append (name m)
                     (String.append " - " (last src_file EmptyString)))) with
          | Raise err => (Raise err, e)
          | Ok _ =>
              match mkdir_parents (fs e) (parent dst_file) with
              | Raise err => (Raise err, e)
              | Ok fs1 =>
                  match copy2 fs1 src_file dst_file with
                  | Raise err => (Raise err, with_fs e fs1)
                  | Ok fs2 =>
                      match calculate_file_hash fs2 src_file with
                      | Raise err => (Raise err, with_fs e fs2)
                      | Ok file_hash =>
                          copy_files cb total profile plugins_dir m root files'
                            (with_db (with_fs e fs2)
                               (save_deployment_state (db e) dst_file file_hash (id m)
                                  (profile_name profile)))
                            (current + 1)%Z
                      end
                  end
              end
          end
      end
  end.

(** The loop over the enabled mods. *)
Fixpoint copy_mods (cb : progress) (total : Z) (profile : Profile) (plugins_dir : path)
    (ms : list Mod) (e : engine) (current : Z) : result Z * engine :=
  match ms with
  | [] => (Ok current, e)
  | m :: ms' =>
      match install_path m with
      | Some root =>
          if path_exists (fs e) root then
            match copy_files cb total profile plugins_dir m root
                             (_get_mod_files (fs e) m) e current with
            | (Ok current', e') => copy_mods cb total profile plugins_dir ms' e' current'
            | (Raise err, e') => (Raise err, e')
            end
          else copy_mods cb total profile plugins_dir ms' e current
      | None => copy_mods cb total profile plugins_dir ms' e current
      end
  end.

(** [ModConfig.save_to_file]. *)
Definition save_to_file (fs0 : filesystem) (dst : path) (text : string) : result filesystem :=
  match mkdir_parents fs0 (parent dst) with
  | Raise err => Raise err
  | Ok fs1 =>
      match Dict.get fs1 dst with
      | Some Dir => Raise OSError
      | _ => Ok (Dict.set fs1 dst (File text))
      end
  end.

(** [_deploy_configs]: a configuration that fails is logged and skipped. *)
Definition _deploy_configs (fs0 : filesystem) (profile : Profile) (gp : path)
    : result filesystem :=
  let config_dir := gp ++ BEPINEX_CONFIG_DIR in
  match mkdir_parents fs0 config_dir with
  | Raise err => Raise err
  | Ok fs1 =>
      Ok (fold_left (fun fsx m =>
            fold_left (fun fsy config_name =>
                match load_config fsy (id m) (profile_name profile) with
                | Ok (Some text) =>
                    match save_to_file fsy (joinpath config_dir config_name) text with
                    | Ok fsz => fsz
                    | Raise _ => fsy
                    end
                | _ => fsy
                end) (config_files m) fsx)
          (Profile_get_enabled_mods profile) fs1)
  end.

Definition set_active (p : Profile) : Profile :=
  {| profile_name := profile_name p; mods := mods p; game_path := game_path p;
     active := true |}.

(** The [try:] block of [deploy_profile]. *)
Definition apply_profile (e : engine) (profile : Profile) (gp : path) (cb : progress)
    : result bool * engine * Profile :=
  match Profile_get_enabled_mods profile with
  | [] => (Ok true, e, profile)
  | _ =>
      let enabled_mods := sort_by_load_order (Profile_get_enabled_mods profile) in
      match calculate_changes e profile enabled_mods with
      | (Raise err, e0) => (Raise err, e0, profile)
      | (Ok ch, e0) =>
          let total := Z.of_nat (List.length (to_add ch) + List.length (to_update ch)
                                 + List.length (to_remove ch)) in
          match remove_loop cb total (to_remove ch) (fs e0) 0%Z with
          | (Raise err, fs1) => (Raise err, with_fs e0 fs1, profile)
          | (Ok current, fs1) =>
              let plugins_dir := gp ++ BEPINEX_PLUGINS_DIR in
              match mkdir_parents fs1 plugins_dir with
              | Raise err => (Raise err, with_fs e0 fs1, profile)
              | Ok fs2 =>
                  match copy_mods cb total profile plugins_dir enabled_mods
                                  (with_fs e0 fs2) current with
                  | (Raise err, e1) => (Raise err, e1, profile)
                  | (Ok _, e1) =>
                      match _deploy_configs (fs e1) profile gp with
                      | Raise err => (Raise err, e1, profile)
                      | Ok fs3 => (Ok true, with_fs e1 fs3, set_active profile)
                      end
                  end
              end
          end
      end
  end.

(** The body of [deploy_profile], before decoration
    ([Settings.AUTO_BACKUP_BEFORE_DEPLOY] is [True]). *)
Definition deploy_profile_body (e : engine) (profile : Profile) (cb : progress)
    : result bool * engine * Profile :=
  match game_path profile with
  | None => (Raise (DeploymentError "Profile has no game path set"), e, profile)
  | Some gp =>
      match validate_game_path (fs e) gp with
      | Raise err => (Raise err, e, profile)
      | Ok _ =>
          match create_checkpoint e profile with
          | (Raise err, e1) => (Raise err, e1, profile)
          | (Ok c, e1) =>
              match apply_profile (with_checkpoint e1 (Some c)) profile gp cb with
              | (Raise err, e2, p2) => (Raise (DeploymentFailedError err), e2, p2)
              | ok => ok
              end
          end
      end
  end.

(** *** core/exceptions.py: the [with_rollback] decorator *)

(** What the decorator looks up on [self]: the attributes
    [create_checkpoint] and [rollback], when the object has them, as
    callables on a list of positional arguments; and the truth value of what
    [create_checkpoint] returns, which [if checkpoint and ...] tests. *)
Record rollback_methods (Arg Cp : Type) : Type := {
  attr_create_checkpoint : option (list Arg -> engine -> result Cp * engine);
  attr_rollback : option (Cp -> engine -> result bool * engine);
  truth_value : Cp -> bool
}.

Arguments attr_create_checkpoint {Arg Cp} _.
Arguments attr_rollback {Arg Cp} _.
Arguments truth_value {Arg Cp} _ _.

(** [wrapper(self, *args, **kwargs)]. *)
Definition with_rollback {Arg Cp A : Type} (self : rollback_methods Arg Cp)
    (func : engine -> result A * engine * Profile) (unchanged : Profile)
    (e : engine) : result A * engine * Profile :=
  match (match attr_create_checkpoint self with
         | Some create => match create [] e with
                          | (Ok c, e1) => (Ok (Some c), e1)
                          | (Raise err, e1) => (Raise err, e1)
                          end
         | None => (Ok None, e)
         end) with
  | (Raise err, e1) => (Raise err, e1, unchanged)
  | (Ok checkpoint, e1) =>
      match func e1 with
      | (Ok a, e2, p2) => (Ok a, e2, p2)
      | (Raise err, e2, p2) =>
          match checkpoint, attr_rollback self with
          | Some c, Some rb =>
              if truth_value self c then
                match rb c e2 with
                | (Raise rollback_error, e3) => (Raise (RollbackError rollback_error), e3, p2)
                | (Ok _, e3) => (Raise err, e3, p2)
                end
              else (Raise err, e2, p2)
          | _, _ => (Raise err, e2, p2)
          end
      end
  end.

(** Calling the bound method [self.create_checkpoint] with the given
    positional arguments: its signature is [(self, profile)]. *)
Definition call_create_checkpoint (args : list Profile) (e : engine)
    : result DeploymentCheckpoint * engine :=
  match args with
  | [profile] => create_checkpoint e profile
  | [] => (Raise (TypeError
            "create_checkpoint() missing 1 required positional argument: 'profile'"), e)
  | _ => (Raise (TypeError "create_checkpoint() takes 2 positional arguments"), e)
  end.

(** The attributes of a [DeploymentEngine]; a [DeploymentCheckpoint] defines
    neither [__bool__] nor [__len__], so it is true. *)
Definition DeploymentEngine_methods : rollback_methods Profile DeploymentCheckpoint :=
  {| attr_create_checkpoint := Some call_create_checkpoint;
     attr_rollback := Some (fun c e => rollback e (Some c));
     truth_value := fun _ => true |}.

(** [deploy_profile], as decorated with [@with_rollback]. *)
Definition deploy_profile (e : engine) (profile : Profile) (cb : progress)
    : result bool * engine * Profile :=
  with_rollback DeploymentEngine_methods
    (fun e' => deploy_profile_body e' profile cb) profile e.

End Engine.

(** * Properties *)

(** ** Dictionaries *)

Module DictFacts.
Import Dict.
Section Facts.
Context {K V : Type} `{EqDec K}.
Implicit Types (d : list (K * V)) (k : K) (v : V).

Lemma get_set_same d k v : get (set d k v) k = Some v.
Proof.
  induction d as [|[k' v'] d IH]; simpl.
  - destruct (eq_dec k k); congruence.
  - destruct (eq_dec k k') as [->|Hne]; simpl.
    + destruct (eq_dec k' k'); congruence.
    + destruct (eq_dec k k'); congruence.
Qed.

Lemma get_set_other d k k' v : k' <> k -> get (set d k v) k' = get d k'.
Proof.
  intros Hne. induction d as [|[k0 v0] d IH]; simpl.
  - destruct (eq_dec k' k); congruence.
  - destruct (eq_dec k k0) as [->|Hk]; simpl.
    + destruct (eq_dec k' k0); congruence.
    + destruct (eq_dec k' k0); congruence.
Qed.

Lemma get_In_keys d k : get d k <> None <-> In k (keys d).
Proof.
  induction d as [|[k0 v0] d IH]; simpl.
  - split; [congruence | tauto].
  - destruct (eq_dec k k0) as [->|Hk].
    + split; [auto | congruence].
    + rewrite IH. split; [auto | intros [E|E]; congruence].
Qed.

Lemma get_None_keys d k : get d k = None <-> ~ In k (keys d).
Proof.
  rewrite <- get_In_keys. destruct (get d k) as [v|].
  - split; [congruence | intros Hn; exfalso; apply Hn; congruence].
  - split; [intros _ Hn; now apply Hn | reflexivity].
Qed.

Lemma keys_set_present d k v : In k (keys d) -> keys (set d k v) = keys d.
Proof.
  induction d as [|[k0 v0] d IH]; simpl; [tauto|].
  intros Hin. destruct (eq_dec k k0) as [->|Hk]; simpl; [reflexivity|].
  f_equal. apply IH. destruct Hin; congruence.
Qed.

Lemma keys_set_absent d k v : ~ In k (keys d) -> keys (set d k v) = keys d ++ [k].
Proof.
  induction d as [|[k0 v0] d IH]; simpl; [reflexivity|].
  intros Hin. destruct (eq_dec k k0) as [->|Hk]; simpl; [tauto|].
  f_equal. apply IH. tauto.
Qed.

Lemma get_del_same d k : get (del d k) k = None.
Proof.
  induction d as [|[k0 v0] d IH]; simpl; [reflexivity|].
  destruct (eq_dec k k0) as [->|Hk]; simpl; [exact IH|].
  destruct (eq_dec k k0); congruence.
Qed.

Lemma get_del_other d k k' : k' <> k -> get (del d k) k' = get d k'.
Proof.
  intros Hne. induction d as [|[k0 v0] d IH]; simpl; [reflexivity|].
  destruct (eq_dec k k0) as [->|Hk]; simpl.
  - destruct (eq_dec k' k0); congruence.
  - destruct (eq_dec k' k0); congruence.
Qed.

Lemma get_In d k v : get d k = Some v -> In (k, v) d.
Proof.
  induction d as [|[k0 v0] d IH]; simpl; [congruence|].
  destruct (eq_dec k k0) as [->|Hk]; intros E.
  - left. congruence.
  - right. auto.
Qed.

Lemma In_get d k v : NoDup (keys d) -> In (k, v) d -> get d k = Some v.
Proof.
  induction d as [|[k0 v0] d IH]; simpl; [tauto|].
  intros Hnd [E|Hin].
  - inversion E; subst. destruct (eq_dec k k); congruence.
  - inversion Hnd; subst. destruct (eq_dec k k0) as [->|Hk].
    + exfalso. apply H2. change k0 with (fst (k0, v)). now apply in_map.
    + auto.
Qed.

Lemma keys_del d k : keys (del d k) = filter (fun k' => if eq_dec k k' then false else true) (keys d).
Proof.
  induction d as [|[k0 v0] d IH]; simpl; [reflexivity|].
  destruct (eq_dec k k0); simpl; congruence.
Qed.

Lemma contains_true d k : contains d k = true <-> In k (keys d).
Proof.
  unfold contains. rewrite <- get_In_keys. destruct (get d k); split; congruence.
Qed.

End Facts.
End DictFacts.

Lemma mem_true_iff {K : Type} `{EqDec K} (x : K) l : mem x l = true <-> In x l.
Proof. unfold mem. destruct (in_dec eq_dec x l); split; auto; congruence. Qed.

Lemma mem_false_iff {K : Type} `{EqDec K} (x : K) l : mem x l = false <-> ~ In x l.
Proof. unfold mem. destruct (in_dec eq_dec x l); split; auto; congruence. Qed.

(** ** Version comparison *)

Definition is_int (p : string) : bool :=
  match py_int p with Some _ => true | None => false end.

Lemma int_tuple_all_or_nothing pieces :
  int_tuple pieces =
  if forallb is_int pieces
  then Some (map (fun p => match py_int p with Some n => n | None => 0%Z end) pieces)
  else None.
Proof.
  induction pieces as [|p ps IH]; simpl; [reflexivity|].
  unfold is_int at 1. destruct (py_int p) as [n|]; simpl; [|reflexivity].
  rewrite IH. destruct (forallb is_int ps); reflexivity.
Qed.

(** C10, as the code has it: the components keep their values only when
    every one of them is a number; as soon as one is not, the whole version
    is (0, 0, 0).  The result is the comparison of the two tuples. *)
Theorem compare_versions_all_or_nothing (v1 v2 : string) :
  normalize v1 =
    (if forallb is_int (split_dot v1) then spec_normalize v1 else [0; 0; 0]%Z) /\
  _compare_versions v1 v2 =
    (if tuple_lt (normalize v1) (normalize v2) then (-1)%Z
     else if tuple_lt (normalize v2) (normalize v1) then 1%Z else 0%Z).
Proof.
  split; [|reflexivity].
  unfold normalize, spec_normalize. rewrite int_tuple_all_or_nothing.
  destruct (forallb is_int (split_dot v1)); reflexivity.
Qed.

(** C10, as stated, fails on its own example: "1.2.beta" is (0, 0, 0) for the
    code, below both "1.2.0" and "1.1.9", where the component-wise reading
    makes it (1, 2, 0). *)
Lemma compare_versions_beta_counterexample :
  spec_normalize "1.2.beta" = [1; 2; 0]%Z /\
  normalize "1.2.beta" = [0; 0; 0]%Z /\
  _compare_versions "1.2.beta" "1.2.0" = (-1)%Z /\
  _compare_versions "1.2.beta" "1.1.9" = (-1)%Z /\
  _compare_versions "1.2.beta" "1.2.0" <> spec_compare_versions "1.2.beta" "1.2.0" /\
  _compare_versions "1.2.beta" "1.1.9" <> spec_compare_versions "1.2.beta" "1.1.9".
Proof. repeat split; try reflexivity; vm_compute; discriminate. Qed.

(** ** HashCache.get *)

(** C9: for a cached entry, [get] answers with the cached fingerprint exactly
    when [stat()] succeeds with the cached mtime and the cached size; in every
    other case it answers [None] and the entry is gone from the cache.  The
    content of the file is never read. *)
Theorem HashCache_get_hit_iff_unchanged
    (stat : string -> option stat_result) (cache : list (string * cache_entry))
    (key cached_hash : string) (cached_mtime cached_size : Z) :
  Dict.get cache key = Some (cached_hash, cached_mtime, cached_size) ->
  let unchanged :=
    exists st, stat key = Some st /\ st_mtime st = cached_mtime /\ st_size st = cached_size in
  (unchanged ->
     fst (HashCache_get stat cache key) = Some cached_hash /\
     Dict.get (snd (HashCache_get stat cache key)) key
       = Some (cached_hash, cached_mtime, cached_size)) /\
  (~ unchanged ->
     fst (HashCache_get stat cache key) = None /\
     Dict.get (snd (HashCache_get stat cache key)) key = None) /\
  (fst (HashCache_get stat cache key) <> None -> unchanged).
Proof.
  intros Hget unchanged. unfold HashCache_get. rewrite Hget.
  assert (Hmove : Dict.get (Dict.move_to_end cache key) key
                  = Some (cached_hash, cached_mtime, cached_size)).
  { unfold Dict.move_to_end. rewrite Hget.
    generalize (DictFacts.get_del_same cache key).
    generalize (Dict.del cache key). intros d Hd.
    induction d as [|[k0 v0] d IH]; cbn [Dict.get app] in *.
    - destruct (eq_dec key key) as [_|Hne]; [reflexivity | now elim Hne].
    - destruct (eq_dec key k0) as [_|_]; [discriminate Hd | auto]. }
  assert (Hmiss : ~ unchanged ->
            (unchanged -> fst (@None string, Dict.del cache key) = Some cached_hash /\
               Dict.get (snd (@None string, Dict.del cache key)) key
                 = Some (cached_hash, cached_mtime, cached_size)) /\
            (~ unchanged -> fst (@None string, Dict.del cache key) = None /\
               Dict.get (snd (@None string, Dict.del cache key)) key = None) /\
            (fst (@None string, Dict.del cache key) <> None -> unchanged)).
  { intros Hno. split; [tauto|]. split.
    - intros _. split; [reflexivity | apply DictFacts.get_del_same].
    - simpl. congruence. }
  destruct (stat key) as [st|] eqn:Hstat.
  - destruct (Z.eqb_spec (st_mtime st) cached_mtime) as [Hm|Hm];
      destruct (Z.eqb_spec (st_size st) cached_size) as [Hs|Hs]; simpl andb; cbv iota.
    + assert (Hu : unchanged) by (exists st; auto).
      split; [auto|]. split; [tauto | auto].
    + apply Hmiss. intros [st' [E [_ Hs']]]. congruence.
    + apply Hmiss. intros [st' [E [Hm' _]]]. congruence.
    + apply Hmiss. intros [st' [E [Hm' _]]]. congruence.
  - apply Hmiss. intros [st' [E _]]. congruence.
Qed.

Definition sample_cache : list (string * cache_entry) :=
  [("/game/a.dll", ("f00d", 100%Z, 7%Z)); ("/game/b.dll", ("beef", 90%Z, 3%Z))].

Lemma HashCache_get_hit_iff_unchanged_witness :
  fst (HashCache_get (fun _ => Some {| st_mtime := 101; st_size := 7 |})
         sample_cache "/game/a.dll") = None /\
  Dict.get (snd (HashCache_get (fun _ => Some {| st_mtime := 101; st_size := 7 |})
                   sample_cache "/game/a.dll")) "/game/a.dll" = None.
Proof.
  apply (HashCache_get_hit_iff_unchanged
           (fun _ => Some {| st_mtime := 101; st_size := 7 |})
           sample_cache "/game/a.dll" "f00d" 100 7).
  - reflexivity.
  - intros [st [E [Hm _]]]. inversion E; subst. simpl in Hm. discriminate.
Defined.

(** ** get_all_dependencies *)

(** Dependency edges of a registry, and what can be reached along them. *)
Definition registry_edge (reg : list (string * Mod)) (a b : string) : Prop :=
  exists m, Dict.get reg a = Some m /\ In b (dep_ids m).

Definition transitively_depends (reg : list (string * Mod)) : string -> string -> Prop :=
  clos_trans string (registry_edge reg).

(** The queue starts as [[mod_id]], and the first id popped is skipped by
    [current_id == mod_id] before its dependencies are read: the loop ends
    with nothing collected. *)
Lemma get_all_dependencies_recursive_empty (reg : list (string * Mod)) (origin : string) :
  get_all_dependencies reg origin true = Some [].
Proof.
  unfold get_all_dependencies. destruct (Dict.get reg origin); [|reflexivity].
  unfold bfs_fuel. cbn [negb bfs_loop mem].
  destruct (in_dec eq_dec origin []) as [[]|_].
  rewrite String.eqb_refl. reflexivity.
Qed.

Definition mk_mod (i : string) (deps : list string) : Mod :=
  {| id := i; name := i; version := "1.0.0";
     dependencies := map (fun d => {| mod_id := d; version_constraint := "*" |}) deps;
     config_files := []; install_path := None; enabled := true; load_order := 0 |}.

Definition registry_AB : list (string * Mod) :=
  register_mods [] [mk_mod "x-A" ["x-B"]; mk_mod "x-B" []].

(** C5 on the code: with A depending on B, both registered, the recursive
    query for A returns the empty list although B is reachable from A. *)
Theorem get_all_dependencies_misses_reachable :
  transitively_depends registry_AB "x-A" "x-B" /\
  get_all_dependencies registry_AB "x-A" true = Some [] /\
  get_all_dependencies registry_AB "x-A" false = Some ["x-B"].
Proof.
  split; [|split].
  - apply t_step. exists (mk_mod "x-A" ["x-B"]). split; [reflexivity | simpl; auto].
  - apply get_all_dependencies_recursive_empty.
  - reflexivity.
Qed.

(** ** deploy_profile and with_rollback *)

Section EngineFacts.

Variable digest : string -> string.
Variable now : string.
Variable BACKUPS_DIR : path.
Variable dump_checkpoint : DeploymentCheckpoint -> string.
Variable load_config : filesystem -> string -> string -> result (option string).
Variable removable : path -> bool.

(** C4: the wrapper calls [self.create_checkpoint()] without the profile, so
    every call of [deploy_profile] ends in that [TypeError], with the file
    system, the deployment state, the active checkpoint and the profile as
    they were: the body (game path validation included) is never entered. *)
Theorem deploy_profile_raises_TypeError (e : engine) (profile : Profile) (cb : progress) :
  deploy_profile digest now BACKUPS_DIR dump_checkpoint load_config removable e profile cb =
  (Raise (TypeError "create_checkpoint() missing 1 required positional argument: 'profile'"),
   e, profile).
Proof. reflexivity. Qed.

Lemma keys_set_NoDup {V : Type} (d : list (path * V)) (k : path) (v : V) :
  NoDup (Dict.keys d) -> NoDup (Dict.keys (Dict.set d k v)).
Proof.
  intros Hnd. destruct (in_dec eq_dec k (Dict.keys d)) as [Hin|Hnin].
  - rewrite DictFacts.keys_set_present; assumption.
  - rewrite DictFacts.keys_set_absent by assumption.
    apply NoDup_app; [exact Hnd | repeat constructor; auto |].
    intros a Ha [<-|[]]. contradiction.
Qed.

Lemma hash_files_NoDup fs0 plugins_dir m root files : forall st st',
  NoDup (Dict.keys st) -> hash_files digest fs0 plugins_dir m root files st = Ok st' ->
  NoDup (Dict.keys st').
Proof.
  induction files as [|f files IH]; simpl; intros st st' Hnd Hr.
  - inversion Hr; subst. exact Hnd.
  - destruct (calculate_file_hash digest fs0 f); [|discriminate].
    eapply IH; [|exact Hr]. apply keys_set_NoDup. exact Hnd.
Qed.

Lemma build_new_state_NoDup fs0 profile ms : forall st st',
  NoDup (Dict.keys st) -> build_new_state digest fs0 profile ms st = Ok st' ->
  NoDup (Dict.keys st').
Proof.
  induction ms as [|m ms IH]; simpl; intros st st' Hnd Hr.
  - inversion Hr; subst. exact Hnd.
  - destruct (install_path m) as [root|]; [|eauto].
    destruct (path_exists fs0 root); [|eauto].
    destruct (game_path profile) as [gp|]; [|discriminate].
    destruct (hash_files digest fs0 (gp ++ BEPINEX_PLUGINS_DIR) m root
                (_get_mod_files fs0 m) st) as [st1|] eqn:Eh; [|discriminate].
    eapply IH; [|exact Hr]. eapply hash_files_NoDup; eauto.
Qed.

Lemma filter_nil {A : Type} (f : A -> bool) (l : list A) :
  filter f l = [] <-> forall x, In x l -> f x = false.
Proof.
  induction l as [|a l IH]; simpl; [split; [intros _ x [] | reflexivity]|].
  destruct (f a) eqn:E.
  - split; [discriminate|]. intros H. specialize (H a (or_introl eq_refl)). congruence.
  - rewrite IH. split; [intros H x [<-|Hx]; auto | intros H x Hx; auto].
Qed.

Lemma map_fst_nil {A B : Type} (l : list (A * B)) : map fst l = [] <-> l = [].
Proof. destruct l; simpl; split; congruence. Qed.

(** The three lists are empty exactly when the two states are the same
    mapping. *)
Lemma diff_states_empty (current_state new_state : list (path * string)) :
  NoDup (Dict.keys new_state) ->
  (to_add (diff_states current_state new_state) = [] /\
   to_update (diff_states current_state new_state) = [] /\
   to_remove (diff_states current_state new_state) = [])
  <-> forall p, Dict.get new_state p = Dict.get current_state p.
Proof.
  intros Hnd. unfold diff_states. cbn [to_add to_update to_remove].
  rewrite !map_fst_nil, !filter_nil. split.
  - intros [Hadd [Hupd Hrem]] p.
    destruct (Dict.get new_state p) as [v|] eqn:En.
    + apply DictFacts.get_In in En as Hin.
      specialize (Hadd _ Hin). specialize (Hupd _ Hin). cbn [fst snd] in *.
      unfold Dict.contains in Hadd.
      destruct (Dict.get current_state p) as [h|]; [|discriminate].
      apply negb_false_iff, String.eqb_eq in Hupd. congruence.
    + destruct (Dict.get current_state p) as [h|] eqn:Ec; [|reflexivity].
      assert (Hk : In p (Dict.keys current_state)).
      { apply DictFacts.get_In_keys. congruence. }
      specialize (Hrem p Hk). unfold Dict.contains in Hrem. rewrite En in Hrem. discriminate.
  - intros Heq. split; [|split].
    + intros [k v] Hin. cbn [fst]. unfold Dict.contains.
      rewrite <- Heq, (DictFacts.In_get _ _ _ Hnd Hin). reflexivity.
    + intros [k v] Hin. cbn [fst snd].
      rewrite <- Heq, (DictFacts.In_get _ _ _ Hnd Hin), String.eqb_refl. reflexivity.
    + intros k Hk. unfold Dict.contains. rewrite Heq.
      apply DictFacts.get_In_keys in Hk.
      destruct (Dict.get current_state k); [reflexivity | congruence].
Qed.

(** C7, as the code has it: [calculate_changes] changes neither the file
    system nor the deployment state, so a second call made right after the
    first returns the same three lists as the first; and the three lists are
    empty exactly when the stored deployment state is already the state the
    mods ask for. *)
Theorem calculate_changes_repeatable (e : engine) (profile : Profile) (ms : list Mod) :
  snd (calculate_changes digest e profile ms) = e /\
  calculate_changes digest (snd (calculate_changes digest e profile ms)) profile ms
  = calculate_changes digest e profile ms /\
  forall ch new_state,
    fst (calculate_changes digest e profile ms) = Ok ch ->
    build_new_state digest (fs e) profile ms [] = Ok new_state ->
    ((to_add ch = [] /\ to_update ch = [] /\ to_remove ch = [])
     <-> forall p, Dict.get new_state p
                   = Dict.get (get_deployment_state (db e) (profile_name profile)) p).
Proof.
  split; [reflexivity|]. split; [reflexivity|].
  intros ch new_state Hch Hnew. unfold calculate_changes in Hch. cbn [fst] in Hch.
  rewrite Hnew in Hch. inversion Hch; subst ch.
  apply diff_states_empty. eapply build_new_state_NoDup; [|exact Hnew]. constructor.
Qed.

End EngineFacts.

(** A game directory with one deployed profile, and a callback that cancels
    by raising. *)
Definition sample_fs : filesystem :=
  [ ([], Dir);
    (["game"], Dir);
    (["game"; "valheim.exe"], File "MZ");
    (["mods"], Dir);
    (["mods"; "x-A"], Dir);
    (["mods"; "x-A"; "plugin.dll"], File "v1") ].

Definition sample_mod : Mod :=
  {| id := "x-A"; name := "A"; version := "1.0.0"; dependencies := [];
     config_files := []; install_path := Some ["mods"; "x-A"];
     enabled := true; load_order := 0 |}.

Definition sample_profile : Profile :=
  {| profile_name := "main"; mods := [sample_mod]; game_path := Some ["game"];
     active := false |}.

Definition sample_engine : engine :=
  {| fs := sample_fs; db := []; current_checkpoint := None |}.

Definition cancelling : progress := Some (fun _ _ _ => Raise OSError).

Definition sample_deploy :=
  deploy_profile (fun c => c) "20240101_000000" ["data"; "backups"]
                 (fun _ => "{}") (fun _ _ _ => Ok None) (fun _ => true).

Definition sample_deploy_body :=
  deploy_profile_body (fun c => c) "20240101_000000" ["data"; "backups"]
                      (fun _ => "{}") (fun _ _ _ => Ok None) (fun _ => true).

(** C3 on the code: here the body of [deploy_profile], run on its own, fails
    while applying (the callback raises during the first copy) and turns the
    failure into [DeploymentFailedError]; the decorated method, which is what
    callers get, never reaches the body: it raises [TypeError], creates no
    checkpoint and rolls nothing back. *)
Theorem deploy_profile_failure_is_TypeError :
  (exists e', sample_deploy_body sample_engine sample_profile cancelling
              = (Raise (DeploymentFailedError OSError), e', sample_profile)
              /\ current_checkpoint e' <> None) /\
  sample_deploy sample_engine sample_profile cancelling
  = (Raise (TypeError "create_checkpoint() missing 1 required positional argument: 'profile'"),
     sample_engine, sample_profile).
Proof.
  split; [|reflexivity].
  eexists. split; [vm_compute; reflexivity | discriminate].
Qed.

Lemma calculate_changes_repeatable_witness :
  (to_add (diff_states [] [(["game"; "BepInEx"; "plugins"; "x-A"; "plugin.dll"], "v1")]) = [] /\
   to_update (diff_states [] [(["game"; "BepInEx"; "plugins"; "x-A"; "plugin.dll"], "v1")]) = [] /\
   to_remove (diff_states [] [(["game"; "BepInEx"; "plugins"; "x-A"; "plugin.dll"], "v1")]) = [])
  <-> forall p, Dict.get [(["game"; "BepInEx"; "plugins"; "x-A"; "plugin.dll"], "v1")] p
                = Dict.get (get_deployment_state (db sample_engine)
                              (profile_name sample_profile)) p.
Proof.
  apply (proj2 (proj2 (calculate_changes_repeatable (fun c => c) sample_engine
                         sample_profile [sample_mod]))); reflexivity.
Defined.

(** C7, as stated, fails: nothing is deployed yet, and both calls ask for the
    plugin to be added. *)
Lemma calculate_changes_twice_counterexample :
  let first := calculate_changes (fun c => c) sample_engine sample_profile [sample_mod] in
  let second := calculate_changes (fun c => c) (snd first) sample_profile [sample_mod] in
  exists ch, fst second = Ok ch /\
             to_add ch = [["game"; "BepInEx"; "plugins"; "x-A"; "plugin.dll"]] /\
             to_add ch <> [].
Proof.
  eexists. split; [vm_compute; reflexivity|]. split; [reflexivity | discriminate].
Qed.

(** ** _remove_file *)

Ltac case_eq_dec :=
  match goal with
  | |- context [@eq_dec ?K ?I ?a ?b] => destruct (@eq_dec K I a b)
  end.

Definition is_prefix (d p : path) : Prop := exists s, p = d ++ s.

Lemma is_prefix_snoc d p c : is_prefix d (p ++ [c]) -> d = p ++ [c] \/ is_prefix d p.
Proof.
  intros [s Hs]. destruct s as [|x s] using rev_ind.
  - left. rewrite app_nil_r in Hs. auto.
  - right. rewrite app_assoc in Hs. apply app_inj_tail in Hs as [Hs _].
    exists s. exact Hs.
Qed.

Lemma is_prefix_trans a b c : is_prefix a b -> is_prefix b c -> is_prefix a c.
Proof. intros [s ->] [t ->]. exists (s ++ t). now rewrite app_assoc. Qed.

Lemma parent_snoc (p : path) c : parent (p ++ [c]) = p.
Proof. unfold parent. apply removelast_last. Qed.

Lemma parent_is_prefix (p : path) : is_prefix (parent p) p.
Proof.
  destruct p as [|x p] using rev_ind.
  - exists []. reflexivity.
  - rewrite parent_snoc. exists [x]. reflexivity.
Qed.

Lemma is_prefix_refl (p : path) : is_prefix p p.
Proof. exists []. now rewrite app_nil_r. Qed.

Lemma is_prefix_longer (p : path) (c : string) : ~ is_prefix (p ++ [c]) p.
Proof.
  intros [s Hs]. rewrite <- app_assoc in Hs.
  rewrite <- (app_nil_r p) in Hs at 1. apply app_inv_head in Hs. discriminate Hs.
Qed.

Lemma is_prefix_antisym (a b : path) : is_prefix a b -> is_prefix b a -> a = b.
Proof.
  intros [s Hs] [t Ht]. subst b. rewrite <- app_assoc in Ht.
  rewrite <- (app_nil_r a) in Ht at 1. apply app_inv_head in Ht.
  symmetry in Ht. apply app_eq_nil in Ht as [-> _]. now rewrite app_nil_r.
Qed.

Lemma is_prefix_parent (k f : path) :
  f <> [] -> is_prefix k f -> k = f \/ is_prefix k (parent f).
Proof.
  intros Hf Hk. destruct f as [|x f _] using rev_ind; [congruence|].
  rewrite parent_snoc. now apply is_prefix_snoc.
Qed.

Lemma above_parent_neq (d f : path) : f <> [] -> is_prefix d (parent f) -> d <> f.
Proof.
  intros Hf Hd ->. destruct f as [|x f _] using rev_ind; [congruence|].
  rewrite parent_snoc in Hd. exact (is_prefix_longer _ _ Hd).
Qed.

Lemma has_child_intro (fs0 : filesystem) (d q : path) :
  In q (Dict.keys fs0) -> q <> [] -> parent q = d -> has_child fs0 d = true.
Proof.
  intros Hin Hq Hp. unfold has_child. apply existsb_exists.
  apply in_map_iff in Hin as [[q' n] [E Hin]]. simpl in E. subst q'.
  exists (q, n). split; [exact Hin|]. cbn [fst].
  destruct q as [|x q]; [congruence|].
  destruct (eq_dec (parent (x :: q)) d) as [_|Hne]; [reflexivity | now elim Hne].
Qed.

Lemma has_child_elim (fs0 : filesystem) (d : path) :
  has_child fs0 d = true -> exists q, In q (Dict.keys fs0) /\ q <> [] /\ parent q = d.
Proof.
  unfold has_child. intros H. apply existsb_exists in H as [[q n] [Hin Hq]].
  cbn [fst] in Hq. exists q. split; [apply in_map_iff; exists (q, n); auto|].
  destruct q as [|x q]; [discriminate|]. split; [discriminate|].
  destruct (eq_dec (parent (x :: q)) d); [assumption | discriminate].
Qed.

Lemma child_not_above (q d : path) : q <> [] -> parent q = d -> ~ is_prefix q d.
Proof.
  intros Hq <-. destruct q as [|x q _] using rev_ind; [congruence|].
  rewrite parent_snoc. apply is_prefix_longer.
Qed.

Lemma In_keys_del (fs0 : filesystem) (d k : path) :
  In k (Dict.keys (Dict.del fs0 d)) <-> In k (Dict.keys fs0) /\ k <> d.
Proof.
  rewrite DictFacts.keys_del, filter_In. split; intros [H1 H2]; (split; [exact H1|]).
  - intros ->. revert H2. case_eq_dec; [discriminate | intros _; congruence].
  - case_eq_dec; [congruence | reflexivity].
Qed.

Lemma prune_nil (removable : path -> bool) (fs0 : filesystem) : prune removable fs0 [] = fs0.
Proof.
  simpl. destruct (Dict.get fs0 []) as [[|]|]; try reflexivity.
  destruct (has_child fs0 []); reflexivity.
Qed.

Lemma prune_cons (removable : path -> bool) (fs0 : filesystem) (c : string) (rp : list string) :
  prune removable fs0 (c :: rp) =
  match Dict.get fs0 (rev rp ++ [c]) with
  | Some Dir =>
      if has_child fs0 (rev rp ++ [c]) then fs0
      else if removable (rev rp ++ [c])
           then prune removable (Dict.del fs0 (rev rp ++ [c])) rp
           else fs0
  | _ => fs0
  end.
Proof. reflexivity. Qed.

(** The walk only removes, and only on the way from the root to the
    directory it starts at. *)
Lemma prune_removes_on_path (removable : path -> bool) (rp : list string) :
  forall (fs0 : filesystem) (q : path),
  Dict.get (prune removable fs0 rp) q = Dict.get fs0 q \/
  (Dict.get (prune removable fs0 rp) q = None /\ is_prefix q (rev rp)).
Proof.
  induction rp as [|c rp IH]; intros fs0 q.
  - rewrite prune_nil. now left.
  - rewrite prune_cons. cbn [rev].
    destruct (Dict.get fs0 (rev rp ++ [c])) as [[t|]|]; auto.
    destruct (has_child fs0 (rev rp ++ [c])); auto.
    destruct (removable (rev rp ++ [c])); auto.
    destruct (IH (Dict.del fs0 (rev rp ++ [c])) q) as [E|[E Hq]].
    + rewrite E. destruct (list_eq_dec string_dec q (rev rp ++ [c])) as [->|Hne].
      * right. split; [apply DictFacts.get_del_same | apply is_prefix_refl].
      * left. now apply DictFacts.get_del_other.
    + right. split; [exact E|].
      eapply is_prefix_trans; [exact Hq|]. exists [c]. reflexivity.
Qed.

(** Entries off the path from the root to the pruned directory are not
    touched. *)
Lemma prune_frame (removable : path -> bool) (rp : list string) (fs0 : filesystem) (p : path) :
  ~ is_prefix p (rev rp) -> Dict.get (prune removable fs0 rp) p = Dict.get fs0 p.
Proof.
  intros Hp. destruct (prune_removes_on_path removable rp fs0 p) as [E|[_ H]];
    [exact E | contradiction].
Qed.

(** What makes the walk of [_remove_file] towards [top] remove the directory
    [e]: it is a directory, the operating system lets it go, and every entry
    directly in it lies on the way down to [top], so that it is gone when
    the walk arrives. *)
Definition emptied (removable : path -> bool) (fs0 : filesystem) (top e : path) : Prop :=
  Dict.get fs0 e = Some Dir /\ removable e = true /\
  forall k, In k (Dict.keys fs0) -> k <> [] -> parent k = e -> is_prefix k top.

(** The walk that starts at a directory removes of the directories from there
    up to the root exactly those reached over directories that can all be
    removed; the root stays. *)
Lemma prune_removes_iff (removable : path -> bool) (rp : list string) :
  forall (fs0 : filesystem) (q : path),
  is_prefix q (rev rp) ->
  (Dict.get fs0 q <> None /\ Dict.get (prune removable fs0 rp) q = None) <->
  (q <> [] /\ forall e, is_prefix q e -> is_prefix e (rev rp) ->
                emptied removable fs0 (rev rp) e).
Proof.
  induction rp as [|c rp IH]; intros fs0 q Hq.
  - rewrite prune_nil. destruct Hq as [s Hs]. cbn [rev] in Hs. symmetry in Hs.
    apply app_eq_nil in Hs as [-> _].
    split; [intros [H1 H2]; contradiction | intros [H _]; now elim H].
  - rewrite prune_cons. cbn [rev] in *.
    remember (rev rp ++ [c]) as d eqn:Ed.
    assert (Hstuck : ~ emptied removable fs0 d d ->
              (Dict.get fs0 q <> None /\ Dict.get fs0 q = None) <->
              (q <> [] /\ forall e, is_prefix q e -> is_prefix e d ->
                            emptied removable fs0 d e)).
    { intros Hn. split; [intros [H1 H2]; contradiction|].
      intros [_ H]. elim Hn. apply H; [exact Hq | apply is_prefix_refl]. }
    destruct (Dict.get fs0 d) as [[t|]|] eqn:Hg.
    + apply Hstuck. intros [H _]. congruence.
    + destruct (has_child fs0 d) eqn:Hc.
      * apply Hstuck. intros [_ [_ H]].
        apply has_child_elim in Hc as [k [Hk [Hk0 Hkp]]].
        exact (child_not_above k d Hk0 Hkp (H k Hk Hk0 Hkp)).
      * destruct (removable d) eqn:Hr.
        2:{ apply Hstuck. intros [_ [H _]]. congruence. }
        assert (Hd : emptied removable fs0 d d).
        { split; [exact Hg|]. split; [exact Hr|]. intros k Hk Hk0 Hkp.
          rewrite (has_child_intro fs0 d k Hk Hk0 Hkp) in Hc. discriminate. }
        assert (Hup : is_prefix (rev rp) d) by (rewrite Ed; exists [c]; reflexivity).
        rewrite Ed in Hq. apply is_prefix_snoc in Hq as [Hq|Hq]; [rewrite <- Ed in Hq|].
        -- subst q. split.
           ++ intros _. split; [rewrite Ed; intros H; destruct (rev rp); discriminate H|].
              intros e H1 H2. rewrite <- (is_prefix_antisym _ _ H1 H2). exact Hd.
           ++ intros _. split; [rewrite Hg; discriminate|].
              destruct (prune_removes_on_path removable rp (Dict.del fs0 d) d) as [E|[E _]];
                [rewrite E; apply DictFacts.get_del_same | exact E].
        -- assert (Hne : forall e, is_prefix e (rev rp) -> e <> d).
           { intros e He ->. rewrite Ed in He. exact (is_prefix_longer _ _ He). }
           assert (Eq : Dict.get (Dict.del fs0 d) q = Dict.get fs0 q)
             by (apply DictFacts.get_del_other; auto).
           destruct (IH (Dict.del fs0 d) q Hq) as [IH1 IH2]. split.
           ++ intros [H1 H2]. rewrite <- Eq in H1.
              destruct (IH1 (conj H1 H2)) as [Hq0 Hall].
              split; [exact Hq0|]. intros e He1 He2.
              rewrite Ed in He2. apply is_prefix_snoc in He2 as [He2|He2]; [rewrite <- Ed in He2|].
              ** rewrite He2. exact Hd.
              ** destruct (Hall e He1 He2) as [G1 [G2 G3]].
                 split; [rewrite <- G1; symmetry; apply DictFacts.get_del_other; auto|].
                 split; [exact G2|]. intros k Hk Hk0 Hkp.
                 destruct (list_eq_dec string_dec k d) as [->|Hkd]; [apply is_prefix_refl|].
                 eapply is_prefix_trans; [|exact Hup].
                 apply G3; auto. apply In_keys_del. auto.
           ++ intros [Hq0 Hall]. rewrite <- Eq. apply IH2.
              split; [exact Hq0|]. intros e He1 He2.
              destruct (Hall e He1 (is_prefix_trans _ _ _ He2 Hup)) as [G1 [G2 G3]].
              split; [rewrite DictFacts.get_del_other; auto|].
              split; [exact G2|]. intros k Hk Hk0 Hkp.
              apply In_keys_del in Hk as [Hk Hkd].
              pose proof (G3 k Hk Hk0 Hkp) as Hkpre.
              rewrite Ed in Hkpre. apply is_prefix_snoc in Hkpre as [Hkpre|Hkpre];
                [rewrite <- Ed in Hkpre; contradiction | exact Hkpre].
    + apply Hstuck. intros [H _]. congruence.
Qed.

Lemma emptied_del (removable : path -> bool) (fs0 : filesystem) (f e : path) :
  f <> [] -> is_prefix e (parent f) ->
  emptied removable (Dict.del fs0 f) (parent f) e <-> emptied removable fs0 f e.
Proof.
  intros Hf He. pose proof (above_parent_neq e f Hf He) as Hne.
  unfold emptied. rewrite DictFacts.get_del_other by exact Hne.
  split; intros [G1 [G2 G3]]; (split; [exact G1|]); (split; [exact G2|]);
    intros k Hk Hk0 Hkp.
  - destruct (list_eq_dec string_dec k f) as [->|Hkf]; [apply is_prefix_refl|].
    eapply is_prefix_trans; [|apply parent_is_prefix].
    apply G3; auto. apply In_keys_del. auto.
  - apply In_keys_del in Hk as [Hk Hkf].
    destruct (is_prefix_parent k f Hf (G3 k Hk Hk0 Hkp)); [contradiction | assumption].
Qed.

Lemma remove_file_unfold (removable : path -> bool) (fs0 : filesystem) (f : path) :
  is_file fs0 f = true -> removable f = true ->
  _remove_file removable fs0 f = prune removable (Dict.del fs0 f) (rev (parent f)).
Proof.
  unfold _remove_file, is_file. intros Hf ->.
  destruct (Dict.get fs0 f) as [[c|]|]; [reflexivity | discriminate | discriminate].
Qed.

Lemma remove_file_refused (removable : path -> bool) (fs0 : filesystem) (f : path) :
  is_file fs0 f = false \/ removable f = false -> _remove_file removable fs0 f = fs0.
Proof.
  unfold _remove_file, is_file. intros [H|H].
  - destruct (Dict.get fs0 f) as [[c|]|]; [discriminate | reflexivity | reflexivity].
  - rewrite H. destruct (Dict.get fs0 f) as [[c|]|]; reflexivity.
Qed.

Lemma remove_file_removes_on_path (removable : path -> bool) (fs0 : filesystem) (f p : path) :
  Dict.get (_remove_file removable fs0 f) p = Dict.get fs0 p \/
  (Dict.get (_remove_file removable fs0 f) p = None /\ is_prefix p f).
Proof.
  destruct (is_file fs0 f) eqn:Hf; [|left; rewrite remove_file_refused; auto].
  destruct (removable f) eqn:Hr; [|left; rewrite remove_file_refused; auto].
  rewrite remove_file_unfold by assumption.
  destruct (prune_removes_on_path removable (rev (parent f)) (Dict.del fs0 f) p)
    as [E|[E Hp]].
  - rewrite E. destruct (list_eq_dec string_dec p f) as [->|Hne].
    + right. split; [apply DictFacts.get_del_same | apply is_prefix_refl].
    + left. now apply DictFacts.get_del_other.
  - right. split; [exact E|]. rewrite rev_involutive in Hp.
    eapply is_prefix_trans; [exact Hp | apply parent_is_prefix].
Qed.

Lemma remove_file_removes_iff (removable : path -> bool) (fs0 : filesystem) (f d : path) :
  f <> [] -> is_file fs0 f = true -> removable f = true -> is_prefix d (parent f) ->
  (Dict.get fs0 d <> None /\ Dict.get (_remove_file removable fs0 f) d = None) <->
  (d <> [] /\ forall e, is_prefix d e -> is_prefix e (parent f) ->
                emptied removable fs0 f e).
Proof.
  intros Hf Hfile Hr Hd. rewrite remove_file_unfold by assumption.
  pose proof (prune_removes_iff removable (rev (parent f)) (Dict.del fs0 f) d) as Hp.
  rewrite rev_involutive in Hp. destruct (Hp Hd) as [Hp1 Hp2].
  assert (Eq : Dict.get (Dict.del fs0 f) d = Dict.get fs0 d)
    by (apply DictFacts.get_del_other; now apply above_parent_neq).
  split.
  - intros [H1 H2]. rewrite <- Eq in H1. destruct (Hp1 (conj H1 H2)) as [Hd0 Hall].
    split; [exact Hd0|]. intros e He1 He2.
    apply emptied_del; auto.
  - intros [Hd0 Hall]. rewrite <- Eq. apply Hp2. split; [exact Hd0|].
    intros e He1 He2. apply emptied_del; auto.
Qed.

(** C8, as the code has it: [_remove_file] takes no target root.  When the
    path is a file that the operating system lets go, the file is removed and
    the walk upward removes exactly the directories reached over directories
    that are empty by then and can be removed: a directory [d] above the file
    goes if and only if it is not the root and every directory from [d] down
    to the parent of the file holds nothing but the next step towards the
    file (and can be removed).  So the walk stops at the first directory that
    still holds another entry, which stays with every directory above it;
    nothing off the way from the root to the file is touched; and when the
    path is no file, or the file cannot be removed, nothing changes. *)
Theorem remove_file_walks_up (removable : path -> bool) (fs0 : filesystem)
    (file_path : path) :
  (is_file fs0 file_path = false \/ removable file_path = false ->
     _remove_file removable fs0 file_path = fs0) /\
  (forall p, Dict.get (_remove_file removable fs0 file_path) p = Dict.get fs0 p \/
             (Dict.get (_remove_file removable fs0 file_path) p = None /\
              is_prefix p file_path)) /\
  (forall d q d', file_path <> [] -> is_prefix d (parent file_path) ->
     In q (Dict.keys fs0) -> q <> [] -> parent q = d -> ~ is_prefix q file_path ->
     is_prefix d' d ->
     Dict.get (_remove_file removable fs0 file_path) d' = Dict.get fs0 d') /\
  (file_path <> [] -> is_file fs0 file_path = true -> removable file_path = true ->
     Dict.get (_remove_file removable fs0 file_path) file_path = None /\
     forall d, is_prefix d (parent file_path) ->
       (Dict.get fs0 d <> None /\
        Dict.get (_remove_file removable fs0 file_path) d = None) <->
       (d <> [] /\ forall e, is_prefix d e -> is_prefix e (parent file_path) ->
                     emptied removable fs0 file_path e)).
Proof.
  split; [apply remove_file_refused|]. split; [apply remove_file_removes_on_path|]. split.
  - intros d q d' Hf Hd Hq Hq0 Hqp Hnq Hd'.
    destruct (remove_file_removes_on_path removable fs0 file_path d') as [E|[E _]];
      [exact E|].
    destruct (Dict.get fs0 d') as [n|] eqn:Hg; [|exact E]. exfalso.
    destruct (is_file fs0 file_path) eqn:Hfile;
      [|rewrite remove_file_refused in E by auto; congruence].
    destruct (removable file_path) eqn:Hr;
      [|rewrite remove_file_refused in E by auto; congruence].
    assert (Hd'p : is_prefix d' (parent file_path)) by (eapply is_prefix_trans; eauto).
    destruct (proj1 (remove_file_removes_iff removable fs0 file_path d' Hf Hfile Hr Hd'p))
      as [_ Hall].
    { split; [congruence | exact E]. }
    destruct (Hall d Hd' Hd) as [_ [_ G3]]. apply Hnq. now apply G3.
  - intros Hf Hfile Hr. split; [|intros d; now apply remove_file_removes_iff].
    destruct (remove_file_removes_on_path removable fs0 file_path file_path) as [E|[E _]];
      [|exact E].
    rewrite remove_file_unfold in * by assumption.
    destruct (prune_removes_on_path removable (rev (parent file_path))
                (Dict.del fs0 file_path) file_path) as [E'|[E' _]];
      [rewrite E'; apply DictFacts.get_del_same | exact E'].
Qed.

(** A deployment whose only file is one plugin, in a game directory that
    holds nothing else. *)
Definition litter_fs : filesystem :=
  [ ([], Dir);
    (["keep.txt"], File "k");
    (["srv"], Dir);
    (["srv"; "game"], Dir);
    (["srv"; "game"; "BepInEx"], Dir);
    (["srv"; "game"; "BepInEx"; "plugins"], Dir);
    (["srv"; "game"; "BepInEx"; "plugins"; "x-A"], Dir);
    (["srv"; "game"; "BepInEx"; "plugins"; "x-A"; "plugin.dll"], File "v1") ].

Definition litter_file : path :=
  ["srv"; "game"; "BepInEx"; "plugins"; "x-A"; "plugin.dll"].

Lemma remove_file_walks_up_witness :
  (Dict.get litter_fs ["srv"; "game"] <> None /\
   Dict.get (_remove_file (fun _ => true) litter_fs litter_file) ["srv"; "game"] = None) <->
  (["srv"; "game"] <> [] /\
   forall e, is_prefix ["srv"; "game"] e -> is_prefix e (parent litter_file) ->
             emptied (fun _ => true) litter_fs litter_file e).
Proof.
  destruct (remove_file_walks_up (fun _ => true) litter_fs litter_file) as [_ [_ [_ H]]].
  destruct H as [_ H]; [discriminate | reflexivity | reflexivity |].
  apply H. exists ["BepInEx"; "plugins"; "x-A"]. reflexivity.
Defined.

(** C8, as stated, fails: with the game directory as target root, removing
    the plugin removes the plugin directories, then the target root itself,
    then the directory above it. *)
Lemma remove_file_removes_target_root :
  path_exists litter_fs ["srv"; "game"] = true /\
  path_exists (_remove_file (fun _ => true) litter_fs litter_file) ["srv"; "game"] = false /\
  path_exists (_remove_file (fun _ => true) litter_fs litter_file) ["srv"] = false /\
  _remove_file (fun _ => true) litter_fs litter_file = [([], Dir); (["keep.txt"], File "k")].
Proof. repeat split; reflexivity. Qed.

(** ** Lists *)

Lemma index_In {K : Type} `{EqDec K} (x : K) (l : list K) :
  In x l -> exists i rest, index x l = Some i /\ skipn i l = x :: rest.
Proof.
  induction l as [|y l IH]; simpl; [tauto|].
  intros Hin. destruct (eq_dec x y) as [->|Hne].
  - exists 0%nat, l. auto.
  - destruct IH as [i [rest [Hi Hs]]]; [destruct Hin; congruence|].
    rewrite Hi. exists (S i), rest. auto.
Qed.

Lemma filter_length_le {A : Type} (f f' : A -> bool) (l : list A) :
  (forall x, In x l -> f' x = true -> f x = true) ->
  (List.length (filter f' l) <= List.length (filter f l))%nat.
Proof.
  induction l as [|a l IH]; simpl; intros Himp; [lia|].
  assert (IH' := IH (fun x Hx => Himp x (or_intror Hx))).
  destruct (f' a) eqn:Ea.
  - rewrite (Himp a (or_introl eq_refl) Ea). simpl. lia.
  - destruct (f a); simpl; lia.
Qed.

Lemma filter_length_lt {A : Type} (f f' : A -> bool) (l : list A) (a : A) :
  (forall x, In x l -> f' x = true -> f x = true) ->
  In a l -> f a = true -> f' a = false ->
  (List.length (filter f' l) < List.length (filter f l))%nat.
Proof.
  induction l as [|b l IH]; simpl; intros Himp Hin Hfa Hf'a; [tauto|].
  assert (Himp' : forall x, In x l -> f' x = true -> f x = true) by auto.
  destruct Hin as [->|Hin].
  - rewrite Hfa, Hf'a. simpl. pose proof (filter_length_le f f' l Himp'). lia.
  - specialize (IH Himp' Hin Hfa Hf'a).
    destruct (f' b) eqn:Eb.
    + rewrite (Himp b (or_introl eq_refl) Eb). simpl. lia.
    + destruct (f b); simpl; lia.
Qed.

(** ** The dependency graph *)

Definition edge (g : graph) (a b : string) : Prop := In b (graph_get g a).

Definition acyclic (g : graph) : Prop := forall x, ~ clos_trans string (edge g) x x.

(** What [_build_dependency_graph] guarantees: one entry per node, sets
    without repetition, every dependency a node. *)
Definition wf_graph (g : graph) : Prop :=
  NoDup (Dict.keys g) /\
  forall k, NoDup (graph_get g k) /\ forall v, In v (graph_get g k) -> In v (Dict.keys g).

(** A list in which each element depends on the next. *)
Fixpoint is_chain (g : graph) (l : list string) : Prop :=
  match l with
  | a :: ((b :: _) as t) => edge g a b /\ is_chain g t
  | _ => True
  end.

(** A chain that comes back to its first element. *)
Definition valid_cycle (g : graph) (chain : list string) : Prop :=
  exists x mid, chain = x :: mid ++ [x] /\ is_chain g chain.

Section GraphFacts.

Variable set_iter : list string -> list string.
Hypothesis set_iter_perm : forall l, Permutation (set_iter l) l.
Variable g : graph.
Hypothesis g_wf : wf_graph g.

Lemma neighbors_In n v : In v (neighbors set_iter g n) <-> edge g n v.
Proof.
  unfold neighbors, edge. split; apply Permutation_in;
    [apply set_iter_perm | apply Permutation_sym, set_iter_perm].
Qed.

Lemma neighbors_NoDup n : NoDup (neighbors set_iter g n).
Proof.
  unfold neighbors. eapply Permutation_NoDup.
  - apply Permutation_sym, set_iter_perm.
  - apply g_wf.
Qed.

Lemma edge_target_key a b : edge g a b -> In b (Dict.keys g).
Proof. intros He. apply (proj2 (proj2 g_wf a)). exact He. Qed.

Lemma edge_source_key a b : edge g a b -> In a (Dict.keys g).
Proof.
  unfold edge, graph_get. intros He. apply DictFacts.get_In_keys.
  destruct (Dict.get g a); [congruence | destruct He].
Qed.

Lemma is_chain_app_r l1 l2 : is_chain g (l1 ++ l2) -> is_chain g l2.
Proof.
  induction l1 as [|a l1 IH]; simpl; [auto|].
  destruct (l1 ++ l2) eqn:E.
  - intros _. destruct l2; [exact I|]. destruct l1; discriminate.
  - intros [_ Hc]. auto.
Qed.

Lemma is_chain_snoc l a b :
  is_chain g (l ++ [a]) -> edge g a b -> is_chain g ((l ++ [a]) ++ [b]).
Proof.
  induction l as [|x l IH]; simpl; [auto|].
  intros Hc He. destruct (l ++ [a]) eqn:E; [destruct l; discriminate|].
  simpl. destruct Hc as [Hx Hc]. split; [exact Hx|]. apply IH; assumption.
Qed.

Lemma is_chain_reaches x mid y :
  is_chain g (x :: mid ++ [y]) -> clos_trans string (edge g) x y.
Proof.
  revert x. induction mid as [|m mid IH]; simpl; intros x [He Hc].
  - apply t_step. exact He.
  - eapply t_trans; [apply t_step; exact He | apply IH; exact Hc].
Qed.

Lemma valid_cycle_is_cycle chain :
  valid_cycle g chain -> exists x, In x chain /\ clos_trans string (edge g) x x.
Proof.
  intros [x [mid [-> Hc]]]. exists x. split; [left; reflexivity|].
  apply is_chain_reaches with mid. exact Hc.
Qed.

(** *** Cycle detection *)

Definition is_white (cs : list (string * color)) (k : string) : bool :=
  match Dict.get cs k with Some WHITE => true | _ => false end.

Definition whites (cs : list (string * color)) : list string :=
  filter (is_white cs) (Dict.keys g).

Definition evolves (cs cs' : list (string * color)) : Prop :=
  Dict.keys cs' = Dict.keys cs /\
  forall n, Dict.get cs' n = Dict.get cs n \/
            (Dict.get cs n = Some WHITE /\ Dict.get cs' n = Some BLACK).

Definition black_closed (cs : list (string * color)) : Prop :=
  forall u v, Dict.get cs u = Some BLACK -> edge g u v -> Dict.get cs v = Some BLACK.

Definition black_acyclic (cs : list (string * color)) : Prop :=
  forall u, Dict.get cs u = Some BLACK -> ~ clos_trans string (edge g) u u.

Definition gray_is (cs : list (string * color)) (path : list string) : Prop :=
  forall n, Dict.get cs n = Some GRAY <-> In n path.

Definition good_outcome (cs : list (string * color)) (r : result (list (string * color))) : Prop :=
  match r with
  | Ok cs' => evolves cs cs' /\ black_closed cs' /\ black_acyclic cs'
  | Raise e => exists chain, e = CircularDependencyError chain /\ valid_cycle g chain
  end.

Lemma evolves_refl cs : evolves cs cs.
Proof. split; auto. Qed.

Lemma evolves_trans a b c : evolves a b -> evolves b c -> evolves a c.
Proof.
  intros [Hk1 H1] [Hk2 H2]. split; [congruence|].
  intros n. destruct (H1 n) as [E1|[E1 E1']], (H2 n) as [E2|[E2 E2']].
  - left. congruence.
  - right. split; congruence.
  - right. split; congruence.
  - congruence.
Qed.

Lemma evolves_gray a b path : evolves a b -> gray_is a path -> gray_is b path.
Proof.
  intros [_ H] Hg n. rewrite <- (Hg n).
  destruct (H n) as [E|[E E']]; [rewrite E; tauto|].
  rewrite E, E'. split; discriminate.
Qed.

Lemma evolves_black a b n : evolves a b -> Dict.get a n = Some BLACK -> Dict.get b n = Some BLACK.
Proof. intros [_ H] Hb. destruct (H n) as [E|[E E']]; congruence. Qed.

Lemma evolves_whites a b : evolves a b -> (List.length (whites b) <= List.length (whites a))%nat.
Proof.
  intros [_ H]. apply filter_length_le. intros x _. unfold is_white.
  destruct (H x) as [E|[E E']]; [rewrite E; auto|]. rewrite E'. discriminate.
Qed.

Lemma good_outcome_trans a b r : evolves a b -> good_outcome b r -> good_outcome a r.
Proof.
  destruct r as [c|e]; simpl; [|auto].
  intros Hab [Hbc Hrest]. split; [eapply evolves_trans; eauto | exact Hrest].
Qed.

Lemma black_reach cs u w :
  black_closed cs -> Dict.get cs u = Some BLACK ->
  clos_trans string (edge g) u w -> Dict.get cs w = Some BLACK.
Proof.
  intros Hc Hb Ht. induction Ht as [u w He | u v w _ IH1 _ IH2]; eauto.
Qed.

(** What a call [dfs(node, path)] needs and what it gives, for a given
    amount of fuel. *)
Definition dfs_ok (fuel : nat) : Prop :=
  forall node path cs,
    Dict.keys cs = Dict.keys g -> In node (Dict.keys g) ->
    gray_is cs path -> is_chain g (path ++ [node]) ->
    black_closed cs -> black_acyclic cs ->
    (List.length (whites cs) < fuel)%nat ->
    exists r, dfs set_iter g fuel node path cs = Some r /\
              good_outcome cs r /\
              (forall cs', r = Ok cs' -> Dict.get cs' node = Some BLACK).

Lemma visit_all_spec fuel node path :
  dfs_ok fuel ->
  is_chain g (path ++ [node]) ->
  forall ns cs,
    (forall v, In v ns -> edge g node v) ->
    Dict.keys cs = Dict.keys g -> gray_is cs (path ++ [node]) ->
    black_closed cs -> black_acyclic cs ->
    (List.length (whites cs) < fuel)%nat ->
    exists r, visit_all (fun n c => dfs set_iter g fuel n (path ++ [node]) c) ns cs = Some r /\
              good_outcome cs r /\
              (forall cs', r = Ok cs' -> forall v, In v ns -> Dict.get cs' v = Some BLACK).
Proof.
  intros Hdfs Hchain ns. induction ns as [|v ns IH]; intros cs Hns Hk Hg Hbc Hba Hw.
  - exists (Ok cs). simpl. repeat split; auto using evolves_refl.
    intros cs' _ v [].
  - simpl.
    destruct (Hdfs v (path ++ [node]) cs) as [r [Hr [Hgood Hblack]]]; auto.
    { eapply edge_target_key. apply Hns. left; reflexivity. }
    { apply is_chain_snoc; [exact Hchain | apply Hns; left; reflexivity]. }
    rewrite Hr. destruct r as [cs1|e].
    + destruct Hgood as [Hev [Hbc1 Hba1]].
      destruct (IH cs1) as [r2 [Hr2 [Hgood2 Hblack2]]]; auto.
      { intros w Hw'. apply Hns. right. exact Hw'. }
      { destruct Hev. congruence. }
      { eapply evolves_gray; eauto. }
      { pose proof (evolves_whites _ _ Hev). lia. }
      exists r2. split; [exact Hr2|]. split.
      * eapply good_outcome_trans; eauto.
      * intros cs' -> w [<-|Hin].
        -- destruct Hgood2 as [Hev2 _]. eapply evolves_black; eauto.
        -- eapply Hblack2; eauto.
    + exists (Raise e). split; [reflexivity|]. split; [exact Hgood|]. discriminate.
Qed.

Lemma dfs_spec : forall fuel, dfs_ok fuel.
Proof.
  induction fuel as [|fuel IH]; intros node path cs Hk Hnode Hg Hchain Hbc Hba Hw; [lia|].
  simpl. destruct (Dict.get cs node) as [[| |]|] eqn:Hc.
  - (* WHITE *)
    set (cs1 := Dict.set cs node GRAY).
    assert (Hin_cs : In node (Dict.keys cs)) by (rewrite Hk; exact Hnode).
    assert (Hk1 : Dict.keys cs1 = Dict.keys g).
    { unfold cs1. rewrite DictFacts.keys_set_present; auto. }
    assert (Hget1 : forall n, n <> node -> Dict.get cs1 n = Dict.get cs n).
    { intros n Hn. apply DictFacts.get_set_other. exact Hn. }
    assert (Hnode1 : Dict.get cs1 node = Some GRAY) by apply DictFacts.get_set_same.
    assert (Hg1 : gray_is cs1 (path ++ [node])).
    { intros n. rewrite in_app_iff. simpl. destruct (string_dec n node) as [->|Hn].
      - split; auto.
      - rewrite Hget1 by exact Hn. rewrite (Hg n). split; [auto|].
        intros [H|[H|[]]]; congruence. }
    assert (Hblack1 : forall n, Dict.get cs1 n = Some BLACK -> Dict.get cs n = Some BLACK /\ n <> node).
    { intros n Hb. destruct (string_dec n node) as [->|Hn]; [congruence|].
      rewrite Hget1 in Hb by exact Hn. auto. }
    assert (Hbc1 : black_closed cs1).
    { intros u v Hu He. apply Hblack1 in Hu as [Hu _].
      pose proof (Hbc u v Hu He) as Hv.
      rewrite Hget1; [exact Hv | congruence]. }
    assert (Hba1 : black_acyclic cs1).
    { intros u Hu. apply Hblack1 in Hu as [Hu _]. auto. }
    assert (Hw1 : (List.length (whites cs1) < fuel)%nat).
    { assert ((List.length (whites cs1) < List.length (whites cs))%nat); [|lia].
      apply filter_length_lt with node; auto.
      - intros x _. unfold is_white. destruct (string_dec x node) as [->|Hn].
        + rewrite Hnode1. discriminate.
        + rewrite Hget1 by exact Hn. auto.
      - unfold is_white. rewrite Hc. reflexivity.
      - unfold is_white. rewrite Hnode1. reflexivity. }
    destruct (visit_all_spec fuel node path IH Hchain (neighbors set_iter g node) cs1)
      as [r [Hr [Hgood Hblack]]]; auto.
    { intros v Hv. apply neighbors_In. exact Hv. }
    fold cs1. rewrite Hr. destruct r as [cs2|e].
    + destruct Hgood as [Hev [Hbc2 Hba2]].
      assert (Hgray2 : Dict.get cs2 node = Some GRAY).
      { destruct Hev as [_ H]. destruct (H node) as [E|[E _]]; congruence. }
      assert (Hk2 : Dict.keys cs2 = Dict.keys cs) by (destruct Hev; congruence).
      assert (Hnb : forall v, edge g node v -> Dict.get cs2 v = Some BLACK).
      { intros v He. apply (Hblack cs2 eq_refl). apply neighbors_In. exact He. }
      exists (Ok (Dict.set cs2 node BLACK)). split; [reflexivity|].
      assert (Hget3 : forall n, n <> node ->
                Dict.get (Dict.set cs2 node BLACK) n = Dict.get cs2 n).
      { intros n Hn. apply DictFacts.get_set_other. exact Hn. }
      assert (Hnode3 : Dict.get (Dict.set cs2 node BLACK) node = Some BLACK)
        by apply DictFacts.get_set_same.
      split; [split; [|split]|].
      * split.
        -- rewrite DictFacts.keys_set_present; [exact Hk2 | rewrite Hk2; exact Hin_cs].
        -- intros n. destruct (string_dec n node) as [->|Hn]; [right; auto|].
           rewrite Hget3 by exact Hn. rewrite <- (Hget1 n Hn). apply Hev.
      * intros u v Hu He. destruct (string_dec v node) as [->|Hv]; [exact Hnode3|].
        rewrite Hget3 by exact Hv.
        destruct (string_dec u node) as [->|Hun]; [auto|].
        rewrite Hget3 in Hu by exact Hun. eauto.
      * intros u Hu Hcyc. destruct (string_dec u node) as [->|Hun].
        -- apply clos_trans_t1n in Hcyc.
           inversion Hcyc as [y He | y z He Hrest]; subst.
           ++ specialize (Hnb node He). congruence.
           ++ apply clos_t1n_trans in Hrest.
              pose proof (black_reach cs2 y node Hbc2 (Hnb y He) Hrest). congruence.
        -- rewrite Hget3 in Hu by exact Hun. exact (Hba2 u Hu Hcyc).
      * intros cs' E. inversion E; subst. exact Hnode3.
    + exists (Raise e). split; [reflexivity|]. split; [exact Hgood | discriminate].
  - (* GRAY *)
    destruct (index_In node path) as [i [rest [Hi Hs]]]; [apply Hg; exact Hc|].
    rewrite Hi. eexists. split; [reflexivity|]. split; [|discriminate].
    eexists. split; [reflexivity|]. rewrite Hs. exists node, rest. split; [reflexivity|].
    apply is_chain_app_r with (firstn i path).
    rewrite <- Hs, app_assoc, firstn_skipn. exact Hchain.
  - (* BLACK *)
    exists (Ok cs). split; [reflexivity|]. split.
    + split; [apply evolves_refl | auto].
    + intros cs' E. inversion E; subst. exact Hc.
  - exfalso. apply DictFacts.get_None_keys in Hc. apply Hc. rewrite Hk. exact Hnode.
Qed.

Lemma check_loop_spec : forall nodes cs,
  incl nodes (Dict.keys g) -> Dict.keys cs = Dict.keys g -> gray_is cs [] ->
  black_closed cs -> black_acyclic cs ->
  exists r, check_loop set_iter g (S (List.length g)) nodes cs = Some r /\
            good_outcome cs r /\
            (forall cs', r = Ok cs' -> forall n, In n nodes -> Dict.get cs' n = Some BLACK).
Proof.
  induction nodes as [|node nodes IH]; intros cs Hincl Hk Hg Hbc Hba.
  - exists (Ok cs). simpl. repeat split; auto using evolves_refl. intros cs' _ n [].
  - assert (Hnode : In node (Dict.keys g)) by (apply Hincl; left; reflexivity).
    assert (Hincl' : incl nodes (Dict.keys g)) by (intros x Hx; apply Hincl; right; exact Hx).
    cbn [check_loop]. destruct (Dict.get cs node) as [[| |]|] eqn:Hc.
    + destruct (dfs_spec (S (List.length g)) node [] cs) as [r [Hr [Hgood Hblack]]]; auto.
      { simpl. exact I. }
      { unfold whites. pose proof (filter_length (is_white cs) (Dict.keys g)).
        unfold Dict.keys in *. rewrite length_map in *. lia. }
      rewrite Hr. destruct r as [cs1|e].
      * destruct Hgood as [Hev [Hbc1 Hba1]].
        destruct (IH cs1) as [r2 [Hr2 [Hgood2 Hblack2]]]; auto.
        { destruct Hev. congruence. }
        { eapply evolves_gray; eauto. }
        exists r2. split; [exact Hr2|]. split; [eapply good_outcome_trans; eauto|].
        intros cs' -> n [<-|Hin].
        -- destruct Hgood2 as [Hev2 _]. eapply evolves_black; eauto.
        -- eapply Hblack2; eauto.
      * exists (Raise e). split; [reflexivity|]. split; [exact Hgood | discriminate].
    + exfalso. apply (Hg node). exact Hc.
    + destruct (IH cs) as [r2 [Hr2 [Hgood2 Hblack2]]]; auto.
      exists r2. split; [exact Hr2|]. split; [exact Hgood2|].
      intros cs' -> n [<-|Hin].
      * destruct Hgood2 as [Hev2 _]. eapply evolves_black; eauto.
      * eapply Hblack2; eauto.
    + exfalso. apply DictFacts.get_None_keys in Hc. apply Hc. rewrite Hk. exact Hnode.
Qed.

Lemma init_colors_get n :
  Dict.get (init_colors g) n = if mem n (Dict.keys g) then Some WHITE else None.
Proof.
  unfold init_colors. induction (Dict.keys g) as [|k ks IH]; simpl; [reflexivity|].
  unfold mem in *. destruct (eq_dec n k) as [->|Hne].
  - destruct (in_dec eq_dec k (k :: ks)) as [_|Hn]; [reflexivity | elim Hn; left; reflexivity].
  - rewrite IH. destruct (in_dec eq_dec n ks) as [Hin|Hnin];
      destruct (in_dec eq_dec n (k :: ks)) as [Hin'|Hnin']; try reflexivity.
    + elim Hnin'. right. exact Hin.
    + destruct Hin' as [E|Hin']; [congruence | contradiction].
Qed.

Lemma init_colors_keys : Dict.keys (init_colors g) = Dict.keys g.
Proof.
  unfold init_colors, Dict.keys. rewrite map_map. simpl. apply map_id.
Qed.

(** The cycle check: it always ends; on a graph without cycle it returns, and
    when it raises, the error carries a chain that is a cycle of the graph. *)
Lemma check_circular_spec :
  exists r, _check_circular_dependencies set_iter g = Some r /\
    match r with
    | Ok _ => acyclic g
    | Raise e => exists chain, e = CircularDependencyError chain /\ valid_cycle g chain
    end.
Proof.
  unfold _check_circular_dependencies.
  destruct (check_loop_spec (Dict.keys g) (init_colors g)) as [r [Hr [Hgood Hblack]]].
  - apply incl_refl.
  - apply init_colors_keys.
  - intros n. rewrite init_colors_get. destruct (mem n (Dict.keys g)); simpl; split;
      (discriminate || tauto).
  - intros u v Hu. rewrite init_colors_get in Hu. destruct (mem u (Dict.keys g)); discriminate.
  - intros u Hu. rewrite init_colors_get in Hu. destruct (mem u (Dict.keys g)); discriminate.
  - rewrite Hr. destruct r as [cs|e].
    + exists (Ok tt). split; [reflexivity|].
      destruct Hgood as [_ [_ Hba]]. intros x Hx. apply (Hba x); [|exact Hx].
      apply (Hblack cs eq_refl). apply clos_trans_t1n in Hx.
      inversion Hx; subst; eapply edge_source_key; eauto.
    + exists (Raise e). split; [reflexivity | exact Hgood].
Qed.

(** *** Topological sort *)

Definition getz (d : list (string * Z)) (n : string) : Z :=
  match Dict.get d n with Some v => v | None => 0%Z end.

Definition edgeb (a b : string) : bool := mem b (graph_get g a).

Lemma edgeb_true a b : edgeb a b = true <-> edge g a b.
Proof. apply mem_true_iff. Qed.

(** The nodes that depend on [n] and are not yet in the sorted list. *)
Definition pending (sorted_list : list string) (n : string) : list string :=
  filter (fun m => edgeb m n && negb (mem m sorted_list)) (Dict.keys g).

Definition cnt (sorted_list : list string) (n : string) : Z :=
  Z.of_nat (List.length (pending sorted_list n)).

Definition occurs (n : string) (ns : list string) : Z :=
  if mem n ns then 1%Z else 0%Z.

Lemma getz_set d a v n :
  getz (Dict.set d a v) n = if string_dec n a then v else getz d n.
Proof.
  unfold getz. destruct (string_dec n a) as [->|Hne].
  - now rewrite DictFacts.get_set_same.
  - now rewrite DictFacts.get_set_other.
Qed.

Lemma getz_get d n : In n (Dict.keys d) -> Dict.get d n = Some (getz d n).
Proof.
  intros Hin. unfold getz. apply DictFacts.get_In_keys in Hin.
  destruct (Dict.get d n); congruence.
Qed.

Lemma occurs_cons n a ns :
  ~ In a ns -> occurs n (a :: ns) = ((if string_dec n a then 1 else 0) + occurs n ns)%Z.
Proof.
  intros Hn. unfold occurs, mem.
  destruct (string_dec n a) as [->|Hne].
  - destruct (in_dec eq_dec a (a :: ns)) as [_|H]; [|elim H; left; reflexivity].
    destruct (in_dec eq_dec a ns); [contradiction | reflexivity].
  - destruct (in_dec eq_dec n (a :: ns)) as [[E|H]|H]; [congruence| |].
    + destruct (in_dec eq_dec n ns); [reflexivity | contradiction].
    + destruct (in_dec eq_dec n ns) as [H'|_]; [elim H; right; exact H' | reflexivity].
Qed.

Lemma count_fold ns : forall d, NoDup ns -> incl ns (Dict.keys d) ->
  Dict.keys (fold_left count_step ns d) = Dict.keys d /\
  forall n, getz (fold_left count_step ns d) n = (getz d n + occurs n ns)%Z.
Proof.
  induction ns as [|a ns IH]; intros d Hnd Hincl; simpl.
  - split; [reflexivity|]. intros n. unfold occurs, mem. simpl. lia.
  - inversion Hnd as [|? ? Ha Hnd']; subst.
    assert (Hk : Dict.keys (count_step d a) = Dict.keys d).
    { unfold count_step. apply DictFacts.keys_set_present. apply Hincl. left. reflexivity. }
    destruct (IH (count_step d a) Hnd') as [Hk' Hv].
    { rewrite Hk. intros x Hx. apply Hincl. right. exact Hx. }
    split; [congruence|]. intros n. rewrite Hv, (occurs_cons n a ns Ha).
    unfold count_step. rewrite getz_set. fold (getz d a).
    destruct (string_dec n a) as [->|_]; lia.
Qed.

Lemma count_nodes ms : forall d, incl ms (Dict.keys g) -> Dict.keys d = Dict.keys g ->
  let d' := fold_left (fun d0 node => fold_left count_step (neighbors set_iter g node) d0) ms d in
  Dict.keys d' = Dict.keys g /\
  forall n, getz d' n = (getz d n + Z.of_nat (List.length (filter (fun m => edgeb m n) ms)))%Z.
Proof.
  induction ms as [|m ms IH]; intros d Hincl Hk; simpl.
  - split; [exact Hk|]. intros n. lia.
  - destruct (count_fold (neighbors set_iter g m) d) as [Hk1 Hv1].
    { apply neighbors_NoDup. }
    { rewrite Hk. intros v Hv. apply neighbors_In in Hv. eapply edge_target_key; eauto. }
    destruct (IH (fold_left count_step (neighbors set_iter g m) d)) as [Hk2 Hv2].
    { intros x Hx. apply Hincl. right. exact Hx. }
    { congruence. }
    split; [exact Hk2|]. intros n. rewrite Hv2, Hv1.
    assert (Ho : occurs n (neighbors set_iter g m) = if edgeb m n then 1%Z else 0%Z).
    { unfold occurs. destruct (edgeb m n) eqn:E.
      - apply edgeb_true, neighbors_In, mem_true_iff in E. now rewrite E.
      - destruct (mem n (neighbors set_iter g m)) eqn:E'; [|reflexivity].
        apply mem_true_iff, neighbors_In, edgeb_true in E'. congruence. }
    rewrite Ho. destruct (edgeb m n); simpl List.length; lia.
Qed.

Lemma getz_zeros (l : list string) n : getz (map (fun node => (node, 0%Z)) l) n = 0%Z.
Proof.
  unfold getz. induction l as [|k ks IHk]; simpl; [reflexivity|].
  destruct (eq_dec n k); [reflexivity | exact IHk].
Qed.

Lemma count_in_degrees_spec :
  Dict.keys (count_in_degrees set_iter g) = Dict.keys g /\
  forall n, getz (count_in_degrees set_iter g) n = cnt [] n.
Proof.
  unfold count_in_degrees.
  destruct (count_nodes (Dict.keys g) (map (fun node => (node, 0%Z)) (Dict.keys g)))
    as [Hk Hv].
  - apply incl_refl.
  - unfold Dict.keys. rewrite map_map. simpl. apply map_id.
  - split; [exact Hk|]. intros n. rewrite Hv.
    rewrite getz_zeros. unfold cnt, pending. simpl. f_equal. f_equal.
    apply filter_ext. intros m. unfold mem.
    destruct (in_dec eq_dec m []) as [[]|_]. simpl. now rewrite andb_true_r.
Qed.

Lemma zero_in_degree_spec d nodes : incl nodes (Dict.keys d) ->
  zero_in_degree d nodes = Ok (filter (fun n => (getz d n =? 0)%Z) nodes).
Proof.
  induction nodes as [|n nodes IH]; intros Hincl; simpl; [reflexivity|].
  rewrite (getz_get d n) by (apply Hincl; left; reflexivity).
  rewrite IH by (intros x Hx; apply Hincl; right; exact Hx). reflexivity.
Qed.

Lemma release_spec ns : forall d q, NoDup ns -> incl ns (Dict.keys d) ->
  exists d', release ns d q = Ok (d', q ++ filter (fun n => (getz d n - 1 =? 0)%Z) ns) /\
             Dict.keys d' = Dict.keys d /\
             forall n, getz d' n = (getz d n - occurs n ns)%Z.
Proof.
  induction ns as [|a ns IH]; intros d q Hnd Hincl; simpl.
  - exists d. rewrite app_nil_r. repeat split. intros n. unfold occurs, mem. simpl. lia.
  - inversion Hnd as [|? ? Ha Hnd']; subst.
    assert (Hin : In a (Dict.keys d)) by (apply Hincl; left; reflexivity).
    rewrite (getz_get d a Hin).
    set (d1 := Dict.set d a (getz d a - 1)%Z).
    assert (Hk1 : Dict.keys d1 = Dict.keys d) by (apply DictFacts.keys_set_present; exact Hin).
    destruct (IH d1 (if (getz d a - 1 =? 0)%Z then q ++ [a] else q) Hnd')
      as [d' [Hr [Hk' Hv]]].
    { rewrite Hk1. intros x Hx. apply Hincl. right. exact Hx. }
    exists d'. split; [|split; [congruence|]].
    + rewrite Hr. f_equal. f_equal.
      assert (Hf : filter (fun n => (getz d1 n - 1 =? 0)%Z) ns
                   = filter (fun n => (getz d n - 1 =? 0)%Z) ns).
      { apply filter_ext_in. intros x Hx. unfold d1. rewrite getz_set.
        destruct (string_dec x a) as [->|_]; [contradiction | reflexivity]. }
      rewrite Hf. destruct (getz d a - 1 =? 0)%Z; [now rewrite <- app_assoc | reflexivity].
    + intros n. rewrite Hv, (occurs_cons n a ns Ha). unfold d1. rewrite getz_set.
      destruct (string_dec n a) as [->|_]; lia.
Qed.

Definition before (a b : string) (l : list string) : Prop :=
  exists l1 l2 l3, l = l1 ++ a :: l2 ++ b :: l3.

Lemma before_app a b l r : before a b l -> before a b (l ++ r).
Proof.
  intros [l1 [l2 [l3 ->]]]. exists l1, l2, (l3 ++ r).
  rewrite <- app_assoc. simpl. rewrite <- app_assoc. reflexivity.
Qed.

Lemma before_split a b l r : In a l -> In b r -> before a b (l ++ r).
Proof.
  intros Ha Hb. apply in_split in Ha as [l1 [l2 ->]]. apply in_split in Hb as [r1 [r2 ->]].
  exists l1, (l2 ++ r1), r2. rewrite <- !app_assoc. reflexivity.
Qed.

Lemma before_rev a b l : before a b l -> before b a (rev l).
Proof.
  intros [l1 [l2 [l3 ->]]]. exists (rev l3), (rev l2), (rev l1).
  change (a :: l2 ++ b :: l3) with ([a] ++ l2 ++ [b] ++ l3).
  rewrite !rev_app_distr. simpl. rewrite <- !app_assoc. reflexivity.
Qed.

Lemma pending_In sorted_list n m :
  In m (pending sorted_list n) <-> In m (Dict.keys g) /\ edge g m n /\ ~ In m sorted_list.
Proof.
  unfold pending. rewrite filter_In, andb_true_iff, negb_true_iff, edgeb_true, mem_false_iff.
  tauto.
Qed.

Lemma cnt_zero sorted_list n m :
  cnt sorted_list n = 0%Z -> edge g m n -> In m sorted_list.
Proof.
  unfold cnt. intros Hz He.
  destruct (in_dec string_dec m sorted_list) as [Hin|Hnin]; [exact Hin|].
  assert (Hp : In m (pending sorted_list n)).
  { apply pending_In. split; [eapply edge_source_key; eauto | auto]. }
  destruct (pending sorted_list n); [destruct Hp | simpl in Hz; lia].
Qed.

Lemma cnt_pos sorted_list n :
  cnt sorted_list n <> 0%Z ->
  exists m, In m (Dict.keys g) /\ edge g m n /\ ~ In m sorted_list.
Proof.
  unfold cnt. intros Hz. destruct (pending sorted_list n) as [|m l] eqn:E.
  - simpl in Hz. congruence.
  - exists m. apply pending_In. rewrite E. left. reflexivity.
Qed.

Lemma filter_remove_one (P : string -> bool) (x : string) (l : list string) :
  NoDup l -> In x l ->
  (Z.of_nat (List.length (filter (fun m => P m && negb (String.eqb m x)) l))
   = Z.of_nat (List.length (filter P l)) - (if P x then 1 else 0))%Z.
Proof.
  induction l as [|a l IH]; intros Hnd Hin; [destruct Hin|].
  inversion Hnd as [|? ? Ha Hnd']; subst. simpl.
  destruct Hin as [->|Hin].
  - rewrite String.eqb_refl, andb_false_r.
    assert (Hf : filter (fun m => P m && negb (String.eqb m x)) l = filter P l).
    { apply filter_ext_in. intros y Hy.
      destruct (String.eqb_spec y x) as [->|_]; [contradiction|].
      simpl. apply andb_true_r. }
    rewrite Hf. destruct (P x); simpl List.length; lia.
  - specialize (IH Hnd' Hin).
    destruct (String.eqb_spec a x) as [->|_]; [contradiction|].
    simpl. rewrite andb_true_r. destruct (P a); simpl List.length; lia.
Qed.

Lemma cnt_snoc sorted_list x n :
  In x (Dict.keys g) -> ~ In x sorted_list ->
  cnt (sorted_list ++ [x]) n = (cnt sorted_list n - (if edgeb x n then 1 else 0))%Z.
Proof.
  intros Hx Hnx. unfold cnt, pending.
  assert (Hm : mem x sorted_list = false) by (apply mem_false_iff; exact Hnx).
  pose proof (filter_remove_one (fun m => edgeb m n && negb (mem m sorted_list)) x
                (Dict.keys g) (proj1 g_wf) Hx) as Hrem.
  cbv beta in Hrem. rewrite Hm, andb_true_r in Hrem. rewrite <- Hrem.
  f_equal. f_equal. apply filter_ext. intros m.
  rewrite <- andb_assoc. f_equal. unfold mem.
  destruct (in_dec eq_dec m (sorted_list ++ [x])) as [Hin|Hnin];
    destruct (in_dec eq_dec m sorted_list) as [Hs|Hs];
    destruct (String.eqb_spec m x) as [->|Hne]; simpl; try reflexivity;
    try (elim Hnin; apply in_app_iff; solve [left; assumption | right; left; reflexivity]).
  apply in_app_iff in Hin as [H|[H|[]]]; congruence.
Qed.

(** The state of the [while queue:] loop. *)
Definition kahn_inv (in_degree : list (string * Z)) (queue sorted_list : list string) : Prop :=
  Dict.keys in_degree = Dict.keys g /\
  NoDup (sorted_list ++ queue) /\
  incl (sorted_list ++ queue) (Dict.keys g) /\
  (forall n, getz in_degree n = cnt sorted_list n) /\
  (forall n, In n (Dict.keys g) -> (In n (sorted_list ++ queue) <-> cnt sorted_list n = 0%Z)) /\
  (forall m n, edge g m n -> In n (sorted_list ++ queue) -> before m n (sorted_list ++ queue)).

Lemma kahn_loop_spec : forall fuel in_degree queue sorted_list,
  kahn_inv in_degree queue sorted_list ->
  (List.length (Dict.keys g) - List.length sorted_list < fuel)%nat ->
  exists final in_degree',
    kahn_loop set_iter g fuel in_degree queue sorted_list = Some (Ok final) /\
    kahn_inv in_degree' [] final.
Proof.
  induction fuel as [|fuel IH]; intros d queue sorted_list Hinv Hfuel; [lia|].
  destruct queue as [|x q].
  - exists sorted_list, d. split; [reflexivity | exact Hinv].
  - destruct Hinv as [Hk [Hnd [Hincl [Hdeg [Hzero Hord]]]]].
    assert (Hx : In x (Dict.keys g)).
    { apply Hincl. apply in_app_iff. right. left. reflexivity. }
    assert (Hnx : ~ In x sorted_list).
    { intros Hin. apply NoDup_remove_2 in Hnd. apply Hnd. apply in_app_iff. auto. }
    assert (Hlen : (List.length (sorted_list ++ x :: q) <= List.length (Dict.keys g))%nat)
      by (apply NoDup_incl_length; assumption).
    rewrite length_app in Hlen. simpl in Hlen.
    cbn [kahn_loop].
    destruct (release_spec (neighbors set_iter g x) d q) as [d' [Hr [Hk' Hv]]].
    { apply neighbors_NoDup. }
    { rewrite Hk. intros v Hv. apply neighbors_In in Hv. eapply edge_target_key; eauto. }
    rewrite Hr.
    set (fresh := filter (fun n => (getz d n - 1 =? 0)%Z) (neighbors set_iter g x)).
    assert (Hfresh : forall n, In n fresh <-> edge g x n /\ cnt sorted_list n = 1%Z).
    { intros n. unfold fresh. rewrite filter_In, neighbors_In, Z.eqb_eq, Hdeg.
      split; intros [H1 H2]; split; auto; lia. }
    assert (Hocc : forall n, occurs n (neighbors set_iter g x) = if edgeb x n then 1%Z else 0%Z).
    { intros n. unfold occurs. destruct (edgeb x n) eqn:E.
      - apply edgeb_true, neighbors_In, mem_true_iff in E. now rewrite E.
      - destruct (mem n (neighbors set_iter g x)) eqn:E'; [|reflexivity].
        apply mem_true_iff, neighbors_In, edgeb_true in E'. congruence. }
    assert (Hshape : (sorted_list ++ [x]) ++ q ++ fresh = (sorted_list ++ x :: q) ++ fresh).
    { rewrite <- !app_assoc. reflexivity. }
    assert (Hcnt_nonneg : forall s n, (0 <= cnt s n)%Z) by (intros; unfold cnt; lia).
    apply IH.
    + split; [congruence|]. rewrite Hshape. split; [|split; [|split; [|split]]].
      * apply NoDup_app; [exact Hnd | apply NoDup_filter, neighbors_NoDup |].
        intros a Ha Hf. apply Hfresh in Hf as [He Hc].
        apply (Hzero a (Hincl a Ha)) in Ha. lia.
      * intros a Ha. apply in_app_iff in Ha as [Ha|Ha]; [auto|].
        apply Hfresh in Ha as [He _]. eapply edge_target_key; eauto.
      * intros n. rewrite Hv, Hdeg, Hocc, (cnt_snoc sorted_list x n Hx Hnx). reflexivity.
      * intros n Hn. rewrite (cnt_snoc sorted_list x n Hx Hnx), in_app_iff, Hfresh.
        rewrite (Hzero n Hn). pose proof (Hcnt_nonneg (sorted_list ++ [x]) n) as Hpos.
        rewrite (cnt_snoc sorted_list x n Hx Hnx) in Hpos.
        destruct (edgeb x n) eqn:E.
        -- apply edgeb_true in E. split; [intros [H|[_ H]]; lia | intros H; right; split; [exact E | lia]].
        -- split; [intros [H|[H _]]; [lia | apply edgeb_true in H; congruence] | intros H; left; lia].
      * intros m n He Hin. apply in_app_iff in Hin as [Hin|Hin].
        -- apply before_app. apply Hord; assumption.
        -- apply before_split; [|exact Hin].
           apply Hfresh in Hin as [Hxn Hc].
           assert (Hc' : cnt (sorted_list ++ [x]) n = 0%Z).
           { rewrite (cnt_snoc sorted_list x n Hx Hnx).
             apply edgeb_true in Hxn. rewrite Hxn. lia. }
           pose proof (cnt_zero _ _ _ Hc' He) as Hm.
           apply in_app_iff in Hm as [Hm|[<-|[]]]; apply in_app_iff; [left | right; left]; auto.
    + rewrite length_app. simpl. lia.
Qed.

Lemma is_chain_app_l l1 l2 : is_chain g (l1 ++ l2) -> is_chain g l1.
Proof.
  induction l1 as [|a l1 IH]; simpl; [auto|].
  destruct l1 as [|b l1]; simpl; [auto|].
  intros [He Hc]. split; [exact He | apply IH; exact Hc].
Qed.

(** In a graph without cycle a chain never repeats a node. *)
Lemma chain_NoDup l : acyclic g -> is_chain g l -> NoDup l.
Proof.
  intros Hac. induction l as [|a l IH]; intros Hc; [constructor|].
  constructor.
  - intros Hin. apply in_split in Hin as [l1 [l2 ->]].
    apply (Hac a). apply is_chain_reaches with l1.
    apply is_chain_app_l with l2.
    replace ((a :: l1 ++ [a]) ++ l2) with (a :: l1 ++ a :: l2); [exact Hc|].
    simpl. rewrite <- app_assoc. reflexivity.
  - apply IH. apply (is_chain_app_r [a] l). exact Hc.
Qed.

(** When the queue is empty and a node is left, a chain of any length can be
    walked backwards among the nodes that are left. *)
Lemma unsorted_chain final :
  (forall n, In n (Dict.keys g) -> (In n final <-> cnt final n = 0%Z)) ->
  forall k n, In n (Dict.keys g) -> ~ In n final ->
  exists l, List.length l = S k /\ is_chain g l /\ incl l (Dict.keys g) /\
            exists h t, l = h :: t /\ ~ In h final.
Proof.
  intros Hzero. induction k as [|k IH]; intros n Hn Hnf.
  - exists [n]. repeat split; simpl; auto.
    + intros x [<-|[]]. exact Hn.
    + exists n, []. auto.
  - destruct (IH n Hn Hnf) as [l [Hlen [Hc [Hincl [h [t [-> Hh]]]]]]].
    assert (Hhk : In h (Dict.keys g)) by (apply Hincl; left; reflexivity).
    destruct (cnt_pos final h) as [m [Hm [He Hmf]]].
    { intros Hz. apply Hh. apply Hzero; assumption. }
    exists (m :: h :: t). repeat split.
    + simpl in *. lia.
    + exact He.
    + exact Hc.
    + intros x [<-|Hx]; [exact Hm | apply Hincl; exact Hx].
    + exists m, (h :: t). auto.
Qed.

Lemma kahn_complete final :
  acyclic g ->
  (forall n, In n (Dict.keys g) -> (In n final <-> cnt final n = 0%Z)) ->
  incl (Dict.keys g) final.
Proof.
  intros Hac Hzero n Hn.
  destruct (in_dec string_dec n final) as [Hin|Hnin]; [exact Hin|].
  destruct (unsorted_chain final Hzero (List.length (Dict.keys g)) n Hn Hnin)
    as [l [Hlen [Hc [Hincl _]]]].
  pose proof (NoDup_incl_length (chain_NoDup l Hac Hc) Hincl). lia.
Qed.

Lemma before_index a b l : NoDup l -> before a b l ->
  exists i j, index a l = Some i /\ index b l = Some j /\ (i < j)%nat.
Proof.
  intros Hnd [l1 [l2 [l3 ->]]].
  assert (Hidx : forall x pre post, ~ In x pre ->
            index x (pre ++ x :: post) = Some (List.length pre)).
  { intros x pre post. induction pre as [|y pre IH]; simpl; intros Hn.
    - destruct (eq_dec x x) as [_|H]; [reflexivity | now elim H].
    - destruct (eq_dec x y) as [->|_]; [elim Hn; left; reflexivity|].
      rewrite IH; [reflexivity | tauto]. }
  exists (List.length l1), (List.length (l1 ++ a :: l2)). split; [|split].
  - apply Hidx. apply NoDup_remove_2 in Hnd. intros H. apply Hnd. apply in_app_iff. auto.
  - replace (l1 ++ a :: l2 ++ b :: l3) with ((l1 ++ a :: l2) ++ b :: l3)
      by (rewrite <- app_assoc; reflexivity).
    apply Hidx.
    replace (l1 ++ a :: l2 ++ b :: l3) with ((l1 ++ a :: l2) ++ b :: l3) in Hnd
      by (rewrite <- app_assoc; reflexivity).
    apply NoDup_remove_2 in Hnd. intros H. apply Hnd. apply in_app_iff. auto.
  - rewrite length_app. simpl. lia.
Qed.

(** Kahn's algorithm: it always ends, and on a graph without cycle it returns
    the nodes, each once, every dependency before the nodes that need it. *)
Lemma topological_sort_spec :
  exists r, _topological_sort set_iter g = Some r /\
    (acyclic g ->
     exists order, r = Ok order /\ NoDup order /\
       (forall n, In n order <-> In n (Dict.keys g)) /\
       (forall m d, edge g m d -> before d m order)).
Proof.
  unfold _topological_sort.
  destruct count_in_degrees_spec as [Hk Hv].
  rewrite zero_in_degree_spec by (rewrite Hk; apply incl_refl).
  set (d0 := count_in_degrees set_iter g) in *.
  set (q0 := filter (fun n => (getz d0 n =? 0)%Z) (Dict.keys g)).
  assert (Hq0 : forall n, In n q0 <-> In n (Dict.keys g) /\ cnt [] n = 0%Z).
  { intros n. unfold q0. rewrite filter_In, Z.eqb_eq, Hv. tauto. }
  destruct (kahn_loop_spec (S (List.length g)) d0 q0 []) as [final [d' [Hr Hinv]]].
  - split; [exact Hk|]. simpl. split; [|split; [|split; [|split]]].
    + apply NoDup_filter. apply g_wf.
    + intros n Hn. apply Hq0 in Hn. tauto.
    + exact Hv.
    + intros n Hn. rewrite Hq0. tauto.
    + intros m n He Hn. apply Hq0 in Hn as [_ Hz].
      destruct (cnt_zero _ _ _ Hz He).
  - simpl. unfold Dict.keys. rewrite length_map. lia.
  - rewrite Hr. destruct Hinv as [_ [Hnd [Hincl [_ [Hzero Hord]]]]].
    rewrite app_nil_r in *.
    destruct (Nat.eqb (List.length final) (List.length g)) eqn:Hlen.
    + eexists. split; [reflexivity|]. intros Hac.
      exists (rev final). split; [reflexivity|]. split; [apply NoDup_rev; exact Hnd|]. split.
      * intros n. rewrite <- in_rev. split; [apply Hincl | apply kahn_complete; assumption].
      * intros m d He. apply before_rev. apply Hord; [exact He|].
        apply kahn_complete; [assumption | assumption | eapply edge_target_key; eauto].
    + eexists. split; [reflexivity|]. intros Hac. exfalso.
      apply Nat.eqb_neq in Hlen. apply Hlen.
      pose proof (NoDup_incl_length Hnd Hincl).
      pose proof (NoDup_incl_length (proj1 g_wf) (kahn_complete final Hac Hzero)).
      unfold Dict.keys in *. rewrite length_map in *. lia.
Qed.

End GraphFacts.

(** ** The graph built from a list of mods *)

(** [m] declares a dependency on [d] in the input. *)
Definition dep_edge (mods0 : list Mod) (m d : string) : Prop :=
  exists md, In md mods0 /\ id md = m /\ In d (dep_ids md).

(** Every declared dependency is the id of an input mod. *)
Definition deps_present (mods0 : list Mod) : bool :=
  forallb (fun md => forallb (fun d => mem d (map id mods0)) (dep_ids md)) mods0.

(** A list in which each element is related to the next. *)
Fixpoint linked (R : string -> string -> Prop) (l : list string) : Prop :=
  match l with
  | a :: ((b :: _) as t) => R a b /\ linked R t
  | _ => True
  end.

Lemma linked_ext (R R' : string -> string -> Prop) l :
  (forall a b, R a b -> R' a b) -> linked R l -> linked R' l.
Proof.
  intros HR. induction l as [|a l IH]; simpl; [auto|].
  destruct l as [|b l]; [auto|]. intros [H1 H2]. split; auto.
Qed.

Lemma is_chain_linked g l : is_chain g l <-> linked (edge g) l.
Proof.
  induction l as [|a l IH]; simpl; [tauto|]. destruct l as [|b l]; [tauto|].
  rewrite IH. tauto.
Qed.

Lemma clos_trans_ext (R R' : string -> string -> Prop) x y :
  (forall a b, R a b -> R' a b) -> clos_trans string R x y -> clos_trans string R' x y.
Proof.
  intros HR Ht. induction Ht as [x y H | x y z _ IH1 _ IH2].
  - apply t_step. auto.
  - eapply t_trans; eauto.
Qed.

Lemma acyclic_by_rank (R : string -> string -> Prop) (rank : string -> nat) :
  (forall m d, R m d -> (rank d < rank m)%nat) -> forall x, ~ clos_trans string R x x.
Proof.
  intros Hr.
  assert (H : forall x y, clos_trans string R x y -> (rank y < rank x)%nat).
  { intros x y Ht. induction Ht as [x y H | x y z _ IH1 _ IH2]; [auto | lia]. }
  intros x Hx. apply H in Hx. lia.
Qed.

Section BuildFacts.

Variable mod_ids : list string.

(** The graph holds exactly the nodes [K] and the edges [E]. *)
Definition holds (g : graph) (K : string -> Prop) (E : string -> string -> Prop) : Prop :=
  NoDup (Dict.keys g) /\
  (forall k, NoDup (graph_get g k)) /\
  (forall k, In k (Dict.keys g) <-> K k) /\
  (forall a b, In b (graph_get g a) <-> E a b).

Lemma holds_ext g K K' E E' :
  (forall k, K k <-> K' k) -> (forall a b, E a b <-> E' a b) ->
  holds g K E -> holds g K' E'.
Proof.
  intros HK HE [H1 [H2 [H3 H4]]]. split; [exact H1|]. split; [exact H2|]. split.
  - intros k. rewrite H3. apply HK.
  - intros a b. rewrite H4. apply HE.
Qed.

Lemma graph_get_set g k s n :
  graph_get (Dict.set g k s) n = if string_dec n k then s else graph_get g n.
Proof.
  unfold graph_get. destruct (string_dec n k) as [->|Hne].
  - now rewrite DictFacts.get_set_same.
  - now rewrite DictFacts.get_set_other.
Qed.

Lemma set_add_In (x y : string) s : In y (set_add x s) <-> In y s \/ y = x.
Proof.
  unfold set_add. destruct (mem x s) eqn:E.
  - apply mem_true_iff in E. split; [auto | intros [H| ->]; auto].
  - rewrite in_app_iff. simpl. split; [intros [H|[H|[]]]; auto | intros [H| ->]; auto].
Qed.

Lemma set_add_NoDup (x : string) s : NoDup s -> NoDup (set_add x s).
Proof.
  intros Hnd. unfold set_add. destruct (mem x s) eqn:E; [exact Hnd|].
  apply mem_false_iff in E. apply NoDup_app; [exact Hnd | repeat constructor; auto |].
  intros a Ha [<-|[]]. contradiction.
Qed.

Lemma holds_add_node g K E k :
  holds g K E -> holds (if Dict.contains g k then g else Dict.set g k [])
                       (fun n => K n \/ n = k) E.
Proof.
  intros [H1 [H2 [H3 H4]]]. destruct (Dict.contains g k) eqn:Ec.
  - apply DictFacts.contains_true in Ec. repeat split; auto.
    + intros Hk. left. apply H3. exact Hk.
    + intros [Hk| ->]; [apply H3; exact Hk | exact Ec].
    + apply H4.
    + apply H4.
  - assert (Hn : ~ In k (Dict.keys g)).
    { intros Hin. apply DictFacts.contains_true in Hin. congruence. }
    assert (Hg : forall n, graph_get (Dict.set g k []) n = graph_get g n).
    { intros n. rewrite graph_get_set. destruct (string_dec n k) as [->|_]; [|reflexivity].
      unfold graph_get. apply DictFacts.get_None_keys in Hn. now rewrite Hn. }
    repeat split.
    + rewrite DictFacts.keys_set_absent by exact Hn.
      apply NoDup_app; [exact H1 | repeat constructor; auto |].
      intros a Ha [<-|[]]. contradiction.
    + intros n. rewrite Hg. apply H2.
    + rewrite DictFacts.keys_set_absent by exact Hn. rewrite in_app_iff. simpl.
      intros [Hk|[<-|[]]]; [left; apply H3; exact Hk | right; reflexivity].
    + rewrite DictFacts.keys_set_absent by exact Hn. rewrite in_app_iff. simpl.
      intros [Hk| ->]; [left; apply H3; exact Hk | right; left; reflexivity].
    + rewrite Hg. apply H4.
    + rewrite Hg. apply H4.
Qed.

Lemma holds_add_edge g K E k d :
  holds g K E -> K k ->
  holds (Dict.set g k (set_add d (graph_get g k))) K (fun a b => E a b \/ (a = k /\ b = d)).
Proof.
  intros [H1 [H2 [H3 H4]]] Hk.
  assert (Hin : In k (Dict.keys g)) by (apply H3; exact Hk).
  assert (Hkeys : Dict.keys (Dict.set g k (set_add d (graph_get g k))) = Dict.keys g)
    by (apply DictFacts.keys_set_present; exact Hin).
  repeat split.
  - rewrite Hkeys. exact H1.
  - intros n. rewrite graph_get_set. destruct (string_dec n k); [apply set_add_NoDup|]; apply H2.
  - rewrite Hkeys. apply H3.
  - rewrite Hkeys. apply H3.
  - rewrite graph_get_set. destruct (string_dec a k) as [->|Hne].
    + rewrite set_add_In. intros [H| ->]; [left; apply H4; exact H | right; auto].
    + intros H. left. apply H4. exact H.
  - rewrite graph_get_set. destruct (string_dec a k) as [->|Hne].
    + rewrite set_add_In. intros [H|[_ ->]]; [left; apply H4; exact H | right; reflexivity].
    + intros [H|[Ha _]]; [apply H4; exact H | congruence].
Qed.

Lemma add_dependencies_spec m deps : forall g K E,
  holds g K E -> K (id m) ->
  match add_dependencies mod_ids m deps g with
  | Ok g' => holds g' K (fun a b => E a b \/ (a = id m /\ In b (map mod_id deps))) /\
             (forall d, In d (map mod_id deps) -> In d mod_ids)
  | Raise e => exists dep, In dep deps /\ ~ In (mod_id dep) mod_ids /\
                 e = MissingDependencyError (id m) (mod_id dep) (version_constraint dep)
  end.
Proof.
  induction deps as [|dep deps IH]; intros g K E Hh Hk; simpl.
  - split; [|intros d []]. eapply holds_ext; [| |exact Hh]; [tauto|]. intros a b. tauto.
  - destruct (mem (mod_id dep) mod_ids) eqn:Em.
    + apply mem_true_iff in Em.
      pose proof (holds_add_edge g K E (id m) (mod_id dep) Hh Hk) as Hh'.
      specialize (IH _ _ _ Hh' Hk).
      destruct (add_dependencies mod_ids m deps _) as [g'|e].
      * destruct IH as [IH1 IH2]. split.
        -- eapply holds_ext; [| |exact IH1]; [tauto|]. intros a b. simpl.
           split; [intros [[H|[H1 H2]]|[H1 H2]] | intros [H|[H1 [H2|H2]]]]; subst; auto.
        -- intros d [<-|Hd]; auto.
      * destruct IH as [dep' [H1 H2]]. exists dep'. split; [right; exact H1 | exact H2].
    + apply mem_false_iff in Em. exists dep. split; [left; reflexivity | auto].
Qed.

Lemma dep_edge_snoc done m a b :
  dep_edge (done ++ [m]) a b <-> dep_edge done a b \/ (a = id m /\ In b (dep_ids m)).
Proof.
  unfold dep_edge. split.
  - intros [md [Hin [Hid Hd]]]. apply in_app_iff in Hin as [Hin|[<-|[]]].
    + left. exists md. auto.
    + right. auto.
  - intros [[md [Hin [Hid Hd]]]|[-> Hd]].
    + exists md. split; [apply in_app_iff; auto | auto].
    + exists m. split; [apply in_app_iff; right; left; reflexivity | auto].
Qed.

Lemma build_loop_spec ms : forall g done,
  holds g (fun k => In k (map id done)) (dep_edge done) ->
  match build_loop mod_ids ms g with
  | Ok g' => holds g' (fun k => In k (map id (done ++ ms))) (dep_edge (done ++ ms)) /\
             (forall md d, In md ms -> In d (dep_ids md) -> In d mod_ids)
  | Raise e => exists md dep, In md ms /\ In dep (dependencies md) /\
                 ~ In (mod_id dep) mod_ids /\
                 e = MissingDependencyError (id md) (mod_id dep) (version_constraint dep)
  end.
Proof.
  induction ms as [|m ms IH]; intros g done Hh; simpl.
  - rewrite app_nil_r. split; [exact Hh | intros md d []].
  - pose proof (holds_add_node g _ _ (id m) Hh) as Hh1.
    pose proof (add_dependencies_spec m (dependencies m) _ _ _ Hh1 (or_intror eq_refl)) as Hadd.
    destruct (add_dependencies mod_ids m (dependencies m) _) as [g2|e].
    + destruct Hadd as [Hh2 Hpres].
      assert (Hh3 : holds g2 (fun k => In k (map id (done ++ [m]))) (dep_edge (done ++ [m]))).
      { eapply holds_ext; [| |exact Hh2].
        - intros k. rewrite map_app, in_app_iff. simpl. split; [intros [H|H]; auto | intros [H|[H|[]]]; auto].
        - intros a b. rewrite dep_edge_snoc. unfold dep_ids. tauto. }
      specialize (IH g2 (done ++ [m]) Hh3). rewrite <- app_assoc in IH. simpl in IH.
      destruct (build_loop mod_ids ms g2) as [g'|e].
      * destruct IH as [IH1 IH2]. split; [exact IH1|].
        intros md d [<-|Hin] Hd; [apply Hpres; exact Hd | eapply IH2; eauto].
      * destruct IH as [md [dep [H1 H2]]]. exists md, dep. split; [right; exact H1 | exact H2].
    + destruct Hadd as [dep [H1 H2]]. exists m, dep. split; [left; reflexivity|]. auto.
Qed.

End BuildFacts.

Lemma deps_present_spec mods0 :
  deps_present mods0 = true <-> forall m d, dep_edge mods0 m d -> In d (map id mods0).
Proof.
  unfold deps_present. rewrite forallb_forall. split.
  - intros H m d [md [Hin [_ Hd]]]. specialize (H md Hin).
    rewrite forallb_forall in H. apply mem_true_iff. apply H. exact Hd.
  - intros H md Hin. apply forallb_forall. intros d Hd. apply mem_true_iff.
    apply (H (id md) d). exists md. auto.
Qed.

(** [_build_dependency_graph] succeeds exactly when every dependency is
    present, and then the graph has the input ids as nodes and the declared
    dependencies as edges. *)
Lemma build_dependency_graph_spec mods0 :
  match _build_dependency_graph mods0 with
  | Ok g => deps_present mods0 = true /\ wf_graph g /\
            (forall n, In n (Dict.keys g) <-> In n (map id mods0)) /\
            (forall m d, edge g m d <-> dep_edge mods0 m d)
  | Raise e => deps_present mods0 = false /\
               exists m d c, e = MissingDependencyError m d c /\ dep_edge mods0 m d /\
                             ~ In d (map id mods0)
  end.
Proof.
  unfold _build_dependency_graph.
  pose proof (build_loop_spec (map id mods0) mods0 [] []) as H. simpl in H.
  destruct (build_loop (map id mods0) mods0 []) as [g|e].
  - destruct H as [[H1 [H2 [H3 H4]]] Hpres].
    { repeat split; simpl; try constructor; try tauto.
      - intros [md [[] _]].  }
    assert (Hdp : forall m d, dep_edge mods0 m d -> In d (map id mods0)).
    { intros m d [md [Hin [_ Hd]]]. eapply Hpres; eauto. }
    split; [apply deps_present_spec; exact Hdp|]. split; [|split; [exact H3 | exact H4]].
    split; [exact H1|]. intros k. split; [apply H2|].
    intros v Hv. apply H3. apply (Hdp k). apply H4. exact Hv.
  - destruct H as [md [dep [Hin [Hdep [Hn He]]]]].
    { repeat split; simpl; try constructor; try tauto.
      - intros [md [[] _]]. }
    assert (Hedge : dep_edge mods0 (id md) (mod_id dep)).
    { exists md. split; [exact Hin|]. split; [reflexivity|]. unfold dep_ids. now apply in_map. }
    split.
    + destruct (deps_present mods0) eqn:E; [|reflexivity].
      exfalso. apply Hn. eapply deps_present_spec; eauto.
    + exists (id md), (mod_id dep), (version_constraint dep). auto.
Qed.

(** ** resolve_load_order *)

Section ResolveFacts.

Variable set_iter : list string -> list string.
Hypothesis set_iter_perm : forall l, Permutation (set_iter l) l.

(** C1: when every declared dependency is an input mod and the dependencies
    form no cycle, [resolve_load_order] returns a list that holds every input
    mod id exactly once, and every dependency stands at a smaller position
    than the mod that declares it. *)
Theorem resolve_load_order_sorts (reg : list (string * Mod)) (mods0 : list Mod) :
  deps_present mods0 = true ->
  (forall x, ~ clos_trans string (dep_edge mods0) x x) ->
  exists order,
    snd (resolve_load_order set_iter reg mods0) = Some (Ok order) /\
    NoDup order /\
    (forall n, In n order <-> In n (map id mods0)) /\
    (forall m d, dep_edge mods0 m d ->
       exists i j, index d order = Some i /\ index m order = Some j /\ (i < j)%nat).
Proof.
  intros Hpres Hac. unfold resolve_load_order. cbn [snd].
  pose proof (build_dependency_graph_spec mods0) as Hb.
  destruct (_build_dependency_graph mods0) as [g|e]; [|destruct Hb; congruence].
  destruct Hb as [_ [Hwf [Hkeys Hedge]]].
  assert (Hacg : acyclic g).
  { intros x Hx. apply (Hac x). eapply clos_trans_ext; [|exact Hx].
    intros a b. apply Hedge. }
  destruct (check_circular_spec set_iter set_iter_perm g Hwf) as [r [Hr Hres]].
  rewrite Hr. destruct r as [[]|e].
  - destruct (topological_sort_spec set_iter set_iter_perm g Hwf) as [r' [Hr' Hsort]].
    destruct (Hsort Hacg) as [order [-> [Hnd [Hin Hord]]]].
    exists order. split; [exact Hr'|]. split; [exact Hnd|]. split.
    + intros n. rewrite Hin. apply Hkeys.
    + intros m d Hd. apply before_index; [exact Hnd|]. apply Hord. apply Hedge. exact Hd.
  - exfalso. destruct Hres as [chain [_ Hcyc]].
    apply valid_cycle_is_cycle in Hcyc as [x [_ Hx]]. exact (Hacg x Hx).
Qed.

(** C2, as the code has it: the graph is built before cycles are looked for,
    and building it fails on a declared dependency that is no input mod.  So
    when the declared dependencies of the input mods contain a cycle and are
    all ids of input mods, [resolve_load_order] raises
    [CircularDependencyError], and the chain it carries is a cycle of the
    graph built: it starts and ends with the same id and each element depends
    on the next, in the graph and so in the input.  When some declared
    dependency is no input mod, it raises [MissingDependencyError] for such a
    dependency instead, whatever cycles there are. *)
Theorem resolve_load_order_cycle (reg : list (string * Mod)) (mods0 : list Mod) :
  (exists x, clos_trans string (dep_edge mods0) x x) ->
  (deps_present mods0 = true ->
     exists g chain,
       _build_dependency_graph mods0 = Ok g /\
       snd (resolve_load_order set_iter reg mods0)
         = Some (Raise (CircularDependencyError chain)) /\
       valid_cycle g chain /\
       linked (dep_edge mods0) chain) /\
  (deps_present mods0 = false ->
     exists m d c,
       snd (resolve_load_order set_iter reg mods0)
         = Some (Raise (MissingDependencyError m d c)) /\
       dep_edge mods0 m d /\ ~ In d (map id mods0)).
Proof.
  intros [x Hx]. unfold resolve_load_order. cbn [snd].
  pose proof (build_dependency_graph_spec mods0) as Hb.
  destruct (_build_dependency_graph mods0) as [g|e].
  - destruct Hb as [Hpres [Hwf [Hkeys Hedge]]]. split; [intros _ | congruence].
    assert (Hxg : clos_trans string (edge g) x x).
    { eapply clos_trans_ext; [|exact Hx]. intros a b. apply Hedge. }
    destruct (check_circular_spec set_iter set_iter_perm g Hwf) as [r [Hr Hres]].
    rewrite Hr. destruct r as [[]|e].
    + exfalso. exact (Hres x Hxg).
    + destruct Hres as [chain [-> Hc]].
      exists g, chain. split; [reflexivity|]. split; [reflexivity|]. split; [exact Hc|].
      destruct Hc as [y [mid [-> Hc]]].
      eapply linked_ext; [|apply is_chain_linked; exact Hc]. intros a b. apply Hedge.
  - destruct Hb as [Hmiss [m [d [c [-> [Hd Hn]]]]]]. split; [congruence | intros _].
    exists m, d, c. auto.
Qed.

End ResolveFacts.

Definition mods_CBA : list Mod :=
  [mk_mod "x-C" ["x-B"]; mk_mod "x-B" ["x-A"]; mk_mod "x-A" []].

Definition rank_CBA (n : string) : nat :=
  if String.eqb n "x-C" then 2 else if String.eqb n "x-B" then 1 else 0.

Lemma resolve_load_order_sorts_witness :
  exists order,
    snd (resolve_load_order (fun l => l) [] mods_CBA) = Some (Ok order) /\
    NoDup order /\
    (forall n, In n order <-> In n (map id mods_CBA)) /\
    (forall m d, dep_edge mods_CBA m d ->
       exists i j, index d order = Some i /\ index m order = Some j /\ (i < j)%nat).
Proof.
  apply (resolve_load_order_sorts (fun l => l) (fun l => Permutation_refl l) [] mods_CBA).
  - reflexivity.
  - apply (acyclic_by_rank _ rank_CBA).
    intros m d [md [Hin [<- Hd]]].
    simpl in Hin. destruct Hin as [<-|[<-|[<-|[]]]]; simpl in Hd;
      repeat (destruct Hd as [<-|Hd]; [vm_compute; lia|]); destruct Hd.
Defined.

(** The scenario of the specification: C needs B, B needs A. *)
Example resolve_load_order_CBA :
  snd (resolve_load_order (fun l => l) [] mods_CBA) = Some (Ok ["x-A"; "x-B"; "x-C"]).
Proof. reflexivity. Qed.

Definition mods_mutual : list Mod := [mk_mod "x-A" ["x-B"]; mk_mod "x-B" ["x-A"]].
Definition mods_self : list Mod := [mk_mod "x-A" ["x-A"]].

Definition graph_mutual : graph := [("x-A", ["x-B"]); ("x-B", ["x-A"])].

Lemma mods_mutual_cycle : exists x, clos_trans string (dep_edge mods_mutual) x x.
Proof.
  exists "x-A". apply t_trans with "x-B"; apply t_step.
  - exists (mk_mod "x-A" ["x-B"]). simpl. auto.
  - exists (mk_mod "x-B" ["x-A"]). simpl. auto.
Qed.

Lemma resolve_load_order_cycle_witness :
  exists g chain,
    _build_dependency_graph mods_mutual = Ok g /\
    snd (resolve_load_order (fun l => l) [] mods_mutual)
      = Some (Raise (CircularDependencyError chain)) /\
    valid_cycle g chain /\
    linked (dep_edge mods_mutual) chain.
Proof.
  destruct (resolve_load_order_cycle (fun l => l) (fun l => Permutation_refl l) []
              mods_mutual mods_mutual_cycle) as [H _].
  apply H. reflexivity.
Defined.

(** A mutual dependency next to a mod whose dependency is not in the input. *)
Definition mods_mutual_missing : list Mod :=
  [mk_mod "x-A" ["x-B"]; mk_mod "x-B" ["x-A"]; mk_mod "x-C" ["x-Q"]].

(** C2, as stated, fails: the dependency graph of these mods contains the
    cycle A, B, A, and [resolve_load_order] raises [MissingDependencyError],
    not [CircularDependencyError], whatever the iteration order of the
    sets. *)
Lemma resolve_load_order_cycle_missing_first :
  clos_trans string (dep_edge mods_mutual_missing) "x-A" "x-A" /\
  forall set_iter reg,
    snd (resolve_load_order set_iter reg mods_mutual_missing)
      = Some (Raise (MissingDependencyError "x-C" "x-Q" "*")) /\
    forall chain, snd (resolve_load_order set_iter reg mods_mutual_missing)
                  <> Some (Raise (CircularDependencyError chain)).
Proof.
  split.
  - apply t_trans with "x-B"; apply t_step.
    + exists (mk_mod "x-A" ["x-B"]). simpl. auto.
    + exists (mk_mod "x-B" ["x-A"]). simpl. auto.
  - intros set_iter reg.
    assert (E : snd (resolve_load_order set_iter reg mods_mutual_missing)
                = Some (Raise (MissingDependencyError "x-C" "x-Q" "*"))) by reflexivity.
    split; [exact E|]. intros chain. rewrite E. discriminate.
Qed.

(** The two smallest cycles: a mutual dependency and a self-dependency. *)
Example resolve_load_order_mutual :
  snd (resolve_load_order (fun l => l) [] mods_mutual)
  = Some (Raise (CircularDependencyError ["x-A"; "x-B"; "x-A"])).
Proof. reflexivity. Qed.

Example resolve_load_order_self :
  snd (resolve_load_order (fun l => l) [] mods_self)
  = Some (Raise (CircularDependencyError ["x-A"; "x-A"])).
Proof. reflexivity. Qed.

(** ** auto_resolve_dependencies *)

Definition catalog_A : list (string * Mod) := [("x-A", mk_mod "x-A" ["x-B"])].

Lemma auto_loop_requested_A :
  auto_loop catalog_A (auto_fuel ["x-A"] catalog_A) [] (nodup string_dec ["x-A"]) ["x-A"]
  = Some ([("x-A", mk_mod "x-A" ["x-B"])], ["x-A"; "x-B"]).
Proof. reflexivity. Qed.

Lemma auto_loop_requested_Z :
  auto_loop catalog_A (auto_fuel ["x-Z"] catalog_A) [] (nodup string_dec ["x-Z"]) ["x-Z"]
  = Some ([], ["x-Z"]).
Proof. reflexivity. Qed.

(** C6 on the code: A is requested and available, its dependency B is not in
    the catalogue.  The loop skips B, but the final [resolve_load_order] over
    the available mods raises [MissingDependencyError] for it, whatever the
    order in which the set of required ids is iterated.  A requested id that
    no available mod refers to is skipped without error. *)
Theorem auto_resolve_missing_dependency_raises (set_iter : list string -> list string) :
  (forall l, Permutation (set_iter l) l) ->
  (exists reg', auto_resolve_dependencies set_iter [] ["x-A"] catalog_A
     = Some (reg', Some (Raise (MissingDependencyError "x-A" "x-B" "*")))) /\
  (exists reg', auto_resolve_dependencies set_iter [] ["x-Z"] catalog_A
     = Some (reg', Some (Ok []))).
Proof.
  intros Hperm. split.
  - unfold auto_resolve_dependencies. rewrite auto_loop_requested_A.
    assert (Hreq : set_iter ["x-A"; "x-B"] = ["x-A"; "x-B"] \/
                   set_iter ["x-A"; "x-B"] = ["x-B"; "x-A"]).
    { pose proof (Hperm ["x-A"; "x-B"]) as Hp.
      apply Permutation_sym, Permutation_length_2_inv in Hp. destruct Hp; auto. }
    destruct Hreq as [E|E]; rewrite E; eexists; reflexivity.
  - unfold auto_resolve_dependencies. rewrite auto_loop_requested_Z.
    assert (Hreq : set_iter ["x-Z"] = ["x-Z"]).
    { pose proof (Hperm ["x-Z"]) as Hp.
      apply Permutation_sym, Permutation_length_1_inv in Hp. exact Hp. }
    assert (Hnil : set_iter [] = []).
    { apply Permutation_nil. apply Permutation_sym. apply Hperm. }
    rewrite Hreq. exists []. unfold resolve_load_order. cbn.
    unfold _topological_sort. cbn. rewrite ?Hnil. reflexivity.
Qed.

Lemma auto_resolve_missing_dependency_raises_witness :
  (exists reg', auto_resolve_dependencies (fun l => l) [] ["x-A"] catalog_A
     = Some (reg', Some (Raise (MissingDependencyError "x-A" "x-B" "*")))) /\
  (exists reg', auto_resolve_dependencies (fun l => l) [] ["x-Z"] catalog_A
     = Some (reg', Some (Ok []))).
Proof.
  apply (auto_resolve_missing_dependency_raises (fun l => l)).
  intros l. apply Permutation_refl.
Defined.

(** * Further functions of the resolver *)

(** ** The three steps of resolve_load_order, one by one *)

(** X1: [_build_dependency_graph] raises exactly when a declared dependency is
    not an input id, and the error names such a dependency; otherwise the
    graph has one node per input id and one edge per declared dependency. *)
Theorem build_dependency_graph_outcome (mods0 : list Mod) :
  match _build_dependency_graph mods0 with
  | Ok g =>
      deps_present mods0 = true /\
      NoDup (Dict.keys g) /\
      (forall n, In n (Dict.keys g) <-> In n (map id mods0)) /\
      (forall m d, In d (graph_get g m) <-> dep_edge mods0 m d)
  | Raise e =>
      deps_present mods0 = false /\
      exists m d c, e = MissingDependencyError m d c /\
                    dep_edge mods0 m d /\ ~ In d (map id mods0)
  end.
Proof.
  pose proof (build_dependency_graph_spec mods0) as H.
  destruct (_build_dependency_graph mods0) as [g|e].
  - destruct H as [Hp [[Hnd _] [Hk He]]]. auto.
  - exact H.
Qed.

Section StepFacts.

Variable set_iter : list string -> list string.
Hypothesis set_iter_perm : forall l, Permutation (set_iter l) l.
Variable g : graph.
Hypothesis g_wf : wf_graph g.

(** X2: On a well-formed graph the cycle check never runs out of recursion
    budget, and it returns normally exactly when the graph has no cycle. *)
Theorem check_circular_iff_acyclic :
  _check_circular_dependencies set_iter g <> None /\
  (_check_circular_dependencies set_iter g = Some (Ok tt) <-> acyclic g).
Proof.
  destruct (check_circular_spec set_iter set_iter_perm g g_wf) as [r [Hr Hres]].
  rewrite Hr. split; [discriminate|]. destruct r as [[]|e].
  - split; auto.
  - split; [discriminate|]. intros Hac. exfalso.
    destruct Hres as [chain [_ Hc]].
    apply valid_cycle_is_cycle in Hc as [x [_ Hx]]. exact (Hac x Hx).
Qed.

Lemma kahn_final :
  exists final,
    kahn_loop set_iter g (S (List.length g)) (count_in_degrees set_iter g)
      (filter (fun n => (getz (count_in_degrees set_iter g) n =? 0)%Z) (Dict.keys g)) []
    = Some (Ok final) /\
    NoDup final /\ incl final (Dict.keys g) /\
    (forall n, In n (Dict.keys g) -> (In n final <-> cnt g final n = 0%Z)) /\
    (forall m n, edge g m n -> In n final -> before m n final).
Proof.
  destruct (count_in_degrees_spec set_iter set_iter_perm g g_wf) as [Hk Hv].
  set (d0 := count_in_degrees set_iter g) in *.
  set (q0 := filter (fun n => (getz d0 n =? 0)%Z) (Dict.keys g)).
  assert (Hq0 : forall n, In n q0 <-> In n (Dict.keys g) /\ cnt g [] n = 0%Z).
  { intros n. unfold q0. rewrite filter_In, Z.eqb_eq, Hv. tauto. }
  destruct (kahn_loop_spec set_iter set_iter_perm g g_wf (S (List.length g)) d0 q0 [])
    as [final [d' [Hr Hinv]]].
  - split; [exact Hk|]. simpl. split; [|split; [|split; [|split]]].
    + apply NoDup_filter. apply g_wf.
    + intros n Hn. apply Hq0 in Hn. tauto.
    + exact Hv.
    + intros n Hn. rewrite Hq0. tauto.
    + intros m n He Hn. apply Hq0 in Hn as [_ Hz].
      destruct (cnt_zero g _ _ _ Hz He).
  - simpl. unfold Dict.keys. rewrite length_map. lia.
  - exists final. split; [exact Hr|].
    destruct Hinv as [_ [Hnd [Hincl [_ [Hzero Hord]]]]].
    rewrite app_nil_r in *. auto.
Qed.

(** X3: [_topological_sort] is sound on its own, without the cycle check before
    it: on a well-formed graph it always ends; a list it returns holds every
    node exactly once with each dependency before the nodes that depend on
    it, which makes the graph acyclic; and when the graph has a cycle it
    raises [CircularDependencyError] with a non-empty list of nodes. *)
Theorem topological_sort_sound :
  exists r, _topological_sort set_iter g = Some r /\
    match r with
    | Ok order =>
        NoDup order /\ (forall n, In n order <-> In n (Dict.keys g)) /\
        (forall m d, edge g m d ->
           exists i j, index d order = Some i /\ index m order = Some j /\ (i < j)%nat) /\
        acyclic g
    | Raise e =>
        exists nodes, e = CircularDependencyError nodes /\ nodes <> [] /\
                      incl nodes (Dict.keys g) /\ ~ acyclic g
    end.
Proof.
  destruct kahn_final as [final [Hr [Hnd [Hincl [Hzero Hord]]]]].
  destruct (count_in_degrees_spec set_iter set_iter_perm g g_wf) as [Hk Hv].
  unfold _topological_sort.
  rewrite (zero_in_degree_spec _ (Dict.keys g)) by (rewrite Hk; apply incl_refl).
  rewrite Hr.
  assert (Hlenk : List.length (Dict.keys g) = List.length g)
    by (unfold Dict.keys; apply length_map).
  destruct (Nat.eqb (List.length final) (List.length g)) eqn:Hlen.
  - apply Nat.eqb_eq in Hlen. eexists. split; [reflexivity|].
    assert (Hall : incl (Dict.keys g) final).
    { apply NoDup_length_incl; [exact Hnd | lia | exact Hincl]. }
    assert (Hidx : forall m d, edge g m d ->
              exists i j, index d (rev final) = Some i /\ index m (rev final) = Some j /\
                          (i < j)%nat).
    { intros m d He. apply before_index; [apply NoDup_rev; exact Hnd|].
      apply before_rev. apply Hord; [exact He|]. apply Hall.
      eapply edge_target_key; eauto. }
    split; [apply NoDup_rev; exact Hnd|]. split; [|split; [exact Hidx|]].
    + intros n. rewrite <- in_rev. split; [apply Hincl | apply Hall].
    + unfold acyclic.
      apply acyclic_by_rank with (rank := fun x => match index x (rev final) with
                                                   | Some i => i | None => 0%nat end).
      intros m d He. destruct (Hidx m d He) as [i [j [Hi [Hj Hlt]]]].
      rewrite Hi, Hj. exact Hlt.
  - apply Nat.eqb_neq in Hlen. eexists. split; [reflexivity|].
    eexists. split; [reflexivity|].
    assert (Hnac : ~ acyclic g).
    { intros Hac. apply Hlen.
      pose proof (NoDup_incl_length Hnd Hincl).
      pose proof (NoDup_incl_length (proj1 g_wf) (kahn_complete g final Hac Hzero)). lia. }
    split; [|split; [|exact Hnac]].
    + intros Hnil. apply Hlen.
      assert (Hall : incl (Dict.keys g) final).
      { intros n Hn. destruct (in_dec string_dec n final) as [H|H]; [exact H|].
        exfalso.
        assert (Hf : In n (filter (fun k => negb (mem k final)) (Dict.keys g))).
        { apply filter_In. split; [exact Hn|]. apply negb_true_iff, mem_false_iff. exact H. }
        eapply Permutation_in in Hf; [|apply Permutation_sym, set_iter_perm].
        rewrite Hnil in Hf. destruct Hf. }
      pose proof (NoDup_incl_length Hnd Hincl).
      pose proof (NoDup_incl_length (proj1 g_wf) Hall). lia.
    + intros n Hn. eapply Permutation_in in Hn; [|apply set_iter_perm].
      apply filter_In in Hn. tauto.
Qed.

End StepFacts.

Definition graph_CBA : graph := [("x-C", ["x-B"]); ("x-B", ["x-A"]); ("x-A", [])].

Fixpoint nodupb (l : list string) : bool :=
  match l with
  | [] => true
  | x :: t => negb (mem x t) && nodupb t
  end.

(** A checker for [wf_graph]. *)
Definition wf_graphb (g : graph) : bool :=
  nodupb (Dict.keys g) &&
  forallb (fun kv => nodupb (snd kv) && forallb (fun v => mem v (Dict.keys g)) (snd kv)) g.

Lemma nodupb_NoDup l : nodupb l = true -> NoDup l.
Proof.
  induction l as [|x t IH]; simpl; [constructor|].
  rewrite andb_true_iff, negb_true_iff, mem_false_iff. intros [Hx Ht].
  constructor; auto.
Qed.

Lemma wf_graphb_sound g : wf_graphb g = true -> wf_graph g.
Proof.
  unfold wf_graphb. rewrite andb_true_iff, forallb_forall. intros [Hk Hall].
  split; [apply nodupb_NoDup; exact Hk|].
  intros k. unfold graph_get. destruct (Dict.get g k) as [s|] eqn:E.
  - apply DictFacts.get_In in E. specialize (Hall _ E). simpl in Hall.
    rewrite andb_true_iff, forallb_forall in Hall. destruct Hall as [Hs Hv].
    split; [apply nodupb_NoDup; exact Hs|]. intros v Hin. apply mem_true_iff. auto.
  - split; [constructor | intros v []].
Qed.

Lemma graph_CBA_wf : wf_graph graph_CBA.
Proof. apply wf_graphb_sound. reflexivity. Qed.

Lemma check_circular_iff_acyclic_witness :
  _check_circular_dependencies (fun l => l) graph_CBA <> None /\
  (_check_circular_dependencies (fun l => l) graph_CBA = Some (Ok tt) <-> acyclic graph_CBA).
Proof.
  apply (check_circular_iff_acyclic (fun l => l) (fun l => Permutation_refl l)
           graph_CBA graph_CBA_wf).
Defined.

Lemma topological_sort_sound_witness :
  exists r, _topological_sort (fun l => l) graph_CBA = Some r /\
    match r with
    | Ok order =>
        NoDup order /\ (forall n, In n order <-> In n (Dict.keys graph_CBA)) /\
        (forall m d, edge graph_CBA m d ->
           exists i j, index d order = Some i /\ index m order = Some j /\ (i < j)%nat) /\
        acyclic graph_CBA
    | Raise e =>
        exists nodes, e = CircularDependencyError nodes /\ nodes <> [] /\
                      incl nodes (Dict.keys graph_CBA) /\ ~ acyclic graph_CBA
    end.
Proof.
  apply (topological_sort_sound (fun l => l) (fun l => Permutation_refl l)
           graph_CBA graph_CBA_wf).
Defined.

(** X4: [resolve_load_order] always ends, in one of three ways, each decided by
    the input alone: [MissingDependencyError] when a declared dependency is
    absent, else [CircularDependencyError] when the dependencies have a
    cycle, else a list.  It raises nothing else, and in every case the mods
    have been put in the registry. *)
Theorem resolve_load_order_outcomes (set_iter : list string -> list string)
    (reg : list (string * Mod)) (mods0 : list Mod) :
  (forall l, Permutation (set_iter l) l) ->
  fst (resolve_load_order set_iter reg mods0) = register_mods reg mods0 /\
  exists r, snd (resolve_load_order set_iter reg mods0) = Some r /\
    match r with
    | Ok _ => deps_present mods0 = true /\
              forall x, ~ clos_trans string (dep_edge mods0) x x
    | Raise (MissingDependencyError m d _) =>
        deps_present mods0 = false /\ dep_edge mods0 m d /\ ~ In d (map id mods0)
    | Raise (CircularDependencyError _) =>
        deps_present mods0 = true /\ exists x, clos_trans string (dep_edge mods0) x x
    | Raise _ => False
    end.
Proof.
  intros Hperm. split; [reflexivity|]. unfold resolve_load_order. cbn [snd].
  pose proof (build_dependency_graph_spec mods0) as Hb.
  destruct (_build_dependency_graph mods0) as [g|e].
  - destruct Hb as [Hp [Hwf [Hkeys Hedge]]].
    destruct (check_circular_spec set_iter Hperm g Hwf) as [r [Hr Hres]].
    rewrite Hr. destruct r as [[]|e].
    + assert (Hac : forall x, ~ clos_trans string (dep_edge mods0) x x).
      { intros x Hx. apply (Hres x). eapply clos_trans_ext; [|exact Hx].
        intros a b. apply Hedge. }
      destruct (topological_sort_spec set_iter Hperm g Hwf) as [r' [Hr' Hsort]].
      destruct (Hsort Hres) as [order [-> _]].
      exists (Ok order). auto.
    + destruct Hres as [chain [-> Hc]]. eexists. split; [reflexivity|].
      split; [exact Hp|]. apply valid_cycle_is_cycle in Hc as [x [_ Hx]].
      exists x. eapply clos_trans_ext; [|exact Hx]. intros a b. apply Hedge.
  - destruct Hb as [Hp [m [d [c [-> [He Hn]]]]]]. eexists. split; [reflexivity|].
    cbn. auto.
Qed.

Lemma resolve_load_order_outcomes_witness :
  fst (resolve_load_order (fun l => l) [] mods_mutual) = register_mods [] mods_mutual /\
  exists r, snd (resolve_load_order (fun l => l) [] mods_mutual) = Some r /\
    match r with
    | Ok _ => deps_present mods_mutual = true /\
              forall x, ~ clos_trans string (dep_edge mods_mutual) x x
    | Raise (MissingDependencyError m d _) =>
        deps_present mods_mutual = false /\ dep_edge mods_mutual m d /\
        ~ In d (map id mods_mutual)
    | Raise (CircularDependencyError _) =>
        deps_present mods_mutual = true /\
        exists x, clos_trans string (dep_edge mods_mutual) x x
    | Raise _ => False
    end.
Proof.
  apply (resolve_load_order_outcomes (fun l => l) [] mods_mutual).
  intros l. apply Permutation_refl.
Defined.

(** ** The registry *)

Lemma keys_set_NoDup_gen {K V : Type} `{EqDec K} (d : list (K * V)) (k : K) (v : V) :
  NoDup (Dict.keys d) -> NoDup (Dict.keys (Dict.set d k v)).
Proof.
  intros Hnd. destruct (in_dec eq_dec k (Dict.keys d)) as [Hin|Hnin].
  - rewrite DictFacts.keys_set_present; assumption.
  - rewrite DictFacts.keys_set_absent by assumption.
    apply NoDup_app; [exact Hnd | repeat constructor; auto |].
    intros a Ha [<-|[]]. contradiction.
Qed.

Lemma register_mods_snoc reg ms m :
  register_mods reg (ms ++ [m]) = register_mod (register_mods reg ms) m.
Proof. unfold register_mods. rewrite fold_left_app. reflexivity. Qed.

Lemma register_mods_other (ms : list Mod) : forall (reg : list (string * Mod)) (k : string),
  ~ In k (map id ms) -> Dict.get (register_mods reg ms) k = Dict.get reg k.
Proof.
  induction ms as [|m ms IH]; intros reg k Hk; [reflexivity|].
  cbn [map In] in Hk. change (register_mods reg (m :: ms))
    with (register_mods (register_mod reg m) ms).
  rewrite IH by tauto. unfold register_mod.
  apply DictFacts.get_set_other. intros ->. tauto.
Qed.

(** X5: [register_mods] keeps one entry per id; afterwards every mod passed can
    be looked up by its id, and the lookup gives the last mod passed with
    that id: a mod after which no mod with the same id is passed is the one
    found (the mod itself when the ids passed are distinct); the entries
    under other ids are as before. *)
Theorem register_mods_lookup (reg : list (string * Mod)) (ms : list Mod) :
  NoDup (Dict.keys reg) ->
  NoDup (Dict.keys (register_mods reg ms)) /\
  (forall k, ~ In k (map id ms) ->
     Dict.get (register_mods reg ms) k = Dict.get reg k) /\
  (forall m, In m ms ->
     exists m', Dict.get (register_mods reg ms) (id m) = Some m' /\
                id m' = id m /\ In m' ms) /\
  (forall before m after, ms = before ++ m :: after -> ~ In (id m) (map id after) ->
     Dict.get (register_mods reg ms) (id m) = Some m) /\
  (NoDup (map id ms) ->
     forall m, In m ms -> Dict.get (register_mods reg ms) (id m) = Some m).
Proof.
  intros Hnd.
  assert (Hlast : forall before m after, ms = before ++ m :: after ->
            ~ In (id m) (map id after) ->
            Dict.get (register_mods reg ms) (id m) = Some m).
  { intros before m after -> Hafter. unfold register_mods. rewrite fold_left_app.
    cbn [fold_left]. fold (register_mods reg before).
    fold (register_mods (register_mod (register_mods reg before) m) after).
    rewrite register_mods_other by exact Hafter. apply DictFacts.get_set_same. }
  split; [|split; [apply register_mods_other|split; [|split; [exact Hlast|]]]].
  - clear Hlast. induction ms as [|m ms IH] using rev_ind; [exact Hnd|].
    rewrite register_mods_snoc. unfold register_mod. now apply keys_set_NoDup_gen.
  - clear Hlast. induction ms as [|m ms IH] using rev_ind; [intros m []|].
    intros m0 Hin. rewrite register_mods_snoc. unfold register_mod.
    destruct (string_dec (id m0) (id m)) as [E|E].
    + exists m. rewrite E, DictFacts.get_set_same. split; [reflexivity|].
      split; [auto | apply in_app_iff; right; left; reflexivity].
    + apply in_app_iff in Hin as [Hin|[<-|[]]]; [|congruence].
      destruct (IH m0 Hin) as [m' [H1 [H2 H3]]]. exists m'.
      rewrite DictFacts.get_set_other by exact E.
      split; [exact H1|]. split; [exact H2 | apply in_app_iff; left; exact H3].
  - intros Hids m Hin. apply in_split in Hin as [before [after ->]].
    apply (Hlast before m after eq_refl).
    rewrite map_app in Hids. cbn [map] in Hids. now apply NoDup_remove_2 in Hids as Hm;
      intros Hin; apply Hm; apply in_app_iff; right.
Qed.

Definition mods_twice : list Mod :=
  [mk_mod "x-A" ["x-B"]; mk_mod "x-B" []; mk_mod "x-A" []].

Lemma register_mods_lookup_witness :
  NoDup (Dict.keys (register_mods [] mods_twice)) /\
  (forall k, ~ In k (map id mods_twice) ->
     Dict.get (register_mods [] mods_twice) k = Dict.get [] k) /\
  (forall m, In m mods_twice ->
     exists m', Dict.get (register_mods [] mods_twice) (id m) = Some m' /\
                id m' = id m /\ In m' mods_twice) /\
  (forall before m after, mods_twice = before ++ m :: after ->
     ~ In (id m) (map id after) ->
     Dict.get (register_mods [] mods_twice) (id m) = Some m) /\
  (NoDup (map id mods_twice) ->
     forall m, In m mods_twice -> Dict.get (register_mods [] mods_twice) (id m) = Some m).
Proof.
  apply (register_mods_lookup [] mods_twice). constructor.
Defined.

(** Of two mods passed under one id, the second is the one registered. *)
Example register_mods_last_wins :
  Dict.get (register_mods [] mods_twice) "x-A" = Some (mk_mod "x-A" []).
Proof. reflexivity. Qed.

(** [find_dependents]: the ids of the registered mods that list [target]
    among their dependencies. *)
Definition find_dependents (reg : list (string * Mod)) (target : string) : list string :=
  map fst (filter (fun kv => existsb (fun dep => String.eqb (mod_id dep) target)
                                     (dependencies (snd kv))) reg).

(** X6: [find_dependents] is the converse of the direct-dependency query: [d] is
    returned for [m] exactly when [m] is among the direct dependencies
    returned for [d]; and no id is returned twice. *)
Theorem find_dependents_converse (reg : list (string * Mod)) (m d : string) :
  NoDup (Dict.keys reg) ->
  NoDup (find_dependents reg m) /\
  (In d (find_dependents reg m) <->
   exists l, get_all_dependencies reg d false = Some l /\ In m l).
Proof.
  intros Hnd. unfold find_dependents. split.
  - clear d. induction reg as [|[k v] reg IH]; simpl; [constructor|].
    inversion Hnd as [|? ? Hk Hnd']; subst.
    destruct (existsb _ (dependencies v)); simpl; [|auto].
    constructor; [|auto]. intros Hin. apply Hk. apply in_map_iff in Hin as [[k' v'] [E Hin]].
    simpl in E. subst k'. apply filter_In in Hin as [Hin _].
    change k with (fst (k, v')). now apply in_map.
  - unfold get_all_dependencies. cbn [negb]. rewrite in_map_iff. split.
    + intros [[k v] [E Hin]]. simpl in E. subst k. apply filter_In in Hin as [Hin Hex].
      rewrite (DictFacts.In_get _ _ _ Hnd Hin). exists (dep_ids v). split; [reflexivity|].
      apply existsb_exists in Hex as [dep [Hdep Heq]]. apply String.eqb_eq in Heq.
      subst m. unfold dep_ids. now apply in_map.
    + intros [l [Hl Hin]]. destruct (Dict.get reg d) as [v|] eqn:E.
      * inversion Hl; subst l. exists (d, v). split; [reflexivity|].
        apply filter_In. split; [apply DictFacts.get_In; exact E|].
        unfold dep_ids in Hin. apply in_map_iff in Hin as [dep [Hid Hdep]].
        apply existsb_exists. exists dep. split; [exact Hdep|]. apply String.eqb_eq. exact Hid.
      * inversion Hl; subst l. destruct Hin.
Qed.

Lemma find_dependents_converse_witness :
  NoDup (find_dependents registry_AB "x-B") /\
  (In "x-A" (find_dependents registry_AB "x-B") <->
   exists l, get_all_dependencies registry_AB "x-A" false = Some l /\ In "x-B" l).
Proof.
  apply (find_dependents_converse registry_AB "x-B" "x-A").
  apply nodupb_NoDup. reflexivity.
Defined.

(** ** Versions and constraints *)

Lemma tuple_lt_irrefl a : tuple_lt a a = false.
Proof.
  induction a as [|x a IH]; simpl; [reflexivity|]. now rewrite Z.eqb_refl.
Qed.

Lemma tuple_lt_asym a b : tuple_lt a b = true -> tuple_lt b a = false.
Proof.
  revert b. induction a as [|x a IH]; intros [|y b]; simpl; try congruence.
  destruct (Z.eqb_spec x y) as [->|Hne].
  - rewrite Z.eqb_refl. apply IH.
  - intros Hlt. apply Z.ltb_lt in Hlt.
    destruct (Z.eqb_spec y x); [congruence|]. apply Z.ltb_ge. lia.
Qed.

Lemma tuple_lt_trans a b c :
  tuple_lt a b = true -> tuple_lt b c = true -> tuple_lt a c = true.
Proof.
  revert b c. induction a as [|x a IH]; intros [|y b] [|z c]; simpl; try congruence.
  destruct (Z.eqb_spec x y) as [->|Hxy].
  - destruct (Z.eqb_spec y z) as [->|Hyz]; [apply IH | auto].
  - intros Hlt. apply Z.ltb_lt in Hlt.
    destruct (Z.eqb_spec y z) as [->|Hyz].
    + intros _. destruct (Z.eqb_spec x z); [congruence|]. now apply Z.ltb_lt.
    + intros Hlt'. apply Z.ltb_lt in Hlt'.
      destruct (Z.eqb_spec x z); [lia|]. apply Z.ltb_lt. lia.
Qed.

Lemma tuple_lt_total a b : tuple_lt a b = false -> tuple_lt b a = false -> a = b.
Proof.
  revert b. induction a as [|x a IH]; intros [|y b]; simpl; try congruence.
  destruct (Z.eqb_spec x y) as [->|Hxy].
  - rewrite Z.eqb_refl. intros H1 H2. f_equal. now apply IH.
  - destruct (Z.eqb_spec y x); [congruence|].
    intros H1 H2. apply Z.ltb_ge in H1, H2. lia.
Qed.

(** [a <= b] and [b <= c] give [a <= c], with [x <= y] read as "not y < x". *)
Lemma tuple_le_trans a b c :
  tuple_lt b a = false -> tuple_lt c b = false -> tuple_lt c a = false.
Proof.
  intros Hab Hbc. destruct (tuple_lt c a) eqn:Hca; [|reflexivity].
  destruct (tuple_lt b c) eqn:Hbc'.
  - rewrite (tuple_lt_trans _ _ _ Hbc' Hca) in Hab. discriminate.
  - rewrite (tuple_lt_total _ _ Hbc' Hbc), Hca in Hab. discriminate.
Qed.

Lemma tuple_lt_le_trans a b c :
  tuple_lt a b = true -> tuple_lt c b = false -> tuple_lt a c = true.
Proof.
  intros Hab Hbc. destruct (tuple_lt a c) eqn:Hac; [reflexivity|].
  destruct (tuple_lt c a) eqn:Hca.
  - rewrite (tuple_lt_trans _ _ _ Hca Hab) in Hbc. discriminate.
  - rewrite <- (tuple_lt_total _ _ Hac Hca), Hab in Hbc. discriminate.
Qed.

Lemma tuple_le_lt_trans a b c :
  tuple_lt b a = false -> tuple_lt b c = true -> tuple_lt a c = true.
Proof.
  intros Hab Hbc. destruct (tuple_lt a c) eqn:Hac; [reflexivity|].
  destruct (tuple_lt c a) eqn:Hca.
  - rewrite (tuple_lt_trans _ _ _ Hbc Hca) in Hab. discriminate.
  - rewrite (tuple_lt_total _ _ Hac Hca), Hbc in Hab. discriminate.
Qed.

Lemma compare_versions_le v1 v2 :
  (_compare_versions v1 v2 <= 0)%Z <-> tuple_lt (normalize v2) (normalize v1) = false.
Proof.
  unfold _compare_versions. cbv zeta.
  destruct (tuple_lt (normalize v1) (normalize v2)) eqn:H12.
  - rewrite (tuple_lt_asym _ _ H12). split; [reflexivity | lia].
  - destruct (tuple_lt (normalize v2) (normalize v1)); split; (lia || congruence).
Qed.

Lemma compare_versions_lt v1 v2 :
  (_compare_versions v1 v2 < 0)%Z <-> tuple_lt (normalize v1) (normalize v2) = true.
Proof.
  unfold _compare_versions. cbv zeta.
  destruct (tuple_lt (normalize v1) (normalize v2)) eqn:H12.
  - split; [reflexivity | lia].
  - destruct (tuple_lt (normalize v2) (normalize v1)); split; (lia || congruence).
Qed.

Lemma compare_versions_ge v1 v2 :
  (0 <= _compare_versions v1 v2)%Z <-> tuple_lt (normalize v1) (normalize v2) = false.
Proof.
  unfold _compare_versions. cbv zeta.
  destruct (tuple_lt (normalize v1) (normalize v2)) eqn:H12.
  - split; [lia | congruence].
  - destruct (tuple_lt (normalize v2) (normalize v1)); split; (lia || congruence).
Qed.

Lemma compare_versions_gt v1 v2 :
  (0 < _compare_versions v1 v2)%Z <-> tuple_lt (normalize v2) (normalize v1) = true.
Proof.
  unfold _compare_versions. cbv zeta.
  destruct (tuple_lt (normalize v1) (normalize v2)) eqn:H12.
  - rewrite (tuple_lt_asym _ _ H12). split; [lia | congruence].
  - destruct (tuple_lt (normalize v2) (normalize v1)); split; (lia || congruence).
Qed.

(** X7: [_compare_versions] is a consistent three-way comparison: a version
    equals itself, swapping the arguments negates the result, the result is
    0 exactly when both versions normalise to the same tuple, and "at most"
    is transitive. *)
Theorem compare_versions_order (v1 v2 v3 : string) :
  _compare_versions v1 v1 = 0%Z /\
  _compare_versions v2 v1 = (- _compare_versions v1 v2)%Z /\
  (_compare_versions v1 v2 = 0%Z <-> normalize v1 = normalize v2) /\
  ((_compare_versions v1 v2 <= 0)%Z -> (_compare_versions v2 v3 <= 0)%Z ->
   (_compare_versions v1 v3 <= 0)%Z).
Proof.
  split; [|split; [|split]].
  - unfold _compare_versions. cbv zeta. now rewrite tuple_lt_irrefl.
  - unfold _compare_versions. cbv zeta.
    destruct (tuple_lt (normalize v1) (normalize v2)) eqn:H12.
    + now rewrite (tuple_lt_asym _ _ H12).
    + destruct (tuple_lt (normalize v2) (normalize v1)); reflexivity.
  - unfold _compare_versions. cbv zeta. split.
    + destruct (tuple_lt (normalize v1) (normalize v2)) eqn:H12; [discriminate|].
      destruct (tuple_lt (normalize v2) (normalize v1)) eqn:H21; [discriminate|].
      intros _. now apply tuple_lt_total.
    + intros ->. now rewrite tuple_lt_irrefl.
  - rewrite !compare_versions_le. intros H12 H23. eapply tuple_le_trans; eauto.
Qed.

(** [s.startswith(prefix)]. *)
Fixpoint startswith (s prefix : string) {struct prefix} : bool :=
  match prefix, s with
  | EmptyString, _ => true
  | String a prefix', String b s' => Ascii.eqb a b && startswith s' prefix'
  | String _ _, EmptyString => false
  end.

(** [s[n:]]. *)
Fixpoint slice_from (n : nat) (s : string) : string :=
  match n, s with
  | O, _ => s
  | S n', String _ s' => slice_from n' s'
  | S _, EmptyString => EmptyString
  end.

(** [_check_version_constraint]. *)
Definition _check_version_constraint (version constraint : string) : bool :=
  if String.eqb constraint "*" then true
  else if String.eqb constraint version then true
  else if startswith constraint ">=" then
    (0 <=? _compare_versions version (strip (slice_from 2 constraint)))%Z
  else if startswith constraint ">" then
    (0 <? _compare_versions version (strip (slice_from 1 constraint)))%Z
  else if startswith constraint "<=" then
    (_compare_versions version (strip (slice_from 2 constraint)) <=? 0)%Z
  else if startswith constraint "<" then
    (_compare_versions version (strip (slice_from 1 constraint)) <? 0)%Z
  else false.

Lemma startswith_lt_not_gt c :
  startswith c "<" = true -> startswith c ">=" = false /\ startswith c ">" = false.
Proof.
  destruct c as [|a c]; cbn [startswith]; [discriminate|].
  destruct (Ascii.eqb_spec "<"%char a) as [<-|]; [|discriminate].
  intros _. split; reflexivity.
Qed.

(** X8: A lower-bound constraint ([>=], [>]) that accepts a version accepts
    every version that compares at least as high, and an upper-bound
    constraint ([<=], [<]) that accepts a version accepts every version that
    compares at most as high; provided the accepted version is not the text
    of the constraint itself, which is accepted whatever it says. *)
Theorem check_version_constraint_monotone (constraint lo hi : string) :
  (_compare_versions lo hi <= 0)%Z ->
  (startswith constraint ">" = true -> lo <> constraint ->
   _check_version_constraint lo constraint = true ->
   _check_version_constraint hi constraint = true) /\
  (startswith constraint "<" = true -> hi <> constraint ->
   _check_version_constraint hi constraint = true ->
   _check_version_constraint lo constraint = true).
Proof.
  intros Hle. apply compare_versions_le in Hle. unfold _check_version_constraint. split.
  - intros Hgt Hne.
    destruct (String.eqb constraint "*"); [reflexivity|].
    destruct (String.eqb_spec constraint lo) as [E|_]; [congruence|].
    destruct (String.eqb constraint hi); [reflexivity|].
    rewrite Hgt. destruct (startswith constraint ">=").
    + rewrite !Z.leb_le, !compare_versions_ge. intros H. eapply tuple_le_trans; eauto.
    + rewrite !Z.ltb_lt, !compare_versions_gt. intros H. eapply tuple_lt_le_trans; eauto.
  - intros Hlt Hne. destruct (startswith_lt_not_gt _ Hlt) as [G1 G2].
    destruct (String.eqb constraint "*"); [reflexivity|].
    destruct (String.eqb_spec constraint hi) as [E|_]; [congruence|].
    destruct (String.eqb constraint lo); [reflexivity|].
    rewrite G1, G2, Hlt. destruct (startswith constraint "<=").
    + rewrite !Z.leb_le, !compare_versions_le. intros H. eapply tuple_le_trans; eauto.
    + rewrite !Z.ltb_lt, !compare_versions_lt. intros H. eapply tuple_le_lt_trans; eauto.
Qed.

Lemma check_version_constraint_monotone_witness :
  (_compare_versions "1.2.0" "1.10.0" <= 0)%Z /\
  (startswith ">= 1.1.0" ">" = true /\ "1.2.0" <> ">= 1.1.0" /\
   _check_version_constraint "1.2.0" ">= 1.1.0" = true /\
   _check_version_constraint "1.10.0" ">= 1.1.0" = true) /\
  (startswith "<2" "<" = true /\ "1.10.0" <> "<2" /\
   _check_version_constraint "1.10.0" "<2" = true /\
   _check_version_constraint "1.2.0" "<2" = true).
Proof.
  assert (H1 : (_compare_versions "1.2.0" "1.10.0" <= 0)%Z) by (vm_compute; discriminate).
  assert (H2 : "1.2.0" <> ">= 1.1.0") by discriminate.
  assert (H3 : "1.10.0" <> "<2") by discriminate.
  split; [exact H1|]. split.
  - split; [reflexivity|]. split; [exact H2|]. split; [reflexivity|].
    exact (proj1 (check_version_constraint_monotone ">= 1.1.0" "1.2.0" "1.10.0" H1)
             eq_refl H2 eq_refl).
  - split; [reflexivity|]. split; [exact H3|]. split; [reflexivity|].
    exact (proj2 (check_version_constraint_monotone "<2" "1.2.0" "1.10.0" H1)
             eq_refl H3 eq_refl).
Defined.

(** [check_version_compatibility]; the messages are the f-strings of the
    source. *)
Definition check_version_compatibility (reg : list (string * Mod)) (mid : string)
    (available_mods : list (string * string)) : bool * list string :=
  match Dict.get reg mid with
  | None => (false, [("Mod " ++ mid ++ " not found in registry")%string])
  | Some m =>
      let errors :=
        fold_left (fun errors dep =>
            match Dict.get available_mods (mod_id dep) with
            | None =>
                errors ++ [("Missing dependency: " ++ mod_id dep ++ " (required by "
                            ++ mid ++ ")")%string]
            | Some installed_version =>
                if _check_version_constraint installed_version (version_constraint dep)
                then errors
                else errors ++ [("Version conflict: " ++ mod_id dep ++ " requires "
                                 ++ version_constraint dep ++ ", but "
                                 ++ installed_version ++ " is installed")%string]
            end) (dependencies m) [] in
      (Nat.eqb (List.length errors) 0, errors)
  end.

(** A dependency is satisfied when it is available in a version that its
    constraint accepts. *)
Definition satisfied (available_mods : list (string * string)) (dep : ModDependency) : bool :=
  match Dict.get available_mods (mod_id dep) with
  | None => false
  | Some v => _check_version_constraint v (version_constraint dep)
  end.

Lemma compatibility_errors_length (f : list string -> ModDependency -> list string)
    (ok : ModDependency -> bool) (deps : list ModDependency) (errors : list string) :
  (forall errs dep, f errs dep = if ok dep then errs else f errs dep) ->
  (forall errs dep, ok dep = false -> List.length (f errs dep) = S (List.length errs)) ->
  List.length (fold_left f deps errors) =
  (List.length errors + List.length (filter (fun dep => negb (ok dep)) deps))%nat.
Proof.
  intros Hok Hbad. revert errors. induction deps as [|dep deps IH]; intros errors; simpl.
  - lia.
  - rewrite IH. destruct (ok dep) eqn:E; simpl.
    + rewrite Hok, E. reflexivity.
    + rewrite (Hbad _ _ E). lia.
Qed.

(** X9: [check_version_compatibility] answers [True] exactly when it reports no
    error, which is exactly when the mod is registered and each of its
    dependencies is available in an accepted version; for a registered mod
    it reports one error per dependency that is not. *)
Theorem check_version_compatibility_spec (reg : list (string * Mod)) (mid : string)
    (available_mods : list (string * string)) :
  let r := check_version_compatibility reg mid available_mods in
  (fst r = true <-> snd r = []) /\
  (fst r = true <->
   exists m, Dict.get reg mid = Some m /\
             forall dep, In dep (dependencies m) -> satisfied available_mods dep = true) /\
  (forall m, Dict.get reg mid = Some m ->
     List.length (snd r) =
     List.length (filter (fun dep => negb (satisfied available_mods dep)) (dependencies m))).
Proof.
  unfold check_version_compatibility. destruct (Dict.get reg mid) as [m|]; cbv zeta.
  - match goal with |- context [fold_left ?f _ _] => set (step := f) end.
    assert (Hlen : List.length (fold_left step (dependencies m) []) =
                   List.length (filter (fun dep => negb (satisfied available_mods dep))
                                       (dependencies m))).
    { rewrite (compatibility_errors_length step (satisfied available_mods)); [reflexivity| |].
      - intros errs dep. unfold step, satisfied.
        destruct (Dict.get available_mods (mod_id dep)); [|reflexivity].
        destruct (_check_version_constraint _ _); reflexivity.
      - intros errs dep. unfold step, satisfied.
        destruct (Dict.get available_mods (mod_id dep)).
        + intros ->. rewrite length_app. simpl. lia.
        + intros _. rewrite length_app. simpl. lia. }
    cbn [fst snd]. split; [|split].
    + rewrite Nat.eqb_eq. apply length_zero_iff_nil.
    + rewrite Nat.eqb_eq, Hlen. rewrite length_zero_iff_nil. split.
      * intros Hnil. exists m. split; [reflexivity|]. intros dep Hin.
        destruct (satisfied available_mods dep) eqn:E; [reflexivity|].
        assert (Hf : In dep (filter (fun dep => negb (satisfied available_mods dep))
                                    (dependencies m))).
        { apply filter_In. split; [exact Hin|]. now rewrite E. }
        rewrite Hnil in Hf. destruct Hf.
      * intros [m' [E Hall]]. inversion E; subst m'.
        apply filter_nil. intros dep Hin. now rewrite (Hall dep Hin).
    + intros m' E. inversion E; subst m'. exact Hlen.
  - cbn [fst snd]. split; [split; discriminate|]. split.
    + split; [discriminate|]. intros [m [E _]]. discriminate.
    + intros m E. discriminate.
Qed.

(** ** The dependency tree *)

(** The nested dictionaries that [get_dependency_tree] builds: a node holds
    the keys [id], [name] and [children], and [version] when the mod is
    registered and expanded. *)
Unset Elimination Schemes.
Inductive dep_tree : Type :=
| DepTree (t_id t_name : string) (t_version : option string) (t_children : list dep_tree).
Set Elimination Schemes.

(** The nested [build_tree]; [budget] is [max_depth - depth], and [visited]
    holds the ids on the way down from the root (each call gets its own
    copy). *)
Fixpoint build_tree (reg : list (string * Mod)) (budget : nat) (current_id : string)
    (visited : list string) : dep_tree :=
  match budget with
  | O => DepTree current_id current_id None []
  | S budget' =>
      if mem current_id visited then DepTree current_id current_id None []
      else match Dict.get reg current_id with
           | None => DepTree current_id current_id None []
           | Some m =>
               DepTree (id m) (name m) (Some (version m))
                 (map (fun dep => build_tree reg budget' (mod_id dep) (current_id :: visited))
                      (dependencies m))
           end
  end.

(** [get_dependency_tree]; [None] is the empty dictionary. *)
Definition get_dependency_tree (reg : list (string * Mod)) (mid : string) (max_depth : Z)
    : option dep_tree :=
  if Dict.contains reg mid then Some (build_tree reg (Z.to_nat max_depth) mid [])
  else None.

(** Number of edges on the longest way down. *)
Fixpoint height (t : dep_tree) : nat :=
  match t with
  | DepTree _ _ _ children =>
      fold_right (fun c h => Nat.max (S (height c)) h) O children
  end.

Lemma height_children_le (cs : list dep_tree) (bound : nat) :
  (forall c, In c cs -> (S (height c) <= bound)%nat) ->
  (fold_right (fun c h => Nat.max (S (height c)) h) O cs <= bound)%nat.
Proof.
  induction cs as [|c cs IH]; cbn [fold_right]; intros Hall; [lia|].
  apply Nat.max_lub; [apply Hall; left; reflexivity | apply IH; intros; apply Hall; now right].
Qed.

Lemma build_tree_height_budget reg budget current_id visited :
  (height (build_tree reg budget current_id visited) <= budget)%nat.
Proof.
  revert current_id visited. induction budget as [|budget IH]; intros cur visited; simpl.
  - lia.
  - destruct (mem cur visited); simpl; [lia|].
    destruct (Dict.get reg cur) as [m|]; simpl; [|lia].
    apply height_children_le. intros c Hc. apply in_map_iff in Hc as [dep [<- _]].
    specialize (IH (mod_id dep) (cur :: visited)). lia.
Qed.

Lemma build_tree_height_registry reg budget current_id visited :
  NoDup visited -> incl visited (Dict.keys reg) ->
  (height (build_tree reg budget current_id visited) + List.length visited
   <= List.length reg)%nat.
Proof.
  assert (Hbase : forall visited, NoDup visited -> incl visited (Dict.keys reg) ->
                    (List.length visited <= List.length reg)%nat).
  { intros v Hnd Hincl. pose proof (NoDup_incl_length Hnd Hincl) as Hl.
    unfold Dict.keys in Hl. now rewrite length_map in Hl. }
  revert current_id visited.
  induction budget as [|budget IH]; intros cur visited Hnd Hincl; cbn [build_tree].
  - cbn [height fold_right Nat.add]. now apply Hbase.
  - destruct (mem cur visited) eqn:Hm;
      [cbn [height fold_right Nat.add]; now apply Hbase|].
    destruct (Dict.get reg cur) as [m|] eqn:Hg;
      [|cbn [height fold_right Nat.add]; now apply Hbase].
    cbn [height].
    apply mem_false_iff in Hm.
    assert (Hk : In cur (Dict.keys reg)).
    { apply DictFacts.get_In_keys. congruence. }
    enough (fold_right (fun c h => Nat.max (S (height c)) h) O
              (map (fun dep => build_tree reg budget (mod_id dep) (cur :: visited))
                   (dependencies m))
            <= List.length reg - List.length visited)%nat.
    { specialize (Hbase _ Hnd Hincl). lia. }
    apply height_children_le. intros c Hc. apply in_map_iff in Hc as [dep [<- _]].
    specialize (IH (mod_id dep) (cur :: visited)). simpl in IH.
    assert (NoDup (cur :: visited)) by (constructor; assumption).
    assert (incl (cur :: visited) (Dict.keys reg)).
    { intros x [<-|Hx]; [exact Hk | now apply Hincl]. }
    specialize (IH ltac:(assumption) ltac:(assumption)). lia.
Qed.

(** X10: [get_dependency_tree] gives the empty dictionary exactly for an
    unregistered mod; otherwise the tree is no deeper than [max_depth] and
    no deeper than the number of registered mods, however the dependencies
    refer to one another (a dependency cycle is cut where it closes). *)
Theorem get_dependency_tree_depth (reg : list (string * Mod)) (mid : string)
    (max_depth : Z) :
  match get_dependency_tree reg mid max_depth with
  | None => Dict.get reg mid = None
  | Some t =>
      Dict.get reg mid <> None /\
      (Z.of_nat (height t) <= Z.max 0 max_depth)%Z /\
      (height t <= List.length reg)%nat
  end.
Proof.
  unfold get_dependency_tree. unfold Dict.contains.
  destruct (Dict.get reg mid) as [m|] eqn:E; [|reflexivity].
  split; [discriminate|]. split.
  - pose proof (build_tree_height_budget reg (Z.to_nat max_depth) mid []). lia.
  - pose proof (build_tree_height_registry reg (Z.to_nat max_depth) mid []
                  (NoDup_nil _) (incl_nil_l _)) as H.
    simpl in H. lia.
Qed.

(** ** The hash cache *)

(** [HashCache.calculate_or_get]; [calculate] is [calculate_file_hash] on
    the file of the key.  A cached fingerprint that is the empty string is
    falsy and is computed again. *)
Definition HashCache_calculate_or_get (max_size : nat) (stat : string -> option stat_result)
    (calculate : string -> result string) (cache : list (string * cache_entry))
    (key : string) : result string * list (string * cache_entry) :=
  let (cached, cache1) := HashCache_get stat cache key in
  match (match cached with
         | Some h => if String.eqb h EmptyString then None else Some h
         | None => None
         end) with
  | Some h => (Ok h, cache1)
  | None =>
      match calculate key with
      | Ok file_hash => (Ok file_hash, HashCache_put max_size stat cache1 key file_hash)
      | Raise e => (Raise e, cache1)
      end
  end.

(** [HashCache.invalidate]. *)
Definition HashCache_invalidate (cache : list (string * cache_entry)) (key : string)
    : list (string * cache_entry) :=
  if Dict.contains cache key then Dict.del cache key else cache.

Section MoreDictFacts.
Context {K V : Type} `{EqDec K}.
Implicit Types (d : list (K * V)) (k : K) (v : V).

Lemma del_set_same d k v : Dict.del (Dict.set d k v) k = Dict.del d k.
Proof.
  induction d as [|[k0 v0] d IH]; simpl.
  - destruct (eq_dec k k); [reflexivity | congruence].
  - destruct (eq_dec k k0) as [->|Hne]; simpl.
    + destruct (eq_dec k0 k0); [reflexivity | congruence].
    + destruct (eq_dec k k0); [congruence|]. f_equal. exact IH.
Qed.

Lemma del_absent d k : Dict.get d k = None -> Dict.del d k = d.
Proof.
  induction d as [|[k0 v0] d IH]; simpl; [reflexivity|].
  destruct (eq_dec k k0); [discriminate|]. intros E. f_equal. auto.
Qed.

Lemma del_length d k :
  NoDup (Dict.keys d) -> Dict.get d k <> None ->
  S (List.length (Dict.del d k)) = List.length d.
Proof.
  induction d as [|[k0 v0] d IH]; simpl; [congruence|].
  intros Hnd Hget. inversion Hnd as [|? ? Hk Hnd']; subst.
  destruct (eq_dec k k0) as [->|Hne].
  - fold (Dict.del d k0). rewrite del_absent; [reflexivity|].
    now apply DictFacts.get_None_keys.
  - simpl. f_equal. fold (Dict.del d k). auto.
Qed.

Lemma del_incl d k : incl (Dict.del d k) d.
Proof. intros x Hx. unfold Dict.del in Hx. apply filter_In in Hx. tauto. Qed.

Lemma get_app d1 d2 k :
  Dict.get (d1 ++ d2) k =
  match Dict.get d1 k with Some v => Some v | None => Dict.get d2 k end.
Proof.
  induction d1 as [|[k0 v0] d1 IH]; simpl; [reflexivity|].
  destruct (eq_dec k k0); [reflexivity | exact IH].
Qed.

Lemma del_app d1 d2 k : Dict.del (d1 ++ d2) k = Dict.del d1 k ++ Dict.del d2 k.
Proof. unfold Dict.del. apply filter_app. Qed.

Lemma move_to_end_set d k v : Dict.move_to_end (Dict.set d k v) k = Dict.del d k ++ [(k, v)].
Proof.
  unfold Dict.move_to_end. now rewrite DictFacts.get_set_same, del_set_same.
Qed.

Lemma move_to_end_incl d k : incl (Dict.move_to_end d k) d.
Proof.
  unfold Dict.move_to_end. destruct (Dict.get d k) as [v|] eqn:E; [|apply incl_refl].
  intros x Hx. apply in_app_iff in Hx as [Hx|[<-|[]]].
  - now apply del_incl in Hx.
  - now apply DictFacts.get_In.
Qed.

Lemma move_to_end_last d k v :
  Dict.get d k = None -> Dict.move_to_end (d ++ [(k, v)]) k = d ++ [(k, v)].
Proof.
  intros E. unfold Dict.move_to_end. rewrite get_app, E. simpl.
  destruct (eq_dec k k) as [_|Hne]; [|now elim Hne].
  rewrite del_app, (del_absent d k E). simpl.
  destruct (eq_dec k k) as [_|Hne]; [|now elim Hne]. now rewrite app_nil_r.
Qed.

Lemma keys_del_NoDup d k : NoDup (Dict.keys d) -> NoDup (Dict.keys (Dict.del d k)).
Proof. intros Hnd. rewrite DictFacts.keys_del. now apply NoDup_filter. Qed.

Lemma keys_del_snoc_NoDup d k v :
  NoDup (Dict.keys d) -> NoDup (Dict.keys (Dict.del d k ++ [(k, v)])).
Proof.
  intros Hnd. unfold Dict.keys. rewrite map_app. apply NoDup_app.
  - now apply keys_del_NoDup.
  - repeat constructor. intros [].
  - intros a Ha [E|[]]. subst a. fold (Dict.keys (Dict.del d k)) in Ha.
    apply DictFacts.get_In_keys in Ha. apply Ha. apply DictFacts.get_del_same.
Qed.

Lemma get_tl_None d k : Dict.get d k = None -> Dict.get (tl d) k = None.
Proof.
  destruct d as [|[k0 v0] d]; simpl; [auto|]. destruct (eq_dec k k0); [discriminate | auto].
Qed.

Lemma set_incl d k v x : In x (Dict.set d k v) -> x = (k, v) \/ In x d.
Proof.
  induction d as [|[k0 v0] d IH]; simpl.
  - intros [<-|[]]. now left.
  - destruct (eq_dec k k0) as [->|Hne]; simpl.
    + intros [<-|Hx]; auto.
    + intros [<-|Hx]; [auto|]. destruct (IH Hx); auto.
Qed.

End MoreDictFacts.

Lemma tl_NoDup {A : Type} (l : list A) : NoDup l -> NoDup (tl l).
Proof. destruct l; simpl; [auto|]. now inversion 1. Qed.

Lemma tl_incl {A : Type} (l : list A) : incl (tl l) l.
Proof. destruct l; simpl; [apply incl_refl|]. intros x Hx. now right. Qed.

Lemma HashCache_put_shape max_size stat cache key file_hash st :
  stat key = Some st ->
  HashCache_put max_size stat cache key file_hash =
  let cache1 := Dict.del cache key ++ [(key, (file_hash, st_mtime st, st_size st))] in
  if Nat.ltb max_size (List.length cache1) then tl cache1 else cache1.
Proof.
  intros Hst. unfold HashCache_put. rewrite Hst. cbv zeta. now rewrite move_to_end_set.
Qed.

Lemma HashCache_get_last stat (d : list (string * cache_entry)) key h st :
  stat key = Some st -> Dict.get d key = None ->
  HashCache_get stat (d ++ [(key, (h, st_mtime st, st_size st))]) key =
  (Some h, d ++ [(key, (h, st_mtime st, st_size st))]).
Proof.
  intros Hst Hd. unfold HashCache_get. rewrite get_app, Hd. simpl.
  destruct (eq_dec key key) as [_|Hne]; [|now elim Hne].
  rewrite Hst, !Z.eqb_refl. simpl. f_equal.
  now apply (move_to_end_last d key (h, st_mtime st, st_size st)).
Qed.

(** X11: What has just been put is found: when the file can be examined and the
    cache may hold at least one entry, a [get] right after a [put] returns
    the fingerprint that was put and leaves the cache as it is; and after
    [invalidate] a [get] finds nothing, while the entries of other files are
    as before. *)
Theorem HashCache_put_then_get (max_size : nat) (stat : string -> option stat_result)
    (cache : list (string * cache_entry)) (key file_hash : string) (st : stat_result) :
  stat key = Some st -> (1 <= max_size)%nat ->
  HashCache_get stat (HashCache_put max_size stat cache key file_hash) key =
    (Some file_hash, HashCache_put max_size stat cache key file_hash) /\
  HashCache_get stat (HashCache_invalidate cache key) key =
    (None, HashCache_invalidate cache key) /\
  (forall other, other <> key ->
     Dict.get (HashCache_invalidate cache key) other = Dict.get cache other).
Proof.
  intros Hst Hmax. split; [|split].
  - rewrite (HashCache_put_shape _ _ _ _ _ _ Hst). cbv zeta.
    pose proof (DictFacts.get_del_same cache key) as Hdel.
    destruct (Nat.ltb max_size _) eqn:Hlt.
    + apply Nat.ltb_lt in Hlt. rewrite length_app in Hlt. simpl in Hlt.
      destruct (Dict.del cache key) as [|x d] eqn:Ed; [simpl in Hlt; lia|].
      simpl tl. apply HashCache_get_last; [exact Hst|].
      change d with (tl (x :: d)). now apply get_tl_None.
    + now apply HashCache_get_last.
  - unfold HashCache_invalidate, Dict.contains.
    destruct (Dict.get cache key) as [v|] eqn:E.
    + unfold HashCache_get. now rewrite DictFacts.get_del_same.
    + unfold HashCache_get. now rewrite E.
  - intros other Hne. unfold HashCache_invalidate.
    destruct (Dict.contains cache key); [|reflexivity].
    now apply DictFacts.get_del_other.
Qed.

Definition sample_stat (key : string) : option stat_result :=
  if String.eqb key "/mods/a.dll" then Some {| st_mtime := 100; st_size := 7 |} else None.

Lemma HashCache_put_then_get_witness :
  HashCache_get sample_stat (HashCache_put 1 sample_stat [] "/mods/a.dll" "abc") "/mods/a.dll" =
    (Some "abc", HashCache_put 1 sample_stat [] "/mods/a.dll" "abc") /\
  HashCache_get sample_stat (HashCache_invalidate [] "/mods/a.dll") "/mods/a.dll" =
    (None, HashCache_invalidate [] "/mods/a.dll") /\
  (forall other, other <> "/mods/a.dll" ->
     Dict.get (HashCache_invalidate [] "/mods/a.dll") other = Dict.get [] other).
Proof.
  apply (HashCache_put_then_get 1 sample_stat [] "/mods/a.dll" "abc"
           {| st_mtime := 100; st_size := 7 |}); [reflexivity | lia].
Defined.

Lemma HashCache_put_stat_ok (max_size : nat) (stat : string -> option stat_result)
    (cache : list (string * cache_entry)) (key file_hash : string) (st : stat_result) :
  NoDup (Dict.keys cache) -> (List.length cache <= max_size)%nat -> stat key = Some st ->
  let entry := (file_hash, st_mtime st, st_size st) in
  let cache' := HashCache_put max_size stat cache key file_hash in
  NoDup (Dict.keys cache') /\ (List.length cache' <= max_size)%nat /\
  (Dict.contains cache key = true \/ (List.length cache < max_size)%nat ->
   cache' = Dict.del cache key ++ [(key, entry)]) /\
  (Dict.contains cache key = false -> List.length cache = max_size ->
   cache' = tl (cache ++ [(key, entry)])).
Proof.
  intros Hnd Hlen Hst entry cache'. subst cache'.
  rewrite (HashCache_put_shape _ _ _ _ _ _ Hst). cbv zeta. fold entry.
  assert (Hnd1 : NoDup (Dict.keys (Dict.del cache key ++ [(key, entry)])))
    by now apply keys_del_snoc_NoDup.
  assert (Hl1 : List.length (Dict.del cache key ++ [(key, entry)]) =
                S (List.length (Dict.del cache key)))
    by (rewrite length_app; simpl; lia).
  assert (Hcases : (Dict.get cache key <> None /\
                    S (List.length (Dict.del cache key)) = List.length cache) \/
                   (Dict.get cache key = None /\ Dict.del cache key = cache)).
  { destruct (Dict.get cache key) eqn:E.
    - left. split; [discriminate|]. apply del_length; [exact Hnd | congruence].
    - right. split; [reflexivity | now apply del_absent]. }
  split; [|split; [|split]].
  - destruct (Nat.ltb max_size _); [|exact Hnd1].
    unfold Dict.keys in *.
    replace (map fst (tl (Dict.del cache key ++ [(key, entry)])))
      with (tl (map fst (Dict.del cache key ++ [(key, entry)])))
      by (destruct (Dict.del cache key ++ [(key, entry)]); reflexivity).
    now apply tl_NoDup.
  - destruct (Nat.ltb max_size _) eqn:Hlt.
    + destruct (Dict.del cache key ++ [(key, entry)]) as [|x l] eqn:El; simpl in *; [lia|].
      destruct Hcases as [[_ Hc]|[_ Hc]]; [lia|]. rewrite Hc in Hl1. lia.
    + apply Nat.ltb_ge in Hlt. exact Hlt.
  - intros Hroom. destruct (Nat.ltb max_size _) eqn:Hlt; [|reflexivity].
    exfalso. apply Nat.ltb_lt in Hlt. rewrite Hl1 in Hlt.
    destruct Hcases as [[Hin Hc]|[Hout Hc]]; [lia|].
    destruct Hroom as [Hcon|Hroom].
    + unfold Dict.contains in Hcon. rewrite Hout in Hcon. discriminate.
    + rewrite Hc in Hlt. lia.
  - intros Hcon Hfull. unfold Dict.contains in Hcon.
    destruct Hcases as [[Hin _]|[_ Hc]].
    + destruct (Dict.get cache key); [discriminate | now elim Hin].
    + rewrite Hc in *. rewrite Hl1.
      destruct (Nat.ltb_spec max_size (S (List.length cache))); [reflexivity | lia].
Qed.

(** X12: The cache stays a dictionary of at most [max_size] entries, whatever
    [put] is given.  When the file cannot be examined ([stat] raises
    [OSError], which [put] swallows) the cache is left as it is.  Otherwise
    [put] evicts by age: when the key is already cached or there is room, the
    entry goes to the end and nothing else changes; when the cache is full
    and the key is new, the entry at the front (the least recently put or
    read) is the one dropped. *)
Theorem HashCache_put_evicts_oldest (max_size : nat) (stat : string -> option stat_result)
    (cache : list (string * cache_entry)) (key file_hash : string) :
  NoDup (Dict.keys cache) -> (List.length cache <= max_size)%nat ->
  let cache' := HashCache_put max_size stat cache key file_hash in
  NoDup (Dict.keys cache') /\ (List.length cache' <= max_size)%nat /\
  match stat key with
  | None => cache' = cache
  | Some st =>
      let entry := (file_hash, st_mtime st, st_size st) in
      (Dict.contains cache key = true \/ (List.length cache < max_size)%nat ->
       cache' = Dict.del cache key ++ [(key, entry)]) /\
      (Dict.contains cache key = false -> List.length cache = max_size ->
       cache' = tl (cache ++ [(key, entry)]))
  end.
Proof.
  intros Hnd Hlen cache'. subst cache'. destruct (stat key) as [st|] eqn:Hst.
  - destruct (HashCache_put_stat_ok max_size stat cache key file_hash st Hnd Hlen Hst)
      as [H1 [H2 [H3 H4]]].
    split; [exact H1|]. split; [exact H2|]. split; [exact H3 | exact H4].
  - assert (E : HashCache_put max_size stat cache key file_hash = cache)
      by (unfold HashCache_put; now rewrite Hst).
    rewrite E. auto.
Qed.

Definition full_cache : list (string * cache_entry) :=
  [("/mods/old.dll", ("111", 5, 5)%Z); ("/mods/new.dll", ("222", 6, 6)%Z)].

Lemma HashCache_put_evicts_oldest_witness :
  let entry := ("abc", 100, 7)%Z in
  let cache' := HashCache_put 2 sample_stat full_cache "/mods/a.dll" "abc" in
  NoDup (Dict.keys cache') /\ (List.length cache' <= 2)%nat /\
  (Dict.contains full_cache "/mods/a.dll" = true \/ (List.length full_cache < 2)%nat ->
   cache' = Dict.del full_cache "/mods/a.dll" ++ [("/mods/a.dll", entry)]) /\
  (Dict.contains full_cache "/mods/a.dll" = false -> List.length full_cache = 2%nat ->
   cache' = tl (full_cache ++ [("/mods/a.dll", entry)])).
Proof.
  assert (Hnd : NoDup (Dict.keys full_cache)) by (apply nodupb_NoDup; reflexivity).
  assert (Hlen : (List.length full_cache <= 2)%nat) by (simpl; lia).
  exact (HashCache_put_evicts_oldest 2 sample_stat full_cache "/mods/a.dll" "abc" Hnd Hlen).
Defined.

(** A file that cannot be examined is not cached, and nothing is evicted
    for it. *)
Example HashCache_put_unreadable :
  HashCache_put 2 sample_stat full_cache "/mods/gone.dll" "abc" = full_cache.
Proof. reflexivity. Qed.

(** The entries are right for the files as they are now: an entry whose
    modification time and size are those of its file holds what
    [calculate_file_hash] returns for it. *)
Definition coherent (stat : string -> option stat_result)
    (calculate : string -> result string) (cache : list (string * cache_entry)) : Prop :=
  forall k h m s st,
    In (k, (h, m, s)) cache -> stat k = Some st -> st_mtime st = m -> st_size st = s ->
    calculate k = Ok h.

Lemma HashCache_get_incl stat cache key : incl (snd (HashCache_get stat cache key)) cache.
Proof.
  unfold HashCache_get. destruct (Dict.get cache key) as [[[h m] s]|]; [|apply incl_refl].
  destruct (stat key) as [st|]; [|apply del_incl].
  destruct (_ && _); [apply move_to_end_incl | apply del_incl].
Qed.

Lemma HashCache_get_hit stat cache key h :
  fst (HashCache_get stat cache key) = Some h ->
  exists m s st, In (key, (h, m, s)) cache /\ stat key = Some st /\
                 st_mtime st = m /\ st_size st = s.
Proof.
  unfold HashCache_get. destruct (Dict.get cache key) as [[[h' m] s]|] eqn:E; [|discriminate].
  destruct (stat key) as [st|]; [|discriminate].
  destruct (_ && _) eqn:Hb; [|discriminate].
  simpl. intros [= ->]. apply andb_true_iff in Hb as [H1 H2].
  apply Z.eqb_eq in H1, H2. exists m, s, st.
  split; [now apply DictFacts.get_In | auto].
Qed.

Lemma HashCache_put_incl max_size stat cache key file_hash x :
  In x (HashCache_put max_size stat cache key file_hash) ->
  In x cache \/ exists st, stat key = Some st /\ x = (key, (file_hash, st_mtime st, st_size st)).
Proof.
  unfold HashCache_put. destruct (stat key) as [st|]; [|auto]. cbv zeta.
  intros Hx.
  assert (Hx' : In x (Dict.move_to_end
                        (Dict.set cache key (file_hash, st_mtime st, st_size st)) key)).
  { destruct (Nat.ltb max_size _); [now apply tl_incl in Hx | exact Hx]. }
  apply move_to_end_incl in Hx'. apply set_incl in Hx' as [->|Hx']; [|auto].
  right. exists st. auto.
Qed.

(** X13: The cache is transparent: as long as its entries are right for the
    files as they are, [calculate_or_get] returns (or raises) what
    [calculate_file_hash] does, and leaves a cache whose entries are right
    again. *)
Theorem HashCache_calculate_or_get_transparent (max_size : nat)
    (stat : string -> option stat_result) (calculate : string -> result string)
    (cache : list (string * cache_entry)) (key : string) :
  coherent stat calculate cache ->
  fst (HashCache_calculate_or_get max_size stat calculate cache key) = calculate key /\
  coherent stat calculate (snd (HashCache_calculate_or_get max_size stat calculate cache key)).
Proof.
  intros Hco. unfold HashCache_calculate_or_get.
  pose proof (HashCache_get_incl stat cache key) as Hincl.
  pose proof (HashCache_get_hit stat cache key) as Hhit.
  destruct (HashCache_get stat cache key) as [cached cache1]. cbn [fst snd] in *.
  assert (Hco1 : coherent stat calculate cache1).
  { intros k h m s st Hin. apply Hco. now apply Hincl. }
  assert (Hmiss : fst (match calculate key with
                       | Ok file_hash =>
                           (Ok file_hash, HashCache_put max_size stat cache1 key file_hash)
                       | Raise e => (Raise e, cache1)
                       end) = calculate key /\
                  coherent stat calculate
                    (snd (match calculate key with
                          | Ok file_hash =>
                              (Ok file_hash, HashCache_put max_size stat cache1 key file_hash)
                          | Raise e => (Raise e, cache1)
                          end))).
  { destruct (calculate key) as [file_hash|e] eqn:Ec; cbn [fst snd]; [|auto].
    split; [reflexivity|]. intros k h m s st Hin Hst Hm Hs.
    apply HashCache_put_incl in Hin as [Hin|[st' [Hst' E]]].
    - eapply Hco1; eauto.
    - inversion E; subst. exact Ec. }
  destruct cached as [h|]; [|exact Hmiss].
  destruct (String.eqb h EmptyString); [exact Hmiss|]. cbn [fst snd].
  split; [|exact Hco1].
  destruct (Hhit h eq_refl) as [m [s [st [Hin [Hst [Hm Hs]]]]]].
  symmetry. eapply Hco; eauto.
Qed.

Definition sample_calculate (key : string) : result string :=
  if String.eqb key "/mods/a.dll" then Ok "abc" else Raise OSError.

Lemma sample_coherent : coherent sample_stat sample_calculate [("/mods/a.dll", ("abc", 100, 7)%Z)].
Proof.
  intros k h m s st [E|[]] _ _ _. inversion E; subst. reflexivity.
Qed.

Lemma HashCache_calculate_or_get_transparent_witness :
  fst (HashCache_calculate_or_get 2 sample_stat sample_calculate
         [("/mods/a.dll", ("abc", 100, 7)%Z)] "/mods/a.dll") = sample_calculate "/mods/a.dll" /\
  coherent sample_stat sample_calculate
    (snd (HashCache_calculate_or_get 2 sample_stat sample_calculate
            [("/mods/a.dll", ("abc", 100, 7)%Z)] "/mods/a.dll")).
Proof.
  apply (HashCache_calculate_or_get_transparent 2 sample_stat sample_calculate
           [("/mods/a.dll", ("abc", 100, 7)%Z)] "/mods/a.dll").
  exact sample_coherent.
Defined.

(** * Further functions of the engine *)

(** ** The deployment state table *)

(** [file_path] is the primary key of the table. *)
Definition db_wf (rows : list state_row) : Prop := NoDup (map row_file_path rows).

(** The [WHERE] clause of [get_deployment_state]. *)
Definition selects (profile : string) (r : state_row) : bool :=
  match profile with
  | EmptyString => true
  | _ => String.eqb (row_profile_name r) profile
  end.

Definition row_entry (r : state_row) : path * string := (row_file_path r, row_file_hash r).

Lemma filter_keeps_distinct {A B : Type} (key : A -> B) (keep : A -> bool) (rows : list A)
    (Hdistinct : NoDup (map key rows)) :
  NoDup (map key (filter keep rows)).
Proof.
  induction rows as [|r rows IH]; cbn [filter map] in *; [constructor|].
  inversion Hdistinct as [|? ? Hr Hrows]; subst.
  destruct (keep r); cbn [map]; [|now apply IH]. constructor; [|now apply IH].
  intros Hin. apply Hr. apply in_map_iff in Hin as [x [E Hx]].
  apply filter_In in Hx as [Hx _]. rewrite <- E. now apply in_map.
Qed.

Lemma set_absent {K V : Type} `{EqDec K} (d : list (K * V)) (k : K) (v : V) :
  ~ In k (Dict.keys d) -> Dict.set d k v = d ++ [(k, v)].
Proof.
  induction d as [|[k0 v0] d IH]; simpl; [reflexivity|].
  intros Hn. destruct (eq_dec k k0) as [->|Hne]; [tauto|]. f_equal. apply IH. tauto.
Qed.

Lemma fold_set_fresh (l : list state_row) : forall acc : list (path * string),
  NoDup (map row_file_path l) ->
  (forall r, In r l -> ~ In (row_file_path r) (Dict.keys acc)) ->
  fold_left (fun d r => Dict.set d (row_file_path r) (row_file_hash r)) l acc =
  acc ++ map row_entry l.
Proof.
  induction l as [|r l IH]; intros acc Hnd Hfresh; simpl.
  - now rewrite app_nil_r.
  - inversion Hnd as [|? ? Hr Hl]; subst.
    rewrite set_absent by (apply Hfresh; now left).
    rewrite IH; [now rewrite <- app_assoc | exact Hl |].
    intros r' Hr' Hin. unfold Dict.keys in Hin. rewrite map_app, in_app_iff in Hin.
    destruct Hin as [Hin|[E|[]]].
    + apply (Hfresh r'); [now right | exact Hin].
    + simpl in E. apply Hr. rewrite E. now apply in_map.
Qed.

Lemma get_deployment_state_eq (rows : list state_row) (profile : string) :
  db_wf rows ->
  get_deployment_state rows profile = map row_entry (filter (selects profile) rows).
Proof.
  intros Hwf. unfold get_deployment_state.
  change (fun r => match profile with
                   | EmptyString => true
                   | String _ _ => String.eqb (row_profile_name r) profile
                   end) with (selects profile).
  rewrite fold_set_fresh; [reflexivity | now apply filter_keeps_distinct | intros r _ []].
Qed.

Lemma keys_row_entry (l : list state_row) : Dict.keys (map row_entry l) = map row_file_path l.
Proof. unfold Dict.keys. rewrite map_map. reflexivity. Qed.

Lemma get_deployment_state_get (rows : list state_row) (profile : string) (p : path) h :
  db_wf rows ->
  (Dict.get (get_deployment_state rows profile) p = Some h <->
   exists r, In r rows /\ selects profile r = true /\
             row_file_path r = p /\ row_file_hash r = h).
Proof.
  intros Hwf. rewrite get_deployment_state_eq by exact Hwf.
  assert (Hnd : NoDup (Dict.keys (map row_entry (filter (selects profile) rows)))).
  { rewrite keys_row_entry. now apply filter_keeps_distinct. }
  split.
  - intros Hg. apply DictFacts.get_In in Hg. apply in_map_iff in Hg as [r [E Hr]].
    apply filter_In in Hr as [Hr Hs]. inversion E; subst. exists r. auto.
  - intros [r [Hr [Hs [Hp Hh]]]]. apply DictFacts.In_get; [exact Hnd|].
    apply in_map_iff. exists r. split; [unfold row_entry; congruence|].
    apply filter_In. auto.
Qed.

Lemma option_ext {A : Type} (a b : option A) :
  (forall x, a = Some x <-> b = Some x) -> a = b.
Proof.
  intros Hx. destruct a as [x|].
  - symmetry. now apply Hx.
  - destruct b as [y|]; [|reflexivity]. now apply Hx.
Qed.

Lemma In_save_deployment_state rows file_path (file_hash owner profile : string) r :
  In r (save_deployment_state rows file_path file_hash owner profile) <->
  (In r rows /\ row_file_path r <> file_path) \/
  r = {| row_file_path := file_path; row_file_hash := file_hash;
         row_mod_id := owner; row_profile_name := profile |}.
Proof.
  unfold save_deployment_state. rewrite in_app_iff, filter_In. simpl. split.
  - intros [[Hr Hp]|[E|[]]]; [left | right; congruence].
    split; [exact Hr|]. intros E. revert Hp. case_eq_dec; [discriminate | contradiction].
  - intros [[Hr Hp]|E]; [left | right; left; congruence].
    split; [exact Hr|]. case_eq_dec; [contradiction | reflexivity].
Qed.

Lemma save_deployment_state_wf rows file_path (file_hash owner profile : string) :
  db_wf rows -> db_wf (save_deployment_state rows file_path file_hash owner profile).
Proof.
  unfold db_wf, save_deployment_state. intros Hwf. rewrite map_app. apply NoDup_app.
  - now apply filter_keeps_distinct.
  - simpl. repeat constructor. intros [].
  - intros a Ha [E|[]]. simpl in E. subst a. apply in_map_iff in Ha as [r [E Hr]].
    apply filter_In in Hr as [_ Hr]. revert Hr. case_eq_dec; [discriminate | contradiction].
Qed.

(** X14: A saved row is read back for its profile.  The path being the key of the
    table, saving it for one profile takes it away from every other profile;
    the rows of other paths are left as they are. *)
Theorem save_deployment_state_lookup (rows : list state_row) (file_path : path)
    (file_hash owner profile : string) :
  db_wf rows ->
  let rows' := save_deployment_state rows file_path file_hash owner profile in
  db_wf rows' /\
  Dict.get (get_deployment_state rows' profile) file_path = Some file_hash /\
  (forall other, other <> profile -> other <> EmptyString ->
     Dict.get (get_deployment_state rows' other) file_path = None) /\
  (forall q p, p <> file_path ->
     Dict.get (get_deployment_state rows' q) p = Dict.get (get_deployment_state rows q) p).
Proof.
  intros Hwf rows'.
  assert (Hwf' : db_wf rows') by now apply save_deployment_state_wf.
  split; [exact Hwf'|]. split; [|split].
  - apply get_deployment_state_get; [exact Hwf'|]. eexists. split; [|split; [|split]].
    + apply In_save_deployment_state. right. reflexivity.
    + unfold selects. simpl. destruct profile; [reflexivity | apply String.eqb_refl].
    + reflexivity.
    + reflexivity.
  - intros other Hne Hnonempty.
    destruct (Dict.get (get_deployment_state rows' other) file_path) as [h|] eqn:E;
      [|reflexivity].
    exfalso. apply get_deployment_state_get in E as [r [Hr [Hs [Hp _]]]]; [|exact Hwf'].
    apply In_save_deployment_state in Hr as [[_ Hr]| ->]; [contradiction|].
    unfold selects in Hs. simpl in Hs. destruct other; [congruence|].
    apply String.eqb_eq in Hs. congruence.
  - intros q p Hp. apply option_ext. intros h.
    rewrite !get_deployment_state_get by assumption. split.
    + intros [r [Hr [Hs [Hrp Hh]]]].
      apply In_save_deployment_state in Hr as [[Hr _]| ->]; [|simpl in Hrp; congruence].
      exists r. auto.
    + intros [r [Hr [Hs [Hrp Hh]]]]. exists r. split; [|auto].
      apply In_save_deployment_state. left. split; [exact Hr | congruence].
Qed.

Definition sample_rows : list state_row :=
  [ {| row_file_path := ["game"; "a.dll"]; row_file_hash := "h1";
       row_mod_id := "x-A"; row_profile_name := "main" |};
    {| row_file_path := ["game"; "b.dll"]; row_file_hash := "h2";
       row_mod_id := "x-B"; row_profile_name := "other" |} ].

Lemma sample_rows_wf : db_wf sample_rows.
Proof.
  unfold db_wf. simpl. constructor; [|constructor; [intros [] | constructor]].
  intros [E|[]]. discriminate.
Qed.

Lemma save_deployment_state_lookup_witness :
  let rows' := save_deployment_state sample_rows ["game"; "b.dll"] "h3" "x-A" "main" in
  db_wf rows' /\
  Dict.get (get_deployment_state rows' "main") ["game"; "b.dll"] = Some "h3" /\
  (forall other, other <> "main" -> other <> EmptyString ->
     Dict.get (get_deployment_state rows' other) ["game"; "b.dll"] = None) /\
  (forall q p, p <> ["game"; "b.dll"] ->
     Dict.get (get_deployment_state rows' q) p =
     Dict.get (get_deployment_state sample_rows q) p).
Proof.
  apply (save_deployment_state_lookup sample_rows ["game"; "b.dll"] "h3" "x-A" "main").
  exact sample_rows_wf.
Defined.

Lemma clear_deployment_state_only_profile_aux (rows : list state_row) (profile : string) :
  profile <> EmptyString ->
  get_deployment_state (clear_deployment_state rows profile) profile = [] /\
  (forall other, other <> profile -> other <> EmptyString ->
     get_deployment_state (clear_deployment_state rows profile) other =
     get_deployment_state rows other).
Proof.
  intros Hp. destruct profile as [|a profile]; [congruence|].
  unfold clear_deployment_state, get_deployment_state. split.
  - replace (filter _ (filter _ rows)) with (@nil state_row); [reflexivity|].
    symmetry. apply filter_nil. intros r Hr. apply filter_In in Hr as [_ Hr].
    now apply negb_true_iff in Hr.
  - intros other Hne Hnonempty. destruct other as [|b other]; [congruence|].
    f_equal. induction rows as [|r rows IH]; simpl; [reflexivity|].
    destruct (String.eqb_spec (row_profile_name r) (String a profile)) as [E|E]; simpl.
    + destruct (String.eqb_spec (row_profile_name r) (String b other)) as [E'|E'];
        [congruence | exact IH].
    + destruct (String.eqb (row_profile_name r) (String b other)); [f_equal|]; exact IH.
Qed.

(** X15: Clearing the state of a named profile empties what is read back for it
    and leaves what is read back for every other named profile as it was. *)
Theorem clear_deployment_state_only_profile (rows : list state_row) (profile : string) :
  profile <> EmptyString ->
  get_deployment_state (clear_deployment_state rows profile) profile = [] /\
  (forall other, other <> profile -> other <> EmptyString ->
     get_deployment_state (clear_deployment_state rows profile) other =
     get_deployment_state rows other) /\
  (db_wf rows -> db_wf (clear_deployment_state rows profile)).
Proof.
  intros Hp. destruct (clear_deployment_state_only_profile_aux rows profile Hp) as [H1 H2].
  split; [exact H1|]. split; [exact H2|].
  destruct profile as [|a profile]; [congruence|].
  unfold db_wf, clear_deployment_state. apply filter_keeps_distinct.
Qed.

Lemma clear_deployment_state_only_profile_witness :
  get_deployment_state (clear_deployment_state sample_rows "main") "main" = [] /\
  (forall other, other <> "main" -> other <> EmptyString ->
     get_deployment_state (clear_deployment_state sample_rows "main") other =
     get_deployment_state sample_rows other) /\
  (db_wf sample_rows -> db_wf (clear_deployment_state sample_rows "main")).
Proof.
  apply (clear_deployment_state_only_profile sample_rows "main"). discriminate.
Defined.

(** ** The three lists of calculate_changes *)

Lemma In_map_fst_filter {V : Type} (f : path * V -> bool) (d : list (path * V)) (p : path) :
  NoDup (Dict.keys d) ->
  (In p (map fst (filter f d)) <-> exists v, Dict.get d p = Some v /\ f (p, v) = true).
Proof.
  intros Hnd. rewrite in_map_iff. split.
  - intros [[k v] [E Hin]]. simpl in E. subst k. apply filter_In in Hin as [Hin Hf].
    exists v. split; [now apply DictFacts.In_get | exact Hf].
  - intros [v [Hg Hf]]. exists (p, v). split; [reflexivity|].
    apply filter_In. split; [now apply DictFacts.get_In | exact Hf].
Qed.

(** X16: The lists that [calculate_changes] builds from the stored state and the
    state asked for sort the paths by what has to happen to them: added are
    the paths asked for and not stored, updated those stored with another
    fingerprint, removed those stored and not asked for; no path is in a
    list twice. *)
Theorem diff_states_classifies (current_state new_state : list (path * string)) :
  NoDup (Dict.keys current_state) -> NoDup (Dict.keys new_state) ->
  let ch := diff_states current_state new_state in
  (forall p, In p (to_add ch) <->
     Dict.get current_state p = None /\ Dict.get new_state p <> None) /\
  (forall p, In p (to_update ch) <->
     exists h h', Dict.get current_state p = Some h /\ Dict.get new_state p = Some h' /\
                  h <> h') /\
  (forall p, In p (to_remove ch) <->
     Dict.get current_state p <> None /\ Dict.get new_state p = None) /\
  NoDup (to_add ch) /\ NoDup (to_update ch) /\ NoDup (to_remove ch).
Proof.
  intros Hc Hn ch. subst ch. unfold diff_states. cbn [to_add to_update to_remove].
  split; [|split; [|split; [|split; [|split]]]].
  - intros p. rewrite In_map_fst_filter by exact Hn. cbn [fst]. unfold Dict.contains. split.
    + intros [v [Hg Hf]]. rewrite Hg. destruct (Dict.get current_state p); [discriminate|].
      split; [reflexivity | discriminate].
    + intros [Hg Hne]. destruct (Dict.get new_state p) as [v|]; [|congruence].
      exists v. rewrite Hg. auto.
  - intros p. rewrite In_map_fst_filter by exact Hn. cbn [fst snd]. split.
    + intros [v [Hg Hf]]. destruct (Dict.get current_state p) as [h|]; [|discriminate].
      exists h, v. split; [reflexivity|]. split; [exact Hg|].
      apply negb_true_iff, String.eqb_neq in Hf. exact Hf.
    + intros [h [h' [Hg [Hg' Hne]]]]. exists h'. split; [exact Hg'|]. rewrite Hg.
      apply negb_true_iff, String.eqb_neq. exact Hne.
  - intros p. rewrite filter_In, <- DictFacts.get_In_keys. unfold Dict.contains.
    destruct (Dict.get new_state p); simpl; split; intros [H1 H2]; split; congruence.
  - apply filter_keeps_distinct. exact Hn.
  - apply filter_keeps_distinct. exact Hn.
  - apply NoDup_filter. exact Hc.
Qed.

Lemma diff_states_classifies_witness :
  let ch := diff_states [(["game"; "a.dll"], "h1")] [(["game"; "b.dll"], "h2")] in
  (forall p, In p (to_add ch) <->
     Dict.get [(["game"; "a.dll"], "h1")] p = None /\
     Dict.get [(["game"; "b.dll"], "h2")] p <> None) /\
  (forall p, In p (to_update ch) <->
     exists h h', Dict.get [(["game"; "a.dll"], "h1")] p = Some h /\
                  Dict.get [(["game"; "b.dll"], "h2")] p = Some h' /\ h <> h') /\
  (forall p, In p (to_remove ch) <->
     Dict.get [(["game"; "a.dll"], "h1")] p <> None /\
     Dict.get [(["game"; "b.dll"], "h2")] p = None) /\
  NoDup (to_add ch) /\ NoDup (to_update ch) /\ NoDup (to_remove ch).
Proof.
  apply (diff_states_classifies [(["game"; "a.dll"], "h1")] [(["game"; "b.dll"], "h2")]).
  - simpl. constructor; [intros [] | constructor].
  - simpl. constructor; [intros [] | constructor].
Defined.

(** ** Removing and copying files *)

Lemma prune_keeps_files (removable : path -> bool) (rp : list string) :
  forall (fs0 : filesystem) (q : path) c,
  Dict.get fs0 q = Some (File c) -> Dict.get (prune removable fs0 rp) q = Some (File c).
Proof.
  induction rp as [|x rp IH]; intros fs0 q c Hq.
  - now rewrite prune_nil.
  - rewrite prune_cons.
    destruct (Dict.get fs0 (rev rp ++ [x])) as [[|]|] eqn:Hd; try exact Hq.
    destruct (has_child fs0 (rev rp ++ [x])); [exact Hq|].
    destruct (removable (rev rp ++ [x])); [|exact Hq].
    apply IH. rewrite DictFacts.get_del_other; [exact Hq|].
    intros ->. congruence.
Qed.

(** An entry that the operating system does not let go stays. *)
Lemma prune_keeps_refused (removable : path -> bool) (rp : list string) :
  forall (fs0 : filesystem) (q : path),
  removable q = false -> Dict.get (prune removable fs0 rp) q = Dict.get fs0 q.
Proof.
  induction rp as [|x rp IH]; intros fs0 q Hq.
  - now rewrite prune_nil.
  - rewrite prune_cons.
    destruct (Dict.get fs0 (rev rp ++ [x])) as [[|]|]; try reflexivity.
    destruct (has_child fs0 (rev rp ++ [x])); [reflexivity|].
    destruct (removable (rev rp ++ [x])) eqn:Hr; [|reflexivity].
    rewrite IH by exact Hq. apply DictFacts.get_del_other. intros ->. congruence.
Qed.

Lemma remove_file_only_removes_get (removable : path -> bool) (fs0 : filesystem)
    (p q : path) :
  Dict.get (_remove_file removable fs0 p) q = Dict.get fs0 q \/
  Dict.get (_remove_file removable fs0 p) q = None.
Proof.
  destruct (remove_file_removes_on_path removable fs0 p q) as [E|[E _]]; auto.
Qed.

Lemma remove_file_keeps_files (removable : path -> bool) (fs0 : filesystem) (p q : path) c :
  q <> p -> Dict.get fs0 q = Some (File c) ->
  Dict.get (_remove_file removable fs0 p) q = Some (File c).
Proof.
  intros Hne Hq. unfold _remove_file. destruct (Dict.get fs0 p) as [[c'|]|]; auto.
  destruct (removable p); [|exact Hq].
  apply prune_keeps_files. now rewrite DictFacts.get_del_other.
Qed.

Lemma remove_file_keeps_refused (removable : path -> bool) (fs0 : filesystem) (p q : path) :
  removable q = false ->
  Dict.get (_remove_file removable fs0 p) q = Dict.get fs0 q.
Proof.
  intros Hq. unfold _remove_file. destruct (Dict.get fs0 p) as [[c'|]|]; auto.
  destruct (removable p) eqn:Hp; [|reflexivity].
  rewrite prune_keeps_refused by exact Hq.
  apply DictFacts.get_del_other. intros ->. congruence.
Qed.

Lemma remove_file_not_file (removable : path -> bool) (fs0 : filesystem) (p : path) :
  removable p = true -> is_file (_remove_file removable fs0 p) p = false.
Proof.
  intros Hr. destruct (is_file fs0 p) eqn:Hf.
  - unfold is_file at 1.
    destruct (remove_file_removes_on_path removable fs0 p p) as [E|[E _]].
    + rewrite remove_file_unfold in * by assumption.
      destruct (prune_removes_on_path removable (rev (parent p)) (Dict.del fs0 p) p)
        as [E'|[E' _]].
      * rewrite E', DictFacts.get_del_same. reflexivity.
      * rewrite E'. reflexivity.
    + rewrite E. reflexivity.
  - rewrite remove_file_refused by auto. exact Hf.
Qed.

(** X17: [_remove_file] only removes: every entry afterwards was there before,
    unchanged; of the files, only the one asked for can go; an entry that the
    operating system does not let go stays.  When the file can be removed the
    path is not a file afterwards; when it cannot (the exception is caught
    and logged) nothing changes.  Removing it once more changes nothing. *)
Theorem remove_file_only_removes (removable : path -> bool) (fs0 : filesystem)
    (file_path : path) :
  (forall q, Dict.get (_remove_file removable fs0 file_path) q = Dict.get fs0 q \/
             Dict.get (_remove_file removable fs0 file_path) q = None) /\
  (forall q c, q <> file_path -> Dict.get fs0 q = Some (File c) ->
               Dict.get (_remove_file removable fs0 file_path) q = Some (File c)) /\
  (forall q, removable q = false ->
             Dict.get (_remove_file removable fs0 file_path) q = Dict.get fs0 q) /\
  (if removable file_path
   then is_file (_remove_file removable fs0 file_path) file_path = false
   else _remove_file removable fs0 file_path = fs0) /\
  _remove_file removable (_remove_file removable fs0 file_path) file_path
  = _remove_file removable fs0 file_path.
Proof.
  split; [|split; [|split; [|split]]].
  - apply remove_file_only_removes_get.
  - intros q c. apply remove_file_keeps_files.
  - intros q. apply remove_file_keeps_refused.
  - destruct (removable file_path) eqn:Hr.
    + now apply remove_file_not_file.
    + apply remove_file_refused. now right.
  - apply remove_file_refused. destruct (removable file_path) eqn:Hr.
    + left. now apply remove_file_not_file.
    + now right.
Qed.

(** X18: Right after [shutil.copy2(src, dst)] onto a path that is not a directory,
    [_should_copy_file] answers that no copy is needed. *)
Theorem should_copy_file_after_copy (digest : string -> string) (fs0 fs1 : filesystem)
    (src dst : path) :
  copy2 fs0 src dst = Ok fs1 -> src <> dst -> is_dir fs0 dst = false ->
  _should_copy_file digest fs1 src dst = Ok false.
Proof.
  unfold copy2, is_dir. intros Hcp Hne Hdir.
  destruct (Dict.get fs0 src) as [[c|]|] eqn:Hs; try discriminate.
  assert (E : fs1 = Dict.set fs0 dst (File c)).
  { destruct (Dict.get fs0 dst) as [[c'|]|]; try discriminate.
    - now inversion Hcp.
    - destruct (match Dict.get fs0 (parent dst) with Some Dir => true | _ => false end);
        [now inversion Hcp | discriminate]. }
  subst fs1. unfold _should_copy_file, path_exists, Dict.contains, calculate_file_hash.
  rewrite DictFacts.get_set_same. cbn [negb].
  rewrite DictFacts.get_set_other by exact Hne. rewrite Hs.
  now rewrite String.eqb_refl.
Qed.

Lemma should_copy_file_after_copy_witness :
  _should_copy_file (fun c => c)
    (Dict.set sample_fs ["game"; "plugin.dll"] (File "v1"))
    ["mods"; "x-A"; "plugin.dll"] ["game"; "plugin.dll"] = Ok false.
Proof.
  apply (should_copy_file_after_copy (fun c => c) sample_fs).
  - reflexivity.
  - discriminate.
  - reflexivity.
Defined.

(** ** clear_deployment *)








(** ** rollback *)

Lemma filter_twice {A : Type} (first second : A -> bool) (l : list A) :
  filter second (filter first l) = filter (fun x => first x && second x) l.
Proof.
  induction l as [|x l IH]; cbn [filter]; [reflexivity|].
  destruct (first x); cbn [filter andb]; [|exact IH].
  destruct (second x); [f_equal|]; exact IH.
Qed.

Lemma filter_all {A : Type} (keep : A -> bool) (l : list A) :
  (forall x, keep x = true) -> filter keep l = l.
Proof.
  intros Hall. induction l as [|x l IH]; cbn [filter]; [reflexivity|].
  rewrite Hall. now f_equal.
Qed.

(** The row that [rollback] writes for an entry of the checkpoint. *)
Definition restored_row (profile : string) (kv : path * string) : state_row :=
  {| row_file_path := fst kv; row_file_hash := snd kv;
     row_mod_id := EmptyString; row_profile_name := profile |}.

Lemma restore_rows_selected (profile : string) (st : list (path * string)) :
  forall rows : list state_row,
  profile <> EmptyString -> NoDup (Dict.keys st) ->
  filter (selects profile)
    (fold_left (fun rows kv =>
                  save_deployment_state rows (fst kv) (snd kv) EmptyString profile) st rows) =
  filter (fun r => negb (mem (row_file_path r) (Dict.keys st)))
         (filter (selects profile) rows)
  ++ map (restored_row profile) st.
Proof.
  intros rows Hname. revert rows.
  induction st as [|[k h] st IH]; intros rows Hnd; cbn [fold_left map Dict.keys].
  - rewrite app_nil_r. symmetry. apply filter_all. reflexivity.
  - inversion Hnd as [|? ? Hk Hst]; subst. rewrite IH by exact Hst. cbn [fst snd].
    unfold save_deployment_state at 1. rewrite !filter_app. cbn [filter].
    assert (Hsel : selects profile
                     {| row_file_path := k; row_file_hash := h;
                        row_mod_id := EmptyString; row_profile_name := profile |} = true).
    { unfold selects. cbn. destruct profile; [reflexivity | apply String.eqb_refl]. }
    rewrite Hsel. cbn [filter row_file_path].
    assert (Hfresh : mem k (Dict.keys st) = false) by (apply mem_false_iff; exact Hk).
    rewrite Hfresh. cbn [negb]. rewrite <- app_assoc. cbn [app].
    change (restored_row profile (k, h))
      with {| row_file_path := k; row_file_hash := h;
              row_mod_id := EmptyString; row_profile_name := profile |}.
    change (map fst st) with (Dict.keys st).
    f_equal.
    rewrite !filter_twice. apply filter_ext. intros r.
    destruct (selects profile r); cbn [andb]; [|apply andb_false_r].
    destruct (mem (row_file_path r) (k :: Dict.keys st)) eqn:Hm.
    + apply mem_true_iff in Hm. case_eq_dec; [reflexivity|]. cbn [andb negb].
      destruct Hm as [E|Hm]; [congruence|].
      apply mem_true_iff in Hm. now rewrite Hm.
    + apply mem_false_iff in Hm. case_eq_dec.
      * exfalso. apply Hm. left. congruence.
      * cbn [andb]. assert (Hm' : mem (row_file_path r) (Dict.keys st) = false).
        { apply mem_false_iff. intros Hin. apply Hm. now right. }
        now rewrite Hm'.
Qed.

Lemma restored_rows_read_back (profile : string) (st : list (path * string)) :
  NoDup (Dict.keys st) ->
  fold_left (fun d r => Dict.set d (row_file_path r) (row_file_hash r))
            (map (restored_row profile) st) [] = st.
Proof.
  intros Hnd. rewrite fold_set_fresh.
  - cbn [app]. rewrite map_map. unfold row_entry, restored_row. cbn.
    rewrite <- (map_id st) at 2. apply map_ext. intros [k h]. reflexivity.
  - rewrite map_map. exact Hnd.
  - intros r _ [].
Qed.

(** X20: [rollback] uses the checkpoint given, else the current one, and without
    either raises [RollbackError] and changes nothing.  When it succeeds,
    the state read back for the profile of the checkpoint is exactly the
    state recorded in the checkpoint; when it fails, the error is a
    [RollbackError] and the table is as before.  The current checkpoint is
    never changed. *)
Theorem rollback_restores_state (removable : path -> bool) (e : engine)
    (checkpoint : option DeploymentCheckpoint) :
  match (match checkpoint with Some c => Some c | None => current_checkpoint e end) with
  | None => exists cause, rollback removable e checkpoint = (Raise (RollbackError cause), e)
  | Some c =>
      cp_profile_name c <> EmptyString -> NoDup (Dict.keys (cp_deployment_state c)) ->
      current_checkpoint (snd (rollback removable e checkpoint)) = current_checkpoint e /\
      match fst (rollback removable e checkpoint) with
      | Ok answer =>
          answer = true /\
          get_deployment_state (db (snd (rollback removable e checkpoint))) (cp_profile_name c)
          = cp_deployment_state c
      | Raise err =>
          (exists cause, err = RollbackError cause) /\ db (snd (rollback removable e checkpoint)) = db e
      end
  end.
Proof.
  unfold rollback.
  destruct (match checkpoint with Some c => Some c | None => current_checkpoint e end)
    as [c|]; [|eexists; reflexivity].
  intros Hname Hnd.
  destruct (restore_files _ _ _ _) as [[[]|err] fs2]; cbn [fst snd].
  - split; [reflexivity|]. split; [reflexivity|].
    cbn [db with_db with_fs]. unfold get_deployment_state at 1.
    change (fun r => match cp_profile_name c with
                     | EmptyString => true
                     | String _ _ => String.eqb (row_profile_name r) (cp_profile_name c)
                     end) with (selects (cp_profile_name c)).
    rewrite restore_rows_selected by assumption.
    replace (filter (selects (cp_profile_name c))
               (clear_deployment_state (db e) (cp_profile_name c))) with (@nil state_row).
    + cbn [filter app]. now apply restored_rows_read_back.
    + symmetry. apply filter_nil. intros r Hr. unfold clear_deployment_state in Hr.
      unfold selects. destruct (cp_profile_name c) as [|a name]; [congruence|].
      apply filter_In in Hr as [_ Hr]. now apply negb_true_iff in Hr.
  - split; [reflexivity|]. split; [eexists; reflexivity | reflexivity].
Qed.

Definition sample_checkpoint : DeploymentCheckpoint :=
  {| cp_profile_name := "main"; cp_game_path := ["game"]; cp_timestamp := "t0";
     cp_backup_path := ["backups"; "checkpoint_t0"];
     cp_deployment_state := [(["game"; "a.dll"], "h1")];
     cp_files_modified := [["game"; "a.dll"]] |}.

Lemma rollback_restores_state_witness :
  current_checkpoint (snd (rollback (fun _ => true) sample_engine (Some sample_checkpoint)))
  = current_checkpoint sample_engine /\
  match fst (rollback (fun _ => true) sample_engine (Some sample_checkpoint)) with
  | Ok answer =>
      answer = true /\
      get_deployment_state (db (snd (rollback (fun _ => true) sample_engine (Some sample_checkpoint)))) "main"
      = [(["game"; "a.dll"], "h1")]
  | Raise err =>
      (exists cause, err = RollbackError cause) /\
      db (snd (rollback (fun _ => true) sample_engine (Some sample_checkpoint))) = db sample_engine
  end.
Proof.
  apply (rollback_restores_state (fun _ => true) sample_engine (Some sample_checkpoint)).
  - discriminate.
  - simpl. constructor; [intros [] | constructor].
Defined.

(** ** create_checkpoint *)

Lemma mkdir_prefixes_keeps (rest : path) : forall (fs0 fs1 : filesystem) (done q : path) n,
  mkdir_prefixes fs0 done rest = Ok fs1 -> Dict.get fs0 q = Some n -> Dict.get fs1 q = Some n.
Proof.
  induction rest as [|c rest IH]; intros fs0 fs1 done q n; cbn [mkdir_prefixes].
  - intros [= <-]. auto.
  - destruct (Dict.get fs0 (done ++ [c])) as [[content|]|] eqn:Hp; [discriminate| |].
    + apply IH.
    + intros Hmk Hq. eapply IH; [exact Hmk|].
      rewrite DictFacts.get_set_other; [exact Hq|]. intros ->. congruence.
Qed.

Lemma copy2_keeps (fs0 fs1 : filesystem) (src dst q : path) n :
  copy2 fs0 src dst = Ok fs1 -> Dict.get fs0 q = Some n ->
  q <> dst -> q <> dst ++ [last src EmptyString] -> Dict.get fs1 q = Some n.
Proof.
  unfold copy2. intros Hcp Hq H1 H2.
  destruct (Dict.get fs0 src) as [[c|]|]; try discriminate.
  destruct (Dict.get fs0 dst) as [[c'|]|].
  - inversion Hcp; subst. now rewrite DictFacts.get_set_other.
  - inversion Hcp; subst. now rewrite DictFacts.get_set_other.
  - destruct (is_dir fs0 (parent dst)); [|discriminate].
    inversion Hcp; subst. now rewrite DictFacts.get_set_other.
Qed.

Lemma not_prefix_app (backup rel q : path) : ~ is_prefix backup q -> q <> backup ++ rel.
Proof. intros Hn ->. apply Hn. now exists rel. Qed.

Lemma backup_files_keeps (gp backup : path) (files : list path) :
  forall (fs0 : filesystem) (saved : list path) (q : path) n,
  Dict.get fs0 q = Some n -> ~ is_prefix backup q ->
  Dict.get (snd (backup_files fs0 gp backup files saved)) q = Some n.
Proof.
  induction files as [|src files IH]; intros fs0 saved q n Hq Hn; cbn [backup_files snd].
  - exact Hq.
  - destruct (path_exists fs0 src); [|now apply IH].
    destruct (is_under gp src || _); [|exact Hq].
    destruct (mkdir_parents fs0 _) as [fs1|err] eqn:Hmk; [|exact Hq].
    assert (Hq1 : Dict.get fs1 q = Some n).
    { unfold mkdir_parents in Hmk. eapply mkdir_prefixes_keeps; eauto. }
    destruct (copy2 fs1 src _) as [fs2|err] eqn:Hcp; [|exact Hq1].
    apply IH; [|exact Hn].
    eapply copy2_keeps; [exact Hcp | exact Hq1 | |].
    + now apply not_prefix_app.
    + rewrite <- app_assoc. now apply not_prefix_app.
Qed.

Lemma backup_files_saved (gp backup : path) (files : list path) :
  forall (fs0 : filesystem) (saved result : list path),
  fst (backup_files fs0 gp backup files saved) = Ok result ->
  incl saved (saved ++ files) -> incl result (saved ++ files).
Proof.
  induction files as [|src files IH]; intros fs0 saved result; cbn [backup_files fst].
  - intros [= <-]. auto.
  - intros Hr _.
    assert (Hstep : forall fs1, fst (backup_files fs1 gp backup files (saved ++ [src]))
                                = Ok result -> incl result (saved ++ src :: files)).
    { intros fs1 H1. apply IH in H1.
      - now rewrite <- app_assoc in H1.
      - apply incl_appl, incl_refl. }
    assert (Hskip : forall fs1, fst (backup_files fs1 gp backup files saved) = Ok result ->
                                incl result (saved ++ src :: files)).
    { intros fs1 H1. apply IH in H1; [|apply incl_appl, incl_refl].
      intros x Hx. apply H1 in Hx. apply in_app_iff in Hx as [Hx|Hx];
        apply in_app_iff; [left | right; right]; exact Hx. }
    destruct (path_exists fs0 src); [|now apply (Hskip fs0)].
    destruct (is_under gp src || _); [|discriminate].
    destruct (mkdir_parents fs0 _) as [fs1|err]; [|discriminate].
    destruct (copy2 fs1 src _) as [fs2|err]; [|discriminate].
    now apply (Hstep fs2).
Qed.

(** X21: [create_checkpoint] writes only inside its own checkpoint directory:
    whatever it returns or raises, every entry of the file system that is
    not inside that directory is still there unchanged, and the table and
    the current checkpoint are as before.  Without a game path it raises
    [DeploymentError] and changes nothing.  A checkpoint it returns records
    the state stored for the profile, the game path, the directory, and as
    saved files only tracked paths. *)
Theorem create_checkpoint_frame (now : string) (BACKUPS_DIR : path)
    (dump_checkpoint : DeploymentCheckpoint -> string) (e : engine) (profile : Profile) :
  let backup := BACKUPS_DIR ++ [String.append "checkpoint_" now] in
  let outcome := create_checkpoint now BACKUPS_DIR dump_checkpoint e profile in
  db (snd outcome) = db e /\
  current_checkpoint (snd outcome) = current_checkpoint e /\
  (forall q n, Dict.get (fs e) q = Some n -> ~ is_prefix backup q ->
               Dict.get (fs (snd outcome)) q = Some n) /\
  (game_path profile = None ->
   outcome = (Raise (DeploymentError "Profile has no game path set"), e)) /\
  (forall c, fst outcome = Ok c ->
     cp_profile_name c = profile_name profile /\
     game_path profile = Some (cp_game_path c) /\
     cp_backup_path c = backup /\
     cp_deployment_state c = get_deployment_state (db e) (profile_name profile) /\
     incl (cp_files_modified c) (Dict.keys (cp_deployment_state c)) /\
     is_file (fs (snd outcome)) (backup ++ ["checkpoint.json"]) = true).
Proof.
  intros backup outcome. subst outcome. unfold create_checkpoint.
  destruct (game_path profile) as [gp|]; cbn [fst snd].
  2:{ split; [reflexivity|]. split; [reflexivity|]. split; [auto|].
      split; [reflexivity | discriminate]. }
  fold backup.
  pose proof (backup_files_keeps gp backup
                (Dict.keys (get_deployment_state (db e) (profile_name profile)))
                (fs e) []) as Hkeep.
  pose proof (backup_files_saved gp backup
                (Dict.keys (get_deployment_state (db e) (profile_name profile)))
                (fs e) []) as Hsaved.
  destruct (backup_files _ _ _ _ _) as [[saved|err] fs1]; cbn [fst snd] in *.
  - destruct (mkdir_parents fs1 backup) as [fs2|err] eqn:Hmk; cbn [fst snd db fs with_fs
      current_checkpoint].
    + split; [reflexivity|]. split; [reflexivity|]. split; [|split; [discriminate|]].
      * intros q n Hq Hn. rewrite DictFacts.get_set_other by now apply not_prefix_app.
        unfold mkdir_parents in Hmk. eapply mkdir_prefixes_keeps; eauto.
      * intros c [= <-]. cbn.
        split; [reflexivity|]. split; [reflexivity|]. split; [reflexivity|].
        split; [reflexivity|]. split.
        -- apply (Hsaved saved eq_refl). intros x [].
        -- unfold is_file. now rewrite DictFacts.get_set_same.
    + split; [reflexivity|]. split; [reflexivity|]. split; [auto|].
      split; discriminate.
  - cbn [db fs with_fs current_checkpoint]. split; [reflexivity|]. split; [reflexivity|].
    split; [auto|]. split; discriminate.
Qed.

(** * The decorators of core/exceptions.py *)

(** ** with_rollback, for any decorated method *)

Lemma with_rollback_without_checkpoint {Arg Cp A : Type} (self : rollback_methods Arg Cp)
    (func : engine -> result A * engine * Profile) (unchanged : Profile) (e : engine) :
  attr_create_checkpoint _ _ self = None -> with_rollback self func unchanged e = func e.
Proof.
  intros Hnone. unfold with_rollback. rewrite Hnone.
  destruct (func e) as [[[a|err] e2] p2]; reflexivity.
Qed.

(** X22: Whatever object and method it decorates, [with_rollback] leaves a
    normal return of the method as it is, does not call the method when
    taking the checkpoint raises, and is the method itself on an object that
    has no [create_checkpoint].  When the method raises, the wrapper raises
    too, and what it raises is decided by the rollback: with a checkpoint
    that is true and a [rollback] attribute, [rollback] is called once on
    the checkpoint, in the state the method left; the exception of the
    method comes out as it is when the rollback returns, and a
    [RollbackError] carrying the exception of the rollback when it
    raises; the state is the one the rollback left.  With no [rollback]
    attribute, or a checkpoint that is false, nothing is rolled back and the
    exception of the method comes out, in the state the method left. *)
Theorem with_rollback_outcomes {Arg Cp A : Type} (self : rollback_methods Arg Cp)
    (func : engine -> result A * engine * Profile) (unchanged : Profile) (e : engine) :
  (attr_create_checkpoint _ _ self = None -> with_rollback self func unchanged e = func e) /\
  (forall create err e1,
     attr_create_checkpoint _ _ self = Some create -> create [] e = (Raise err, e1) ->
     with_rollback self func unchanged e = (Raise err, e1, unchanged)) /\
  (forall create c e1,
     attr_create_checkpoint _ _ self = Some create -> create [] e = (Ok c, e1) ->
     match func e1 with
     | (Ok a, e2, p2) => with_rollback self func unchanged e = (Ok a, e2, p2)
     | (Raise err, e2, p2) =>
         (exists err' e3,
            with_rollback self func unchanged e = (Raise err', e3, p2) /\
            (err' = err \/ exists rollback_error, err' = RollbackError rollback_error)) /\
         (forall rb, attr_rollback _ _ self = Some rb -> truth_value _ _ self c = true ->
            with_rollback self func unchanged e =
            (match fst (rb c e2) with
             | Ok _ => Raise err
             | Raise rollback_error => Raise (RollbackError rollback_error)
             end, snd (rb c e2), p2)) /\
         (attr_rollback _ _ self = None \/ truth_value _ _ self c = false ->
            with_rollback self func unchanged e = (Raise err, e2, p2))
     end).
Proof.
  split; [apply with_rollback_without_checkpoint|]. split.
  - intros create err e1 Hc Hr. unfold with_rollback. now rewrite Hc, Hr.
  - intros create c e1 Hc Hr. unfold with_rollback. rewrite Hc, Hr.
    destruct (func e1) as [[[a|err] e2] p2]; [reflexivity|].
    destruct (attr_rollback _ _ self) as [rb|].
    + destruct (truth_value _ _ self c).
      * split; [|split].
        -- destruct (rb c e2) as [[b|rollback_error] e3].
           ++ exists err, e3. split; [reflexivity | now left].
           ++ exists (RollbackError rollback_error), e3. split; [reflexivity|].
              right. eexists. reflexivity.
        -- intros rb' [= <-] _. destruct (rb c e2) as [[b|rollback_error] e3]; reflexivity.
        -- intros [H|H]; discriminate H.
      * split; [|split].
        -- exists err, e2. split; [reflexivity | now left].
        -- intros rb' _ H. discriminate H.
        -- reflexivity.
    + split; [|split].
      * exists err, e2. split; [reflexivity | now left].
      * intros rb' H. discriminate H.
      * reflexivity.
Qed.

(** An object whose [rollback] raises: the exception of the method is
    replaced by the [RollbackError]; and one whose checkpoint is false: the
    rollback is not called. *)
Example with_rollback_rollback_raises :
  with_rollback
    {| attr_create_checkpoint := Some (fun (_ : list unit) e => (Ok tt, e));
       attr_rollback := Some (fun _ e => (Raise OSError, e));
       truth_value := fun _ => true |}
    (fun e => (@Raise bool (DeploymentError "failed"), e, sample_profile))
    sample_profile sample_engine
  = (Raise (RollbackError OSError), sample_engine, sample_profile) /\
  with_rollback
    {| attr_create_checkpoint := Some (fun (_ : list unit) e => (Ok tt, e));
       attr_rollback := Some (fun _ e => (Raise OSError, e));
       truth_value := fun _ => false |}
    (fun e => (@Raise bool (DeploymentError "failed"), e, sample_profile))
    sample_profile sample_engine
  = (Raise (DeploymentError "failed"), sample_engine, sample_profile).
Proof. split; reflexivity. Qed.

(** ** retry_on_network_error *)

(** What one call of the decorated function does: return, raise an
    exception that is a [NetworkError], or raise another exception. *)
Inductive attempt_outcome (A E : Type) : Type :=
| Returns (a : A)
| RaisesNetworkError (e : E)
| RaisesOther (e : E).

Arguments Returns {A E} a.
Arguments RaisesNetworkError {A E} e.
Arguments RaisesOther {A E} e.

(** What the wrapper does: return, raise an exception of the function, or
    raise the [TypeError] of [raise None]. *)
Inductive retry_outcome (A E : Type) : Type :=
| RetryReturns (a : A)
| RetryRaises (e : E)
| RetryRaisesTypeError.

Arguments RetryReturns {A E} a.
Arguments RetryRaises {A E} e.
Arguments RetryRaisesTypeError {A E}.

(** The loop [for attempt in range(max_retries)] followed by
    [raise last_error]; [func n] is what the call number [n] of the function
    does, [remaining] the attempts left.  The number of calls made is
    returned next to the outcome. *)
Fixpoint retry_loop {A E : Type} (func : nat -> attempt_outcome A E) (remaining attempt : nat)
    (last_error : option E) : retry_outcome A E * nat :=
  match remaining with
  | O => (match last_error with
          | Some e => RetryRaises e
          | None => RetryRaisesTypeError
          end, attempt)
  | S remaining' =>
      match func attempt with
      | Returns a => (RetryReturns a, S attempt)
      | RaisesOther e => (RetryRaises e, S attempt)
      | RaisesNetworkError e => retry_loop func remaining' (S attempt) (Some e)
      end
  end.

(** The wrapper that [retry_on_network_error(max_retries)] puts around a
    function. *)
Definition retry_on_network_error {A E : Type} (max_retries : Z)
    (func : nat -> attempt_outcome A E) : retry_outcome A E * nat :=
  retry_loop func (Z.to_nat max_retries) O None.

Definition is_network_error {A E : Type} (o : attempt_outcome A E) : Prop :=
  exists e, o = RaisesNetworkError e.

Lemma retry_loop_spec {A E : Type} (func : nat -> attempt_outcome A E) (remaining : nat) :
  forall (attempt : nat) (last_error : option E),
  let r := retry_loop func remaining attempt last_error in
  (attempt <= snd r <= attempt + remaining)%nat /\
  (forall i, (attempt <= i)%nat -> (S i < snd r)%nat -> is_network_error (func i)) /\
  match fst r with
  | RetryReturns a => (attempt < snd r)%nat /\ func (pred (snd r)) = Returns a
  | RetryRaises e =>
      ((attempt < snd r)%nat /\
       (func (pred (snd r)) = RaisesOther e \/
        (func (pred (snd r)) = RaisesNetworkError e /\ snd r = (attempt + remaining)%nat))) \/
      (snd r = attempt /\ remaining = O /\ last_error = Some e)
  | RetryRaisesTypeError => snd r = attempt /\ remaining = O /\ last_error = None
  end.
Proof.
  induction remaining as [|k IH]; intros attempt last_error; cbn [retry_loop].
  - cbv zeta. destruct last_error as [e|]; cbn [fst snd].
    + split; [lia|]. split; [intros i H1 H2; lia|]. right. auto.
    + split; [lia|]. split; [intros i H1 H2; lia|]. auto.
  - cbv zeta. destruct (func attempt) as [a|e|e] eqn:Hf; cbn [fst snd].
    + split; [lia|]. split; [intros i H1 H2; lia|]. cbn [pred]. split; [lia | exact Hf].
    + specialize (IH (S attempt) (Some e)). cbv zeta in IH.
      destruct (retry_loop func k (S attempt) (Some e)) as [r calls]. cbn [fst snd] in *.
      destruct IH as [Hb [Hnet Hres]]. split; [lia|]. split.
      * intros i H1 H2. destruct (Nat.eq_dec i attempt) as [->|Hne].
        -- exists e. exact Hf.
        -- apply Hnet; lia.
      * destruct r as [a|e'|].
        -- destruct Hres as [H1 H2]. split; [lia | exact H2].
        -- left. destruct Hres as [[H1 [H2|[H2 H3]]]|[H1 [H2 H3]]].
           ++ split; [lia|]. now left.
           ++ split; [lia|]. right. split; [exact H2 | lia].
           ++ inversion H3; subst. split; [lia|]. right. cbn [pred].
              split; [exact Hf | lia].
        -- destruct Hres as [_ [_ H]]. discriminate.
    + split; [lia|]. split; [intros i H1 H2; lia|]. cbn [pred]. left. split; [lia|].
      now left.
Qed.

(** X23: The wrapper calls the function at most [max_retries] times, and again
    only after a [NetworkError].  It returns what the first call that
    returns gives, raises what the first call that raises something else
    raises, and after [max_retries] network errors raises the last of them.
    With [max_retries] at most 0 it raises [TypeError] without calling the
    function at all. *)
Theorem retry_on_network_error_spec {A E : Type} (max_retries : Z)
    (func : nat -> attempt_outcome A E) :
  let r := retry_on_network_error max_retries func in
  (Z.of_nat (snd r) <= Z.max 0 max_retries)%Z /\
  (forall i, (S i < snd r)%nat -> is_network_error (func i)) /\
  match fst r with
  | RetryReturns a => (0 < snd r)%nat /\ func (pred (snd r)) = Returns a
  | RetryRaises e =>
      (0 < snd r)%nat /\
      (func (pred (snd r)) = RaisesOther e \/
       (func (pred (snd r)) = RaisesNetworkError e /\ Z.of_nat (snd r) = max_retries))
  | RetryRaisesTypeError => snd r = O /\ (max_retries <= 0)%Z
  end.
Proof.
  unfold retry_on_network_error. cbv zeta.
  pose proof (retry_loop_spec func (Z.to_nat max_retries) O None) as H. cbv zeta in H.
  destruct (retry_loop func (Z.to_nat max_retries) O None) as [r calls]. cbn [fst snd] in *.
  destruct H as [Hb [Hnet Hres]]. split; [lia|]. split.
  - intros i Hi. apply Hnet; lia.
  - destruct r as [a|e|].
    + exact Hres.
    + destruct Hres as [[H1 [H2|[H2 H3]]]|[_ [_ H]]]; [| |discriminate].
      * split; [exact H1 | now left].
      * split; [exact H1|]. right. split; [exact H2 | lia].
    + destruct Hres as [H1 [H2 _]]. split; [exact H1 | lia].
Qed.

(** * core/models.py: the mod list of a profile *)

Definition with_mods (p : Profile) (ms : list Mod) : Profile :=
  {| profile_name := profile_name p; mods := ms; game_path := game_path p;
     active := active p |}.

Definition has_id (mid : string) (m : Mod) : bool := String.eqb (id m) mid.

(** [Profile.has_mod]. *)
Definition Profile_has_mod (p : Profile) (mid : string) : bool :=
  existsb (has_id mid) (mods p).

(** [Profile.get_mod]. *)
Definition Profile_get_mod (p : Profile) (mid : string) : option Mod :=
  find (has_id mid) (mods p).

(** [Profile.add_mod]. *)
Definition Profile_add_mod (p : Profile) (m : Mod) : Profile :=
  if existsb (has_id (id m)) (mods p) then p else with_mods p (mods p ++ [m]).

(** [Profile.remove_mod]. *)
Definition Profile_remove_mod (p : Profile) (mid : string) : Profile :=
  with_mods p (filter (fun m => negb (has_id mid m)) (mods p)).

Definition set_load_order (m : Mod) (i : Z) : Mod :=
  {| id := id m; name := name m; version := version m; dependencies := dependencies m;
     config_files := config_files m; install_path := install_path m;
     enabled := enabled m; load_order := i |}.

(** [for i, m in enumerate(self.mods): m.load_order = i], from [i] on. *)
Fixpoint renumber (i : Z) (ms : list Mod) : list Mod :=
  match ms with
  | [] => []
  | m :: ms' => set_load_order m i :: renumber (i + 1) ms'
  end.

(** [Profile.sort_by_dependencies], with a resolver of its own; an exception
    of the resolver leaves the profile as it is. *)
Definition Profile_sort_by_dependencies (set_iter : list string -> list string)
    (p : Profile) : option (result Profile) :=
  match snd (resolve_load_order set_iter [] (mods p)) with
  | None => None
  | Some (Raise e) => Some (Raise e)
  | Some (Ok sorted_ids) =>
      let sorted_mods :=
        flat_map (fun mid => match Profile_get_mod p mid with
                             | Some m => [m]
                             | None => []
                             end) sorted_ids in
      Some (Ok (with_mods p (renumber 0 sorted_mods)))
  end.

(** [list.insert(i, x)]: a negative index counts from the end, and an index
    out of range is brought to the nearest end. *)
Definition list_insert {A : Type} (l : list A) (i : Z) (x : A) : list A :=
  let n := Z.of_nat (List.length l) in
  let j := if (i <? 0)%Z then Z.max 0 (i + n) else Z.min i n in
  firstn (Z.to_nat j) l ++ x :: skipn (Z.to_nat j) l.

(** [list.remove(mod)] for the mod that [get_mod] found: the mods before it
    have other ids, so it is the first one that equals it. *)
Fixpoint remove_first (mid : string) (ms : list Mod) : list Mod :=
  match ms with
  | [] => []
  | m :: ms' => if has_id mid m then ms' else m :: remove_first mid ms'
  end.

(** [Profile.reorder_mods]. *)
Definition Profile_reorder_mods (p : Profile) (mid : string) (new_position : Z) : Profile :=
  match Profile_get_mod p mid with
  | Some m => with_mods p (renumber 0 (list_insert (remove_first mid (mods p)) new_position m))
  | None => p
  end.

Lemma existsb_has_id (mid : string) (ms : list Mod) :
  existsb (has_id mid) ms = true <-> In mid (map id ms).
Proof.
  rewrite existsb_exists, in_map_iff. unfold has_id.
  split; intros [m [H1 H2]]; exists m.
  - apply String.eqb_eq in H2. auto.
  - split; [exact H2 | now apply String.eqb_eq].
Qed.

Lemma find_has_id (mid : string) (ms : list Mod) :
  match find (has_id mid) ms with
  | Some m => In m ms /\ id m = mid
  | None => ~ In mid (map id ms)
  end.
Proof.
  destruct (find (has_id mid) ms) as [m|] eqn:E.
  - apply find_some in E as [H1 H2]. split; [exact H1 | now apply String.eqb_eq].
  - intros Hin. apply in_map_iff in Hin as [m [H1 H2]].
    pose proof (find_none _ _ E m H2) as Hf. unfold has_id in Hf.
    rewrite H1, String.eqb_refl in Hf. discriminate.
Qed.

Lemma find_snoc {A : Type} (f : A -> bool) (l : list A) (x : A) :
  find f (l ++ [x]) =
  match find f l with Some y => Some y | None => if f x then Some x else None end.
Proof.
  induction l as [|y l IH]; cbn [app find]; [reflexivity|].
  destruct (f y); [reflexivity | exact IH].
Qed.

Lemma find_filter_other (mid other : string) (ms : list Mod) :
  other <> mid ->
  find (has_id other) (filter (fun m => negb (has_id mid m)) ms) = find (has_id other) ms.
Proof.
  intros Hne. induction ms as [|m ms IH]; cbn [filter find]; [reflexivity|].
  destruct (has_id mid m) eqn:E; cbn [negb find].
  - assert (Hother : has_id other m = false).
    { unfold has_id in *. apply String.eqb_eq in E. apply String.eqb_neq. congruence. }
    rewrite Hother. exact IH.
  - destruct (has_id other m); [reflexivity | exact IH].
Qed.

(** X24: The mods of a profile keep distinct ids under [add_mod] and
    [remove_mod].  [add_mod] makes the id present but never replaces a mod
    that is there under the same id; [remove_mod] makes the id absent and
    leaves the mods of other ids to be found as before. *)
Theorem Profile_add_remove_mod (p : Profile) (m : Mod) (mid : string) :
  NoDup (map id (mods p)) ->
  NoDup (map id (mods (Profile_add_mod p m))) /\
  Profile_has_mod (Profile_add_mod p m) (id m) = true /\
  Profile_get_mod (Profile_add_mod p m) (id m) =
    match Profile_get_mod p (id m) with Some old => Some old | None => Some m end /\
  (forall other, other <> id m ->
     Profile_get_mod (Profile_add_mod p m) other = Profile_get_mod p other) /\
  NoDup (map id (mods (Profile_remove_mod p mid))) /\
  Profile_has_mod (Profile_remove_mod p mid) mid = false /\
  (forall other, other <> mid ->
     Profile_get_mod (Profile_remove_mod p mid) other = Profile_get_mod p other).
Proof.
  intros Hnd. unfold Profile_add_mod, Profile_has_mod, Profile_get_mod, Profile_remove_mod.
  destruct (existsb (has_id (id m)) (mods p)) eqn:Hex.
  - split; [exact Hnd|]. split; [exact Hex|]. split; [|split; [reflexivity|]].
    + pose proof (find_has_id (id m) (mods p)) as Hf.
      destruct (find (has_id (id m)) (mods p)); [reflexivity|].
      apply existsb_has_id in Hex. contradiction.
    + cbn [mods with_mods]. split; [now apply filter_keeps_distinct|]. split.
      * destruct (existsb _ (filter _ _)) eqn:E; [|reflexivity].
        apply existsb_exists in E as [x [Hx Hid]]. apply filter_In in Hx as [_ Hx].
        rewrite Hid in Hx. discriminate.
      * intros other Hne. now apply find_filter_other.
  - assert (Hfresh : ~ In (id m) (map id (mods p))).
    { intros Hin. apply existsb_has_id in Hin. congruence. }
    cbn [mods with_mods]. split; [|split; [|split; [|split]]].
    + rewrite map_app. apply NoDup_app; [exact Hnd | repeat constructor; intros [] |].
      intros a Ha [E|[]]. subst a. contradiction.
    + rewrite existsb_app. cbn. unfold has_id. now rewrite String.eqb_refl, orb_true_r.
    + rewrite find_snoc. pose proof (find_has_id (id m) (mods p)) as Hf.
      destruct (find (has_id (id m)) (mods p)) as [old|]; [reflexivity|].
      unfold has_id. now rewrite String.eqb_refl.
    + intros other Hne. rewrite find_snoc.
      destruct (find (has_id other) (mods p)); [reflexivity|].
      unfold has_id. destruct (String.eqb_spec (id m) other); [congruence | reflexivity].
    + split; [now apply filter_keeps_distinct|]. split.
      * destruct (existsb _ (filter _ _)) eqn:E; [|reflexivity].
        apply existsb_exists in E as [x [Hx Hid]]. apply filter_In in Hx as [_ Hx].
        rewrite Hid in Hx. discriminate.
      * intros other Hne. now apply find_filter_other.
Qed.

Definition profile_CBA : Profile :=
  {| profile_name := "main"; mods := mods_CBA; game_path := None; active := false |}.

Lemma profile_CBA_distinct : NoDup (map id (mods profile_CBA)).
Proof. apply nodupb_NoDup. reflexivity. Qed.

Lemma Profile_add_remove_mod_witness :
  NoDup (map id (mods (Profile_add_mod profile_CBA sample_mod))) /\
  Profile_has_mod (Profile_add_mod profile_CBA sample_mod) (id sample_mod) = true /\
  Profile_get_mod (Profile_add_mod profile_CBA sample_mod) (id sample_mod) =
    match Profile_get_mod profile_CBA (id sample_mod) with
    | Some old => Some old
    | None => Some sample_mod
    end /\
  (forall other, other <> id sample_mod ->
     Profile_get_mod (Profile_add_mod profile_CBA sample_mod) other =
     Profile_get_mod profile_CBA other) /\
  NoDup (map id (mods (Profile_remove_mod profile_CBA "x-B"))) /\
  Profile_has_mod (Profile_remove_mod profile_CBA "x-B") "x-B" = false /\
  (forall other, other <> "x-B" ->
     Profile_get_mod (Profile_remove_mod profile_CBA "x-B") other =
     Profile_get_mod profile_CBA other).
Proof.
  apply (Profile_add_remove_mod profile_CBA sample_mod "x-B"). exact profile_CBA_distinct.
Defined.

(** ** sort_by_dependencies *)

Lemma resolve_load_order_ok (set_iter : list string -> list string)
    (reg : list (string * Mod)) (mods0 : list Mod) (order : list string) :
  (forall l, Permutation (set_iter l) l) ->
  snd (resolve_load_order set_iter reg mods0) = Some (Ok order) ->
  NoDup order /\
  (forall n, In n order <-> In n (map id mods0)) /\
  (forall m d, dep_edge mods0 m d ->
     exists i j, index d order = Some i /\ index m order = Some j /\ (i < j)%nat).
Proof.
  intros Hperm. unfold resolve_load_order. cbn [snd].
  pose proof (build_dependency_graph_spec mods0) as Hb.
  destruct (_build_dependency_graph mods0) as [g|e]; [|discriminate].
  destruct Hb as [_ [Hwf [Hkeys Hedge]]].
  destruct (check_circular_spec set_iter Hperm g Hwf) as [r [Hr Hres]].
  rewrite Hr. destruct r as [[]|e]; [|discriminate].
  destruct (topological_sort_spec set_iter Hperm g Hwf) as [r' [Hr' Hsort]].
  destruct (Hsort Hres) as [order' [-> [Hnd [Hin Hord]]]].
  rewrite Hr'. intros [= <-]. split; [exact Hnd|]. split.
  - intros n. rewrite Hin. apply Hkeys.
  - intros m d Hd. apply before_index; [exact Hnd|]. apply Hord. now apply Hedge.
Qed.

Lemma resolve_load_order_ends (set_iter : list string -> list string)
    (reg : list (string * Mod)) (mods0 : list Mod) :
  (forall l, Permutation (set_iter l) l) ->
  exists r, snd (resolve_load_order set_iter reg mods0) = Some r.
Proof.
  intros Hperm. unfold resolve_load_order. cbn [snd].
  pose proof (build_dependency_graph_spec mods0) as Hb.
  destruct (_build_dependency_graph mods0) as [g|e]; [|eexists; reflexivity].
  destruct Hb as [_ [Hwf _]].
  destruct (check_circular_spec set_iter Hperm g Hwf) as [r [Hr _]].
  rewrite Hr. destruct r as [[]|e]; [|eexists; reflexivity].
  destruct (topological_sort_spec set_iter Hperm g Hwf) as [r' [Hr' _]].
  rewrite Hr'. eexists. reflexivity.
Qed.

Lemma renumber_ids (ms : list Mod) : forall i, map id (renumber i ms) = map id ms.
Proof.
  induction ms as [|m ms IH]; intros i; cbn [renumber map]; [reflexivity|].
  now rewrite IH.
Qed.

Lemma renumber_nth (ms : list Mod) : forall (start : Z) (i : nat) (m : Mod),
  nth_error (renumber start ms) i = Some m ->
  exists m0, nth_error ms i = Some m0 /\ m = set_load_order m0 (start + Z.of_nat i).
Proof.
  induction ms as [|x ms IH]; intros start i m; cbn [renumber].
  - destruct i; discriminate.
  - destruct i as [|i]; cbn [nth_error].
    + intros [= <-]. exists x. split; [reflexivity|]. f_equal. lia.
    + intros H. apply IH in H as [m0 [H1 H2]]. exists m0. split; [exact H1|].
      rewrite H2. f_equal. lia.
Qed.

Lemma sorted_mods_ids (p : Profile) (order : list string) :
  incl order (map id (mods p)) ->
  map id (flat_map (fun mid => match Profile_get_mod p mid with
                               | Some m => [m]
                               | None => []
                               end) order) = order /\
  incl (flat_map (fun mid => match Profile_get_mod p mid with
                             | Some m => [m]
                             | None => []
                             end) order) (mods p).
Proof.
  induction order as [|mid order IH]; intros Hincl; cbn [flat_map map].
  - split; [reflexivity | intros x []].
  - destruct IH as [IH1 IH2]; [intros x Hx; apply Hincl; now right|].
    unfold Profile_get_mod at 1 3. pose proof (find_has_id mid (mods p)) as Hf.
    destruct (find (has_id mid) (mods p)) as [m|].
    + destruct Hf as [Hin Hid]. cbn [app map]. split; [now rewrite IH1, Hid|].
      intros x [<-|Hx]; [exact Hin | now apply IH2].
    + exfalso. apply Hf. apply Hincl. now left.
Qed.

(** X25: [sort_by_dependencies] on a profile whose mods have distinct ids: it
    always ends; when the resolver raises, so does it; otherwise the profile
    holds the same mods, each with its position as load order and nothing
    else changed, and every mod stands after the mods it depends on. *)
Theorem Profile_sort_by_dependencies_sorts (set_iter : list string -> list string)
    (p : Profile) :
  (forall l, Permutation (set_iter l) l) -> NoDup (map id (mods p)) ->
  exists r, Profile_sort_by_dependencies set_iter p = Some r /\
    match r with
    | Raise e => snd (resolve_load_order set_iter [] (mods p)) = Some (Raise e)
    | Ok p' =>
        with_mods p' (mods p) = p /\
        Permutation (map id (mods p')) (map id (mods p)) /\
        (forall i m, nth_error (mods p') i = Some m ->
           exists m0, In m0 (mods p) /\ m = set_load_order m0 (Z.of_nat i)) /\
        (forall m dep, In m (mods p') -> In dep (dependencies m) ->
           exists i j, index (mod_id dep) (map id (mods p')) = Some i /\
                       index (id m) (map id (mods p')) = Some j /\ (i < j)%nat)
    end.
Proof.
  intros Hperm Hnd. unfold Profile_sort_by_dependencies.
  destruct (resolve_load_order_ends set_iter [] (mods p) Hperm) as [r Hr].
  pose proof (resolve_load_order_ok set_iter [] (mods p)) as Hok.
  rewrite Hr in *. destruct r as [order|e]; [|eexists; split; reflexivity].
  destruct (Hok order Hperm eq_refl) as [Hnd' [Hin Hord]].
  destruct (sorted_mods_ids p order) as [Hids Hincl]; [intros x; apply Hin|].
  eexists. split; [reflexivity|]. cbn [mods with_mods]. split; [|split; [|split]].
  - destruct p. reflexivity.
  - rewrite renumber_ids, Hids. apply NoDup_Permutation; assumption.
  - intros i m Hm. apply renumber_nth in Hm as [m0 [H1 H2]].
    exists m0. split; [|exact H2]. apply Hincl. eapply nth_error_In. exact H1.
  - intros m dep Hm Hdep. rewrite renumber_ids, Hids.
    apply In_nth_error in Hm as [i Hm]. apply renumber_nth in Hm as [m0 [H1 H2]].
    apply nth_error_In in H1. apply Hincl in H1. subst m. cbn [id dependencies] in *.
    apply Hord. exists m0. split; [exact H1|]. split; [reflexivity|].
    unfold dep_ids. now apply in_map.
Qed.

Lemma Profile_sort_by_dependencies_sorts_witness :
  exists r, Profile_sort_by_dependencies (fun l => l) profile_CBA = Some r /\
    match r with
    | Raise e => snd (resolve_load_order (fun l => l) [] (mods profile_CBA)) = Some (Raise e)
    | Ok p' =>
        with_mods p' (mods profile_CBA) = profile_CBA /\
        Permutation (map id (mods p')) (map id (mods profile_CBA)) /\
        (forall i m, nth_error (mods p') i = Some m ->
           exists m0, In m0 (mods profile_CBA) /\ m = set_load_order m0 (Z.of_nat i)) /\
        (forall m dep, In m (mods p') -> In dep (dependencies m) ->
           exists i j, index (mod_id dep) (map id (mods p')) = Some i /\
                       index (id m) (map id (mods p')) = Some j /\ (i < j)%nat)
    end.
Proof.
  apply (Profile_sort_by_dependencies_sorts (fun l => l) profile_CBA).
  - intros l. apply Permutation_refl.
  - exact profile_CBA_distinct.
Defined.

(** ** reorder_mods *)

Lemma filter_all_in {A : Type} (keep : A -> bool) (l : list A) :
  (forall x, In x l -> keep x = true) -> filter keep l = l.
Proof.
  induction l as [|x l IH]; cbn [filter]; intros Hall; [reflexivity|].
  rewrite (Hall x (or_introl eq_refl)). f_equal. apply IH. intros y Hy. apply Hall. now right.
Qed.

Lemma remove_first_filter (mid : string) (ms : list Mod) :
  NoDup (map id ms) -> remove_first mid ms = filter (fun m => negb (has_id mid m)) ms.
Proof.
  induction ms as [|m ms IH]; cbn [remove_first filter map]; [reflexivity|].
  intros Hnd. inversion Hnd as [|? ? Hm Hms]; subst.
  destruct (has_id mid m) eqn:E; cbn [negb].
  - symmetry. apply filter_all_in. intros x Hx. apply negb_true_iff.
    unfold has_id in *. apply String.eqb_eq in E.
    destruct (String.eqb_spec (id x) mid) as [E'|]; [|reflexivity].
    exfalso. apply Hm. rewrite E, <- E'. now apply in_map.
  - f_equal. now apply IH.
Qed.

Lemma remove_first_found (mid : string) (ms : list Mod) (m : Mod) :
  find (has_id mid) ms = Some m -> Permutation (m :: remove_first mid ms) ms.
Proof.
  induction ms as [|x ms IH]; cbn [find remove_first]; [discriminate|].
  destruct (has_id mid x).
  - intros [= ->]. apply Permutation_refl.
  - intros Hf. eapply perm_trans; [apply perm_swap|]. apply perm_skip. now apply IH.
Qed.

Lemma remove_first_other_ids (mid : string) (ms : list Mod) :
  filter (fun x => negb (String.eqb x mid)) (map id (remove_first mid ms)) =
  filter (fun x => negb (String.eqb x mid)) (map id ms).
Proof.
  induction ms as [|x ms IH]; cbn [remove_first map filter]; [reflexivity|].
  unfold has_id. destruct (String.eqb (id x) mid) eqn:E; cbn [negb map filter].
  - reflexivity.
  - rewrite E. cbn [negb]. f_equal. exact IH.
Qed.

Lemma index_after_fresh (x : string) (pre post : list string) :
  ~ In x pre -> index x (pre ++ x :: post) = Some (List.length pre).
Proof.
  induction pre as [|y pre IH]; cbn [app index List.length]; intros Hn.
  - destruct (eq_dec x x) as [_|Hne]; [reflexivity | now elim Hne].
  - destruct (eq_dec x y) as [->|Hne]; [exfalso; apply Hn; now left|].
    rewrite IH; [reflexivity|]. intros Hin. apply Hn. now right.
Qed.

(** X26: [reorder_mods] on a profile whose mods have distinct ids.  Without the
    mod it changes nothing.  With it, the profile holds the same mods, each
    with its position as load order and nothing else changed; the other
    mods keep their order among themselves; and the mod stands at the
    position asked for, counted from the end when negative and brought to
    the nearest end when out of range. *)
Theorem Profile_reorder_mods_moves (p : Profile) (mid : string) (new_position : Z) :
  NoDup (map id (mods p)) ->
  let p' := Profile_reorder_mods p mid new_position in
  let others := (Z.of_nat (List.length (mods p)) - 1)%Z in
  let position := if (new_position <? 0)%Z then Z.max 0 (new_position + others)
                  else Z.min new_position others in
  (Profile_has_mod p mid = false -> p' = p) /\
  (Profile_has_mod p mid = true ->
   with_mods p' (mods p) = p /\
   Permutation (map id (mods p')) (map id (mods p)) /\
   (forall i m, nth_error (mods p') i = Some m ->
      exists m0, In m0 (mods p) /\ m = set_load_order m0 (Z.of_nat i)) /\
   filter (fun x => negb (String.eqb x mid)) (map id (mods p')) =
   filter (fun x => negb (String.eqb x mid)) (map id (mods p)) /\
   index mid (map id (mods p')) = Some (Z.to_nat position)).
Proof.
  intros Hnd p' others position. subst p'.
  unfold Profile_reorder_mods, Profile_has_mod, Profile_get_mod.
  pose proof (find_has_id mid (mods p)) as Hf.
  destruct (find (has_id mid) (mods p)) as [m|] eqn:Efind.
  2:{ split; [reflexivity|]. intros Hex. apply existsb_has_id in Hex. contradiction. }
  destruct Hf as [Hin Hid]. split.
  { intros Hex. assert (In mid (map id (mods p))) as H by (rewrite <- Hid; now apply in_map).
    apply existsb_has_id in H. congruence. }
  intros _. cbn [mods with_mods].
  set (rest := remove_first mid (mods p)).
  assert (Hperm : Permutation (m :: rest) (mods p)) by now apply remove_first_found.
  assert (Hlen : Z.of_nat (List.length rest) = others).
  { apply Permutation_length in Hperm. cbn [List.length] in Hperm. subst others. lia. }
  unfold list_insert. fold rest. rewrite Hlen. fold position.
  set (j := Z.to_nat position).
  assert (Hj : (j <= List.length rest)%nat).
  { subst j position. destruct (Z.ltb_spec new_position 0); lia. }
  assert (Hins : Permutation (firstn j rest ++ m :: skipn j rest) (mods p)).
  { eapply perm_trans; [apply Permutation_sym, Permutation_middle|].
    rewrite firstn_skipn. exact Hperm. }
  split; [destruct p; reflexivity|]. split; [|split; [|split]].
  - rewrite renumber_ids. now apply Permutation_map.
  - intros i x Hx. apply renumber_nth in Hx as [m0 [H1 H2]].
    exists m0. split; [|exact H2]. apply nth_error_In in H1.
    eapply Permutation_in; [exact Hins | exact H1].
  - rewrite renumber_ids, map_app. cbn [map]. rewrite filter_app. cbn [filter].
    rewrite Hid, String.eqb_refl. cbn [negb].
    rewrite <- filter_app, <- map_app, firstn_skipn. apply remove_first_other_ids.
  - rewrite renumber_ids, map_app. cbn [map]. rewrite Hid.
    rewrite index_after_fresh.
    + rewrite length_map, firstn_length_le by exact Hj. reflexivity.
    + intros Hx. apply in_map_iff in Hx as [x [Hxid Hx]].
      assert (Hx' : In x rest)
        by (rewrite <- (firstn_skipn j rest); apply in_app_iff; now left).
      clear Hx. rename Hx' into Hx.
      subst rest. rewrite remove_first_filter in Hx by exact Hnd.
      apply filter_In in Hx as [_ Hx]. unfold has_id in Hx.
      rewrite Hxid, String.eqb_refl in Hx. discriminate.
Qed.

Lemma Profile_reorder_mods_moves_witness :
  let p' := Profile_reorder_mods profile_CBA "x-A" (-5) in
  let others := (Z.of_nat (List.length (mods profile_CBA)) - 1)%Z in
  let position := if (-5 <? 0)%Z then Z.max 0 (-5 + others) else Z.min (-5) others in
  (Profile_has_mod profile_CBA "x-A" = false -> p' = profile_CBA) /\
  (Profile_has_mod profile_CBA "x-A" = true ->
   with_mods p' (mods profile_CBA) = profile_CBA /\
   Permutation (map id (mods p')) (map id (mods profile_CBA)) /\
   (forall i m, nth_error (mods p') i = Some m ->
      exists m0, In m0 (mods profile_CBA) /\ m = set_load_order m0 (Z.of_nat i)) /\
   filter (fun x => negb (String.eqb x "x-A")) (map id (mods p')) =
   filter (fun x => negb (String.eqb x "x-A")) (map id (mods profile_CBA)) /\
   index "x-A" (map id (mods p')) = Some (Z.to_nat position)).
Proof.
  apply (Profile_reorder_mods_moves profile_CBA "x-A" (-5)). exact profile_CBA_distinct.
Defined.

(** * auto_resolve_dependencies *)

(** The body of the loop over the dependencies of the mod taken from the
    queue. *)
Definition enqueue (st : list string * list string) (dep : ModDependency)
    : list string * list string :=
  let '(rq, tp) := st in
  if mem (mod_id dep) rq then (rq, tp)
  else (rq ++ [mod_id dep], tp ++ [mod_id dep]).

Lemma resolve_load_order_raises (set_iter : list string -> list string)
    (reg : list (string * Mod)) (mods0 : list Mod) (e : exn) :
  (forall l, Permutation (set_iter l) l) ->
  snd (resolve_load_order set_iter reg mods0) = Some (Raise e) ->
  (exists m d c, e = MissingDependencyError m d c /\ dep_edge mods0 m d /\
                 ~ In d (map id mods0)) \/
  (exists chain, e = CircularDependencyError chain).
Proof.
  intros Hperm. unfold resolve_load_order. cbn [snd].
  pose proof (build_dependency_graph_spec mods0) as Hb.
  destruct (_build_dependency_graph mods0) as [g|e'].
  - destruct Hb as [_ [Hwf _]].
    destruct (check_circular_spec set_iter Hperm g Hwf) as [r [Hr Hres]].
    rewrite Hr. destruct r as [[]|e''].
    + destruct (topological_sort_spec set_iter Hperm g Hwf) as [r' [Hr' Hsort]].
      destruct (Hsort Hres) as [order [-> _]]. rewrite Hr'. discriminate.
    + destruct Hres as [chain [-> _]]. intros [= <-]. right. now exists chain.
  - destruct Hb as [_ [m [d [c [-> H]]]]]. intros [= <-]. left. exists m, d, c. auto.
Qed.

Section AutoFacts.

Variable available_mods : list (string * Mod).

(** Every dependency entry of the catalogue. *)
Definition catalogue_deps : list string :=
  map mod_id (flat_map (fun kv => dependencies (snd kv)) available_mods).

(** The dependency entries that are not required yet. *)
Definition waiting (required : list string) : nat :=
  List.length (filter (fun d => negb (mem d required)) catalogue_deps).

(** The dependencies of [x], if the catalogue has it, are required. *)
Definition processed (required : list string) (x : string) : Prop :=
  forall m, Dict.get available_mods x = Some m -> incl (dep_ids m) required.

Lemma enqueue_spec (deps : list ModDependency) : forall rq tp : list string,
  (forall dep, In dep deps -> In (mod_id dep) catalogue_deps) ->
  incl rq (fst (fold_left enqueue deps (rq, tp))) /\
  incl tp (snd (fold_left enqueue deps (rq, tp))) /\
  (forall dep, In dep deps -> In (mod_id dep) (fst (fold_left enqueue deps (rq, tp)))) /\
  (forall x, In x (fst (fold_left enqueue deps (rq, tp))) ->
             In x rq \/ In x (snd (fold_left enqueue deps (rq, tp)))) /\
  (List.length (snd (fold_left enqueue deps (rq, tp)))
   + waiting (fst (fold_left enqueue deps (rq, tp)))
   <= List.length tp + waiting rq)%nat.
Proof.
  induction deps as [|dep deps IH]; intros rq tp Hcat; cbn [fold_left].
  - cbn [fst snd]. split; [apply incl_refl|]. split; [apply incl_refl|].
    split; [intros dep []|]. split; [auto | lia].
  - assert (Hcat' : forall d, In d deps -> In (mod_id d) catalogue_deps)
      by (intros d Hd; apply Hcat; now right).
    assert (Hstep : enqueue (rq, tp) dep =
                    if mem (mod_id dep) rq then (rq, tp)
                    else (rq ++ [mod_id dep], tp ++ [mod_id dep])) by reflexivity.
    rewrite Hstep. clear Hstep. destruct (mem (mod_id dep) rq) eqn:Hm.
    + destruct (IH rq tp Hcat') as (H1 & H2 & H3 & H4 & H5).
      split; [exact H1|]. split; [exact H2|]. split; [|split; [exact H4 | exact H5]].
      intros d [<-|Hd]; [|auto]. apply H1. now apply mem_true_iff.
    + destruct (IH (rq ++ [mod_id dep]) (tp ++ [mod_id dep]) Hcat') as (H1 & H2 & H3 & H4 & H5).
      split; [intros x Hx; apply H1, in_app_iff; now left|].
      split; [intros x Hx; apply H2, in_app_iff; now left|].
      split; [|split].
      * intros d [<-|Hd]; [|auto]. apply H1, in_app_iff. right. now left.
      * intros x Hx. destruct (H4 x Hx) as [Hx'|Hx']; [|now right].
        apply in_app_iff in Hx' as [Hx'|[<-|[]]]; [now left|].
        right. apply H2, in_app_iff. right. now left.
      * assert (Hlt : (waiting (rq ++ [mod_id dep]) < waiting rq)%nat).
        { unfold waiting. apply filter_length_lt with (a := mod_id dep).
          - intros x _ Hx. apply negb_true_iff, mem_false_iff in Hx.
            apply negb_true_iff, mem_false_iff. intros Hin. apply Hx, in_app_iff. now left.
          - apply Hcat. now left.
          - now rewrite Hm.
          - apply negb_false_iff, mem_true_iff, in_app_iff. right. now left. }
        rewrite length_app in H5. cbn [List.length] in H5. lia.
Qed.

Lemma auto_loop_spec (fuel : nat) :
  forall (reg : list (string * Mod)) (required to_process : list string),
  (List.length to_process + waiting required < fuel)%nat ->
  (forall x, In x required -> In x to_process \/ processed required x) ->
  exists reg' required',
    auto_loop available_mods fuel reg required to_process = Some (reg', required') /\
    incl required required' /\
    (forall x, In x required' -> processed required' x).
Proof.
  induction fuel as [|fuel IH]; intros reg required to_process Hfuel Hinv; [lia|].
  destruct to_process as [|current_id rest]; cbn [auto_loop].
  - exists reg, required. split; [reflexivity|]. split; [apply incl_refl|].
    intros x Hx. destruct (Hinv x Hx) as [[]|H]. exact H.
  - cbn [List.length] in Hfuel.
    destruct (Dict.get available_mods current_id) as [m|] eqn:Hg.
    + match goal with
      | |- context [fold_left ?f (dependencies m) (required, rest)] =>
          change f with enqueue
      end.
      assert (Hcat : forall dep, In dep (dependencies m) -> In (mod_id dep) catalogue_deps).
      { intros dep Hdep. unfold catalogue_deps. apply in_map. apply in_flat_map.
        exists (current_id, m). split; [now apply DictFacts.get_In | exact Hdep]. }
      destruct (enqueue_spec (dependencies m) required rest Hcat) as (H1 & H2 & H3 & H4 & H5).
      destruct (fold_left enqueue (dependencies m) (required, rest)) as [rq' tp'].
      cbn [fst snd] in *.
      destruct (IH (register_mod reg m) rq' tp') as [reg' [required' [Hr [Hincl Hdone]]]].
      * lia.
      * intros x Hx. destruct (H4 x Hx) as [Hx'|Hx']; [|now left].
        destruct (Hinv x Hx') as [[<-|Hrest]|Hp].
        -- right. intros m' Hm'. rewrite Hg in Hm'. inversion Hm'; subst m'.
           intros d Hd. unfold dep_ids in Hd. apply in_map_iff in Hd as [dep [<- Hdep]].
           now apply H3.
        -- left. now apply H2.
        -- right. intros m' Hm' d Hd. apply H1. now apply (Hp m').
      * exists reg', required'. split; [exact Hr|]. split; [|exact Hdone].
        intros x Hx. now apply Hincl, H1.
    + apply IH; [lia|]. intros x Hx. destruct (Hinv x Hx) as [[<-|Hrest]|Hp].
      * right. intros m Hm. congruence.
      * now left.
      * now right.
Qed.

End AutoFacts.

(** X27: [auto_resolve_dependencies] over a catalogue whose keys are the ids of
    its mods: the loop always ends within its rounds.  A list that is
    returned has no id twice, holds every requested id that the catalogue
    has, and holds only ids of the catalogue, each after all its
    dependencies; so it is closed under dependencies.  Otherwise the error is
    [MissingDependencyError] for a dependency, of a mod of the catalogue,
    that the catalogue does not have, or [CircularDependencyError]. *)
Theorem auto_resolve_dependencies_closed (set_iter : list string -> list string)
    (reg : list (string * Mod)) (mod_ids : list string)
    (available_mods : list (string * Mod)) :
  (forall l, Permutation (set_iter l) l) ->
  (forall k m, Dict.get available_mods k = Some m -> id m = k) ->
  exists reg' r,
    auto_resolve_dependencies set_iter reg mod_ids available_mods = Some (reg', Some r) /\
    match r with
    | Ok order =>
        NoDup order /\
        (forall x, In x mod_ids -> Dict.get available_mods x <> None -> In x order) /\
        (forall x, In x order ->
           exists m, Dict.get available_mods x = Some m /\
             forall d, In d (dep_ids m) ->
               exists i j, index d order = Some i /\ index x order = Some j /\ (i < j)%nat)
    | Raise e =>
        (exists m d c md,
           e = MissingDependencyError m d c /\ Dict.get available_mods m = Some md /\
           In d (dep_ids md) /\ Dict.get available_mods d = None) \/
        (exists chain, e = CircularDependencyError chain)
    end.
Proof.
  intros Hperm Hkeys. unfold auto_resolve_dependencies.
  destruct (auto_loop_spec available_mods (auto_fuel mod_ids available_mods) reg
              (nodup string_dec mod_ids) mod_ids) as [reg1 [required [Hr [Hincl Hdone]]]].
  { unfold auto_fuel, waiting, catalogue_deps.
    pose proof (filter_length_le (fun _ : string => true)
                  (fun d => negb (mem d (nodup string_dec mod_ids)))
                  (map mod_id (flat_map (fun kv => dependencies (snd kv)) available_mods))
                  (fun _ _ _ => eq_refl)) as Hle.
    rewrite (filter_all (fun _ : string => true)) in Hle by reflexivity.
    rewrite length_map in Hle. lia. }
  { intros x Hx. left. now apply nodup_In in Hx. }
  rewrite Hr.
  set (mods_to_sort := flat_map (fun mid => match Dict.get available_mods mid with
                                            | Some m => [m]
                                            | None => []
                                            end) (set_iter required)).
  assert (Hmods : forall md, In md mods_to_sort <->
                    In (id md) required /\ Dict.get available_mods (id md) = Some md).
  { intros md. unfold mods_to_sort. rewrite in_flat_map. split.
    - intros [mid [Hmid Hin]]. apply (Permutation_in _ (Hperm required)) in Hmid.
      destruct (Dict.get available_mods mid) as [m|] eqn:Hg; [|destruct Hin].
      destruct Hin as [<-|[]]. rewrite (Hkeys _ _ Hg). auto.
    - intros [Hreq Hg]. exists (id md). split.
      + apply (Permutation_in _ (Permutation_sym (Hperm required))). exact Hreq.
      + rewrite Hg. now left. }
  destruct (resolve_load_order_ends set_iter reg1 mods_to_sort Hperm) as [r Hres].
  exists (fst (resolve_load_order set_iter reg1 mods_to_sort)), r. split.
  { rewrite <- Hres. now destruct (resolve_load_order set_iter reg1 mods_to_sort). }
  destruct r as [order|e].
  - destruct (resolve_load_order_ok set_iter reg1 mods_to_sort order Hperm Hres)
      as [Hnd [Hin Hord]].
    split; [exact Hnd|]. split.
    + intros x Hx Hav. apply Hin. destruct (Dict.get available_mods x) as [m|] eqn:Hg;
        [|congruence].
      apply in_map_iff. exists m. pose proof (Hkeys _ _ Hg) as Hid. split; [exact Hid|].
      apply Hmods. rewrite Hid. split; [|exact Hg]. apply Hincl. apply nodup_In. exact Hx.
    + intros x Hx. apply Hin in Hx. apply in_map_iff in Hx as [m [Hid Hm]].
      apply Hmods in Hm as Hm'. destruct Hm' as [_ Hg]. rewrite Hid in Hg.
      exists m. split; [exact Hg|]. intros d Hd. apply Hord.
      exists m. auto.
  - destruct (resolve_load_order_raises set_iter reg1 mods_to_sort e Hperm Hres)
      as [[m [d [c [-> [[md [Hmd [Hid Hd]]] Hnot]]]]]|Hc]; [left | right; exact Hc].
    apply Hmods in Hmd as Hmd'. destruct Hmd' as [Hreq Hg]. rewrite Hid in Hg, Hreq.
    exists m, d, c, md. split; [reflexivity|]. split; [exact Hg|]. split; [exact Hd|].
    destruct (Dict.get available_mods d) as [md'|] eqn:Hgd; [|reflexivity].
    exfalso. apply Hnot. apply in_map_iff. exists md'.
    pose proof (Hkeys _ _ Hgd) as Hid'. split; [exact Hid'|].
    apply Hmods. rewrite Hid'. split; [|exact Hgd].
    exact (Hdone m Hreq md Hg d Hd).
Qed.

Lemma auto_resolve_dependencies_closed_witness :
  exists reg' r,
    auto_resolve_dependencies (fun l => l) [] ["x-A"] catalog_A = Some (reg', Some r) /\
    match r with
    | Ok order =>
        NoDup order /\
        (forall x, In x ["x-A"] -> Dict.get catalog_A x <> None -> In x order) /\
        (forall x, In x order ->
           exists m, Dict.get catalog_A x = Some m /\
             forall d, In d (dep_ids m) ->
               exists i j, index d order = Some i /\ index x order = Some j /\ (i < j)%nat)
    | Raise e =>
        (exists m d c md,
           e = MissingDependencyError m d c /\ Dict.get catalog_A m = Some md /\
           In d (dep_ids md) /\ Dict.get catalog_A d = None) \/
        (exists chain, e = CircularDependencyError chain)
    end.
Proof.
  apply (auto_resolve_dependencies_closed (fun l => l) [] ["x-A"] catalog_A).
  - intros l. apply Permutation_refl.
  - intros k m. unfold catalog_A. cbn [Dict.get].
    destruct (eq_dec k "x-A") as [->|_]; [|discriminate]. now intros [= <-].
Defined.

(** * core/models.py: ModDependency.is_satisfied_by *)

(** [ModDependency.is_satisfied_by]. *)
Definition is_satisfied_by (dep : ModDependency) (version0 : string) : bool :=
  if String.eqb (version_constraint dep) "*" then true
  else String.eqb version0 (version_constraint dep).

(** X28: The check of the model is the check of the resolver without the
    comparison operators: what [is_satisfied_by] accepts,
    [_check_version_constraint] accepts too, and on a constraint that starts
    with neither [>] nor [<] the two give the same answer. *)
Theorem is_satisfied_by_agrees (dep : ModDependency) (version0 : string) :
  (is_satisfied_by dep version0 = true ->
   _check_version_constraint version0 (version_constraint dep) = true) /\
  (startswith (version_constraint dep) ">" = false ->
   startswith (version_constraint dep) "<" = false ->
   _check_version_constraint version0 (version_constraint dep) = is_satisfied_by dep version0).
Proof.
  unfold is_satisfied_by, _check_version_constraint.
  set (c := version_constraint dep).
  assert (Hsym : String.eqb c version0 = String.eqb version0 c) by apply String.eqb_sym.
  split.
  - destruct (String.eqb c "*"); [reflexivity|]. rewrite Hsym. now intros ->.
  - intros Hgt Hlt.
    assert (Hge : startswith c ">=" = false).
    { destruct c as [|a c']; [reflexivity|]. cbn [startswith] in *.
      destruct (Ascii.eqb ">" a); [discriminate | reflexivity]. }
    assert (Hle : startswith c "<=" = false).
    { destruct c as [|a c']; [reflexivity|]. cbn [startswith] in *.
      destruct (Ascii.eqb "<" a); [discriminate | reflexivity]. }
    rewrite Hge, Hgt, Hle, Hlt, Hsym.
    destruct (String.eqb c "*"); [reflexivity|].
    destruct (String.eqb version0 c); reflexivity.
Qed.

(** * calculate_changes: the state asked for *)

Section NewStateFacts.

Variable digest : string -> string.
Variable fs0 : filesystem.






End NewStateFacts.

(** [Mod.validate_mod_id], which [Mod.__post_init__] requires of the id:
    [mod_id.split('-', 1)] has two parts, neither of them blank. *)
Fixpoint split_first_dash (s : string) : option (string * string) :=
  match s with
  | EmptyString => None
  | String c rest =>
      if Ascii.eqb c "-"%char then Some (EmptyString, rest)
      else match split_first_dash rest with
           | Some (author, modname) => Some (String c author, modname)
           | None => None
           end
  end.

Definition validate_mod_id (mod_id : string) : bool :=
  match split_first_dash mod_id with
  | Some (author, modname) =>
      negb (String.eqb (lstrip author) EmptyString)
      && negb (String.eqb (lstrip modname) EmptyString)
  | None => false
  end.






(** An id that [validate_mod_id] accepts and that takes the files of the mod
    out of the game directory. *)
Definition escaping_mod : Mod :=
  {| id := "/evil-x"; name := "evil"; version := "1.0.0"; dependencies := [];
     config_files := []; install_path := Some ["mods"; "x-A"];
     enabled := true; load_order := 0 |}.

Example calculate_changes_absolute_id :
  validate_mod_id (id escaping_mod) = true /\
  exists ch,
    fst (calculate_changes (fun c => c) sample_engine sample_profile [escaping_mod]) = Ok ch /\
    to_add ch = [["evil-x"; "plugin.dll"]].
Proof. split; [reflexivity|]. eexists. split; reflexivity. Qed.
